(** * KVideo: manifest ad filtering and playback-session engine

    A shallow embedding of [src/lib/utils/m3u8-utils.ts] (the manifest
    rewriter [filterM3u8Ad]) and of the parts of the [useHlsPlayer] hook
    that drive it: the interception loader [AdFilterLoader], the
    fatal-error handler, the native-playback resolver
    [processMasterPlaylist] and the choice of the player made by the
    effect.

    - JavaScript strings are sequences of UTF-16 code units; they are
      lists of code units of type [N].
    - The array [processedLines] of the rewriter is a stack while the
      loop runs (its head is the last element) and is reversed at the end.
    - What the platform provides is a parameter: the environment variable
      with the keywords, [new URL(u).origin], [new URL(relative, base)],
      [fetch] and [URL.createObjectURL]. A call that throws or a promise
      that is rejected is [None].
    - The callbacks of [lines.map] in the resolver settle in an order the
      code does not fix; the order is the argument [schedule]. *)

From Stdlib Require Import NArith ZArith Lia Ascii String.
From stdpp Require Import list sets.

Local Open Scope N_scope.

(** ** JavaScript string primitives *)

Module JS.

Definition jsstring : Type := list N.

(** A literal of the source, given as a Rocq string of ASCII characters. *)
Definition lit (s : string) : jsstring :=
  List.map N_of_ascii (list_ascii_of_string s).

(** ECMAScript WhiteSpace and LineTerminator code units, the set that
    [String.prototype.trim] strips. *)
Definition is_ws (c : N) : bool :=
  (c =? 9) || (c =? 10) || (c =? 11) || (c =? 12) || (c =? 13) ||
  (c =? 32) || (c =? 160) || (c =? 5760) ||
  ((8192 <=? c) && (c <=? 8202)) ||
  (c =? 8232) || (c =? 8233) || (c =? 8239) || (c =? 8287) ||
  (c =? 12288) || (c =? 65279).

Fixpoint trimStart (s : jsstring) : jsstring :=
  match s with
  | [] => []
  | c :: s' => if is_ws c then trimStart s' else s
  end.

Definition trimEnd (s : jsstring) : jsstring := rev (trimStart (rev s)).

Definition trim (s : jsstring) : jsstring := trimEnd (trimStart s).

(** [s === t] on strings. *)
Fixpoint str_eqb (s t : jsstring) : bool :=
  match s, t with
  | [], [] => true
  | a :: s', b :: t' => (a =? b) && str_eqb s' t'
  | _, _ => false
  end.

(** [s.startsWith(p)] *)
Fixpoint startsWith (p s : jsstring) : bool :=
  match p, s with
  | [], _ => true
  | a :: p', b :: s' => (a =? b) && startsWith p' s'
  | _ :: _, [] => false
  end.

(** [s.includes(k)] *)
Fixpoint includes (k s : jsstring) : bool :=
  startsWith k s ||
  match s with
  | [] => false
  | _ :: s' => includes k s'
  end.

(** The truthiness of a string: [''] is falsy. *)
Definition truthy (s : jsstring) : bool :=
  match s with [] => false | _ :: _ => true end.

(** [s.lastIndexOf(c)] for a one-unit needle: the scan keeps the last
    position seen, starting from [-1]. *)
Fixpoint lastIndexOf_from (c : N) (s : jsstring) (i acc : Z) : Z :=
  match s with
  | [] => acc
  | x :: s' => lastIndexOf_from c s' (i + 1)%Z (if x =? c then i else acc)
  end.

Definition lastIndexOf (c : N) (s : jsstring) : Z :=
  lastIndexOf_from c s 0%Z (-1)%Z.

(** [s.substring(0, n)]: a negative end is taken as 0 and an end past
    the length as the length. *)
Definition substring0 (s : jsstring) (n : Z) : jsstring :=
  take (Z.to_nat n) s.

(** Puts a code unit in front of the first piece of a split. *)
Definition cons_first (c : N) (pieces : list jsstring) : list jsstring :=
  match pieces with
  | [] => [[c]]
  | h :: t => (c :: h) :: t
  end.

(** [s.split(/\r?\n/)]: a line feed, or a carriage return directly
    followed by a line feed, separates two pieces. *)
Fixpoint split_lines (s : jsstring) : list jsstring :=
  match s with
  | [] => [[]]
  | c :: rest =>
      if c =? 10 then [] :: split_lines rest
      else
        match rest with
        | d :: rest' =>
            if (c =? 13) && (d =? 10) then [] :: split_lines rest'
            else cons_first c (split_lines rest)
        | [] => [[c]]
        end
  end.

(** [s.split(/[\n,]/)] *)
Fixpoint split_list (s : jsstring) : list jsstring :=
  match s with
  | [] => [[]]
  | c :: rest =>
      if (c =? 10) || (c =? 44) then [] :: split_list rest
      else cons_first c (split_list rest)
  end.

(** [lines.join('\n')] *)
Fixpoint join (lines : list jsstring) : jsstring :=
  match lines with
  | [] => []
  | [l] => l
  | l :: rest => l ++ 10 :: join rest
  end.

End JS.

Import JS.

(** ** The manifest rewriter, [src/lib/utils/m3u8-utils.ts] *)

Module M3u8.

Definition EXTINF : jsstring := lit "#EXTINF:".
Definition DISCONTINUITY : jsstring := lit "#EXT-X-DISCONTINUITY".
Definition QUOTE : N := 34.
Definition SLASH : N := 47.

(** The five units [URI=] and the double quote. *)
Definition URI_ATTR : jsstring := lit "URI=" ++ [QUOTE].

(** The regular expression of the source, [URI=], a quote, a group of
    one or more units other than the quote, and a quote, tried at the
    start of [s]: the group is the longest run of units other than the
    quote, which must be non-empty and closed by a quote. The result is
    the captured group and what follows the match. *)
Fixpoint span_unquoted (s : jsstring) : jsstring * jsstring :=
  match s with
  | [] => ([], [])
  | c :: s' =>
      if c =? QUOTE then ([], s)
      else let '(run, tl) := span_unquoted s' in (c :: run, tl)
  end.

Definition match_uri (s : jsstring) : option (jsstring * jsstring) :=
  if startsWith URI_ATTR s then
    match span_unquoted (drop 5 s) with
    | (c :: run, _ :: rest) => Some (c :: run, rest)
    | _ => None
    end
  else None.

Section Rewriter.

(** [process.env.NEXT_PUBLIC_AD_KEYWORDS || ''] *)
Variable NEXT_PUBLIC_AD_KEYWORDS : jsstring.

(** [new URL(u).origin] of the platform; [None] when the constructor
    throws. *)
Variable URL_origin : jsstring -> option jsstring.

Definition keywords : list jsstring :=
  if truthy NEXT_PUBLIC_AD_KEYWORDS
  then List.filter truthy (List.map trim (split_list NEXT_PUBLIC_AD_KEYWORDS))
  else [lit "/adjump/"].

Definition basePath (baseUrl : jsstring) : jsstring :=
  substring0 baseUrl (lastIndexOf SLASH baseUrl + 1)%Z.

Definition origin (baseUrl : jsstring) : jsstring :=
  match URL_origin baseUrl with
  | Some o => o
  | None => []
  end.

Definition hasAdMatch (content : jsstring) : bool :=
  existsb (fun k => includes k content) keywords.

(** [keywords.some(keyword => trimmedLine.includes(keyword))] *)
Definition matchesKeyword (trimmedLine : jsstring) : bool :=
  existsb (fun keyword => includes keyword trimmedLine) keywords.

(** The callback of [line.replace]: the match is returned as it is
    when the group starts with [http] or with a slash, and with
    [basePath] put in front of the group otherwise. *)
Definition replaceCallback (baseUrl uri : jsstring) : jsstring :=
  if startsWith (lit "http") uri || startsWith (lit "/") uri
  then URI_ATTR ++ uri ++ [QUOTE]
  else URI_ATTR ++ basePath baseUrl ++ uri ++ [QUOTE].

(** The global replace: matches are looked for from left to right,
    the search resuming after each match. [fuel] bounds the number of
    positions visited; the length of the string is always enough. *)
Fixpoint replaceURI_fuel (fuel : nat) (baseUrl s : jsstring) : jsstring :=
  match fuel with
  | O => s
  | S fuel' =>
      match s with
      | [] => []
      | c :: s' =>
          match match_uri s with
          | Some (uri, rest) =>
              replaceCallback baseUrl uri ++ replaceURI_fuel fuel' baseUrl rest
          | None => c :: replaceURI_fuel fuel' baseUrl s'
          end
      end
  end.

Definition replaceURI (baseUrl line : jsstring) : jsstring :=
  replaceURI_fuel (length line) baseUrl line.

(** [lastLine.startsWith('#EXTINF:') || lastLine === '#EXT-X-DISCONTINUITY'] *)
Definition isMetadata (lastLine : jsstring) : bool :=
  startsWith EXTINF lastLine || str_eqb lastLine DISCONTINUITY.

(** [processedLines] is kept as a stack: its head is the last element
    of the array, [push] is a cons and [pop] drops the head. *)
Fixpoint backtrack (processed : list jsstring) : list jsstring :=
  match processed with
  | [] => []
  | last :: processed' =>
      if isMetadata (trim last) then backtrack processed' else processed
  end.

(** What the branches after the discontinuity test push for [line]. *)
Definition rewriteLine (baseUrl line : jsstring) : jsstring :=
  let trimmedLine := trim line in
  if negb (truthy trimmedLine) || startsWith (lit "http") trimmedLine
     || startsWith (lit "blob:") trimmedLine
  then line
  else if startsWith (lit "#") trimmedLine then
    if includes URI_ATTR trimmedLine then replaceURI baseUrl line else line
  else if startsWith (lit "/") trimmedLine then
    if truthy (origin baseUrl) then origin baseUrl ++ trimmedLine else trimmedLine
  else basePath baseUrl ++ trimmedLine.

(** One iteration of the loop over [lines]. *)
Definition processLine (baseUrl : jsstring) (hasAd : bool)
    (processed : list jsstring) (line : jsstring) : list jsstring :=
  let trimmedLine := trim line in
  if hasAd && matchesKeyword trimmedLine then backtrack processed
  else if str_eqb trimmedLine DISCONTINUITY then
    if negb hasAd then processed else line :: processed
  else rewriteLine baseUrl line :: processed.

Definition processLines (baseUrl : jsstring) (hasAd : bool)
    (lines : list jsstring) : list jsstring :=
  fold_left (processLine baseUrl hasAd) lines [].

(** The array [processedLines] when the loop ends, first element first. *)
Definition processedLines (content baseUrl : jsstring) : list jsstring :=
  rev (processLines baseUrl (hasAdMatch content) (split_lines content)).

Definition filterM3u8Ad (content baseUrl : jsstring) : jsstring :=
  if negb (truthy content) then []
  else join (processedLines content baseUrl).

End Rewriter.

End M3u8.

Import M3u8.

(** ** The playback hook, [useHlsPlayer] *)

Module Player.

(** *** The fatal-error handler registered on [Hls.Events.ERROR] *)

Inductive ErrorType := NETWORK_ERROR | MEDIA_ERROR | KEY_SYSTEM_ERROR | MUX_ERROR | OTHER_ERROR.

Record ErrorData := {
  fatal : bool;
  type : ErrorType;
  details : option jsstring
}.

(** The three messages handed to [onError] by the handler: the
    network-failure text, the media-failure text, and the generic text
    followed by [data.details] or by the unknown-error placeholder. *)
Inductive Message :=
| NetworkFailure
| MediaFailure
| FatalError (detail : option jsstring).

(** Calls made by the handler, in order: on the engine ([startLoad],
    [recoverMediaError], [destroy]) and on the caller ([onError]). *)
Inductive Command :=
| StartLoad
| RecoverMediaError
| Destroy
| OnError (m : Message).

Record Retries := {
  networkErrorRetries : nat;
  mediaErrorRetries : nat
}.

Definition MAX_RETRIES : nat := 3.

Definition initialRetries : Retries :=
  {| networkErrorRetries := 0; mediaErrorRetries := 0 |}.

Section ErrorHandler.

(** Whether the optional [onError] property was given: [onError?.(m)]
    calls it only then. *)
Variable onError_given : bool.

Definition report (m : Message) : list Command :=
  if onError_given then [OnError m] else [].

(** [data.details || unknown]: an empty string is falsy. *)
Definition detailOf (data : ErrorData) : option jsstring :=
  match details data with
  | Some d => if truthy d then Some d else None
  | None => None
  end.

Definition onErrorEvent (r : Retries) (data : ErrorData) : Retries * list Command :=
  if fatal data then
    match type data with
    | NETWORK_ERROR =>
        let r' := {| networkErrorRetries := S (networkErrorRetries r);
                     mediaErrorRetries := mediaErrorRetries r |} in
        if (networkErrorRetries r' <=? MAX_RETRIES)%nat
        then (r', [StartLoad])
        else (r', report NetworkFailure ++ [Destroy])
    | MEDIA_ERROR =>
        let r' := {| networkErrorRetries := networkErrorRetries r;
                     mediaErrorRetries := S (mediaErrorRetries r) |} in
        if (mediaErrorRetries r' <=? MAX_RETRIES)%nat
        then (r', [RecoverMediaError])
        else (r', report MediaFailure ++ [Destroy])
    | _ => (r, report (FatalError (detailOf data)) ++ [Destroy])
    end
  else (r, []).

(** The handler run on a feed of events, the commands in order. *)
Fixpoint feed (r : Retries) (events : list ErrorData) : Retries * list Command :=
  match events with
  | [] => (r, [])
  | data :: events' =>
      let '(r1, cmds1) := onErrorEvent r data in
      let '(r2, cmds2) := feed r1 events' in
      (r2, cmds1 ++ cmds2)
  end.

End ErrorHandler.

(** *** The interception loader, [AdFilterLoader] *)

Inductive ContextType := manifest | level | audioTrack | subtitleTrack | otherType.

Inductive ResponseData :=
| StringData (s : jsstring)
| ArrayBufferData (bytes : list N).

Record Response := {
  response_url : jsstring;
  data : ResponseData
}.

Record Context := {
  context_type : ContextType;
  context_url : jsstring
}.

Section Loader.

Variables Stats NetworkDetails : Type.

(** The rewriter as the hook sees it: a call that returns a string or
    throws ([None]). *)
Variable filter : jsstring -> jsstring -> option jsstring.

(** What a success callback does, as seen from the loader: a warning
    on the console, or a call of the callback the engine gave. *)
Inductive LoaderEvent :=
| ConsoleWarn
| OriginalOnSuccess (response : Response) (stats : Stats)
    (context : Context) (networkDetails : NetworkDetails).

Definition Callback : Type :=
  Response -> Stats -> Context -> NetworkDetails -> list LoaderEvent.

Definition isOriginalCall (e : LoaderEvent) : bool :=
  match e with OriginalOnSuccess _ _ _ _ => true | ConsoleWarn => false end.

(** The callback installed in place of [callbacks.onSuccess]. The
    response object is updated in place and handed on. *)
Definition wrappedOnSuccess (originalOnSuccess : Callback) : Callback :=
  fun response stats context networkDetails =>
    match data response with
    | StringData s =>
        match filter s (context_url context) with
        | Some filtered =>
            originalOnSuccess
              {| response_url := response_url response; data := StringData filtered |}
              stats context networkDetails
        | None =>
            ConsoleWarn :: originalOnSuccess response stats context networkDetails
        end
    | ArrayBufferData _ =>
        originalOnSuccess response stats context networkDetails
    end.

(** [load]: the callback that reaches [super.load]. *)
Definition isManifestOrLevel (t : ContextType) : bool :=
  match t with manifest | level => true | _ => false end.

Definition load (adFilter : bool) (context : Context)
    (onSuccess : Callback) : Callback :=
  if adFilter && isManifestOrLevel (context_type context)
  then wrappedOnSuccess onSuccess
  else onSuccess.

End Loader.

(** [AdFilterLoader] as the source has it: the hook around
    [filterM3u8Ad], which returns for every input. *)
Definition AdFilterLoader_load (NEXT_PUBLIC_AD_KEYWORDS : jsstring)
    (URL_origin : jsstring -> option jsstring) (Stats NetworkDetails : Type)
    : bool -> Context -> Callback Stats NetworkDetails -> Callback Stats NetworkDetails :=
  load Stats NetworkDetails
    (fun data url => Some (filterM3u8Ad NEXT_PUBLIC_AD_KEYWORDS URL_origin data url)).

(** *** The resolver for native playback, [processMasterPlaylist] *)

Definition STREAM_INF : jsstring := lit "#EXT-X-STREAM-INF".
Definition EXT_X_MEDIA : jsstring := lit "#EXT-X-MEDIA".

(** [s.match] with the regular expression of the quoted attribute: the
    group of the first match. *)
Fixpoint firstUri (s : jsstring) : option jsstring :=
  match s with
  | [] => None
  | _ :: s' =>
      match match_uri s with
      | Some (uri, _) => Some uri
      | None => firstUri s'
      end
  end.

(** [s.replace(pattern, replacement)] with a string pattern: the first
    occurrence only. *)
Fixpoint replaceFirst (pattern replacement s : jsstring) : jsstring :=
  if startsWith pattern s then replacement ++ drop (length pattern) s
  else
    match s with
    | [] => []
    | c :: s' => c :: replaceFirst pattern replacement s'
    end.

(** The child playlist a line of the master refers to. *)
Inductive Child :=
| MediaUri (relativeUri : jsstring)
| VariantUri (trimmedLine : jsstring).

(** The artifacts made so far: the next URL to hand out, the content
    behind each URL, and the array [createdBlobs]. *)
Record Blobs := {
  handedOut : nat;
  store : list (jsstring * jsstring);
  createdBlobs : list jsstring
}.

Inductive Resolution :=
| SimplePlaylist (blobUrl : jsstring)
| MasterPlaylist (masterBlobUrl : jsstring) (allBlobs : list jsstring)
| Rejected.

Section Resolver.

Variable NEXT_PUBLIC_AD_KEYWORDS : jsstring.
Variable URL_origin : jsstring -> option jsstring.

(** [new URL(relative, base).toString()]; [None] when it throws. *)
Variable URL_resolve : jsstring -> jsstring -> option jsstring.

(** [fetch(url)] followed by [text()]; [None] when the promise is
    rejected. *)
Variable fetchText : jsstring -> option jsstring.

(** The URL [URL.createObjectURL] returns at its n-th call. *)
Variable objectURL : nat -> jsstring.

Definition createObjectURL (content : jsstring) (b : Blobs) : jsstring * Blobs :=
  let url := objectURL (handedOut b) in
  (url, {| handedOut := S (handedOut b);
           store := store b ++ [(url, content)];
           createdBlobs := createdBlobs b |}).

Definition pushCreated (url : jsstring) (b : Blobs) : Blobs :=
  {| handedOut := handedOut b; store := store b;
     createdBlobs := createdBlobs b ++ [url] |}.

(** The tests of the callback of [lines.map] that decide whether the
    line starts a fetch. *)
Definition childOf (lines : list jsstring) (index : nat) (line : jsstring)
    : option Child :=
  let trimmedLine := trim line in
  let variant :=
    let prevLine :=
      match index with
      | O => []
      | S i => match lines !! i with Some l => trim l | None => [] end
      end in
    if startsWith STREAM_INF prevLine && truthy trimmedLine
       && negb (startsWith (lit "#") trimmedLine)
       && negb (startsWith (lit "http") trimmedLine)
    then Some (VariantUri trimmedLine) else None in
  if startsWith EXT_X_MEDIA trimmedLine && includes URI_ATTR trimmedLine then
    match firstUri trimmedLine with
    | Some relativeUri =>
        if negb (startsWith (lit "http") relativeUri)
        then Some (MediaUri relativeUri) else variant
    | None => variant
    end
  else variant.

Definition relativeOf (c : Child) : jsstring :=
  match c with MediaUri u => u | VariantUri u => u end.

(** What the callback returns for [line] once the child is behind
    [subBlobUrl]: the attribute rewritten for a rendition, the URL itself
    for a variant. *)
Definition settledLine (line : jsstring) (c : Child) (subBlobUrl : jsstring)
    : jsstring :=
  match c with
  | MediaUri relativeUri =>
      replaceFirst (URI_ATTR ++ relativeUri ++ [QUOTE])
        (URI_ATTR ++ subBlobUrl ++ [QUOTE]) line
  | VariantUri _ => subBlobUrl
  end.

(** The body of a [try] block once its fetch has settled: the line
    the callback returns and the artifacts after it. A failure in the
    block returns the line as it was. *)
Definition settleChild (masterSrc line : jsstring) (c : Child) (b : Blobs)
    : jsstring * Blobs :=
  match URL_resolve (relativeOf c) masterSrc with
  | None => (line, b)
  | Some absoluteUrl =>
      match fetchText absoluteUrl with
      | None => (line, b)
      | Some subContent =>
          let filteredSub :=
            filterM3u8Ad NEXT_PUBLIC_AD_KEYWORDS URL_origin subContent absoluteUrl in
          let '(subBlobUrl, b1) := createObjectURL filteredSub b in
          let b2 := pushCreated subBlobUrl b1 in
          (settledLine line c subBlobUrl, b2)
      end
  end.

(** Whether the child of the line at [index], if it has one, is fetched
    with success. *)
Definition childSettles (masterSrc : jsstring) (lines : list jsstring)
    (index : nat) : bool :=
  match lines !! index with
  | Some line =>
      match childOf lines index line with
      | Some c =>
          match URL_resolve (relativeOf c) masterSrc with
          | Some absoluteUrl => bool_decide (is_Some (fetchText absoluteUrl))
          | None => false
          end
      | None => false
      end
  | None => false
  end.

(** The callbacks of the lines that fetch settle one after the other
    in the order [schedule] (any order is possible); each stores its
    result at the index of its line, as [Promise.all] does. Lines
    that do not fetch return themselves. *)
Fixpoint settleAll (masterSrc : jsstring) (lines : list jsstring)
    (schedule : list nat) (results : list jsstring) (b : Blobs)
    : list jsstring * Blobs :=
  match schedule with
  | [] => (results, b)
  | index :: schedule' =>
      match lines !! index with
      | Some line =>
          match childOf lines index line with
          | Some c =>
              let '(result, b') := settleChild masterSrc line c b in
              settleAll masterSrc lines schedule' (<[index := result]> results) b'
          | None => settleAll masterSrc lines schedule' results b
          end
      | None => settleAll masterSrc lines schedule' results b
      end
  end.

(** The indices of the lines that fetch a child. *)
Definition childIndices (lines : list jsstring) : list nat :=
  List.filter
    (fun index =>
       match lines !! index with
       | Some line => bool_decide (is_Some (childOf lines index line))
       | None => false
       end)
    (seq 0 (length lines)).

Definition noBlobs : Blobs :=
  {| handedOut := 0; store := []; createdBlobs := [] |}.

Definition processMasterPlaylist (masterSrc : jsstring) (schedule : list nat)
    : Resolution * Blobs :=
  match fetchText masterSrc with
  | None => (Rejected, noBlobs)
  | Some masterContent =>
      if negb (includes STREAM_INF masterContent) then
        let filtered :=
          filterM3u8Ad NEXT_PUBLIC_AD_KEYWORDS URL_origin masterContent masterSrc in
        let '(blobUrl, b) := createObjectURL filtered noBlobs in
        (SimplePlaylist blobUrl, b)
      else
        let lines := split_lines masterContent in
        let '(processedLines, b) := settleAll masterSrc lines schedule lines noBlobs in
        let finalMasterContent := join processedLines in
        let '(masterBlobUrl, b1) := createObjectURL finalMasterContent b in
        let b2 := pushCreated masterBlobUrl b1 in
        (MasterPlaylist masterBlobUrl (createdBlobs b2), b2)
  end.

(** The URLs the cleanup of the effect revokes: [objectUrl] and
    [extraBlobs] as the [then] branch set them. *)
Definition revokedOnCleanup (r : Resolution) : list jsstring :=
  match r with
  | SimplePlaylist blobUrl => [blobUrl]
  | MasterPlaylist _ allBlobs => allBlobs
  | Rejected => []
  end.

End Resolver.

(** *** The effect of the hook: what the video element is given *)

(** What the effect does with the video element: nothing (no element or
    no source), an [Hls] engine loaded with [src] and attached, with
    [AdFilterLoader] as its loader or not, [video.src] set to a URL, or
    the report to the caller that HLS is not supported. *)
Inductive Attachment :=
| NoEffect
| HlsEngine (customLoader : bool)
| VideoSrc (url : jsstring)
| NotSupported.

(** The [then] and [catch] callbacks on the promise of
    [processMasterPlaylist]: the URL given to [video.src]. *)
Definition attachResolved (src : jsstring) (r : Resolution) : Attachment :=
  match r with
  | SimplePlaylist blobUrl => VideoSrc blobUrl
  | MasterPlaylist masterBlobUrl _ => VideoSrc masterBlobUrl
  | Rejected => VideoSrc src
  end.

Section Effect.

Variable NEXT_PUBLIC_AD_KEYWORDS : jsstring.
Variable URL_origin : jsstring -> option jsstring.
Variable URL_resolve : jsstring -> jsstring -> option jsstring.
Variable fetchText : jsstring -> option jsstring.
Variable objectURL : nat -> jsstring.

(** The body of the effect once the promise of the resolver, if one was
    made, has settled: the attachment, the URLs its cleanup revokes and
    the artifacts made. [video] says whether the element is there;
    [isNativeHlsSupported] is the truthiness of the answer of
    [canPlayType]. *)
Definition useHlsPlayer_effect (video : bool) (src : jsstring)
    (Hls_isSupported isNativeHlsSupported adFilter : bool) (schedule : list nat)
    : Attachment * list jsstring * Blobs :=
  if negb video || negb (truthy src) then (NoEffect, [], noBlobs)
  else if Hls_isSupported then
    if negb isNativeHlsSupported || adFilter
    then (HlsEngine adFilter, [], noBlobs)
    else (VideoSrc src, [], noBlobs)
  else if isNativeHlsSupported then
    if adFilter then
      let '(r, b) :=
        processMasterPlaylist NEXT_PUBLIC_AD_KEYWORDS URL_origin URL_resolve
          fetchText objectURL src schedule in
      (attachResolved src r, revokedOnCleanup r, b)
    else (VideoSrc src, [], noBlobs)
  else (NotSupported, [], noBlobs).

End Effect.

End Player.

(** A reading of [new URL(u).origin] for URLs of the shape
    [scheme://authority/...]: the text up to the first slash after the
    double slash. It is used to run the rewriter on concrete inputs. *)
Fixpoint upto_slash (s : jsstring) : jsstring :=
  match s with
  | [] => []
  | c :: s' => if c =? SLASH then [] else c :: upto_slash s'
  end.

Definition simple_origin (u : jsstring) : option jsstring :=
  if startsWith (lit "http://") u then Some (lit "http://" ++ upto_slash (drop 7 u))
  else if startsWith (lit "https://") u then Some (lit "https://" ++ upto_slash (drop 8 u))
  else None.

(** Two lines of a Rocq string literal, separated by a line feed. *)
Definition nl (a b : string) : string := (a ++ String (ascii_of_nat 10) b)%string.

Import Player.

(** * The statements: predicates, readings and example inputs *)

(** ** Strings *)

(** Nothing to strip at either end. *)
Definition trimmed (s : jsstring) : Prop :=
  trimStart s = s /\ trimStart (rev s) = rev s.

(** A needle without line feed that does not end with a carriage return
    lies inside one line. *)
Definition within_line (k : jsstring) : Prop :=
  (10 ∉ k) /\ (forall k', k <> k' ++ [13]).

Definition endsWithCR (line : jsstring) : bool :=
  match last line with
  | Some c => c =? 13
  | None => false
  end.

(** The units of a URL: letters, digits and the punctuation of RFC 3986. *)
Definition urlUnit (c : N) : bool :=
  ((48 <=? c) && (c <=? 57)) || ((65 <=? c) && (c <=? 90)) ||
  ((97 <=? c) && (c <=? 122)) ||
  existsb (N.eqb c) (lit "-._~:/?#[]@!$&'()*+,;=%").

(** An absolute URL of the [http] or [https] scheme. *)
Definition httpUrl (u : jsstring) : bool :=
  (startsWith (lit "http://") u || startsWith (lit "https://") u) &&
  forallb urlUnit u.

(** The origin is missing, or starts with [http] and is made of the
    units of a URL. *)
Definition httpOrigin (o : jsstring) : bool :=
  negb (truthy o) || (startsWith (lit "http") o && forallb urlUnit o).

(** A prefix that does not begin, white space apart, with the number sign. *)
Definition plainPrefix (p : jsstring) : bool :=
  negb (startsWith (lit "#") (trimStart p)).

(** A line of the returned text and the element of [processedLines] it
    comes from: the element itself, or the element without the carriage
    return that ended it (the next split takes it with the line feed). *)
Definition lineOfText (t l : jsstring) : Prop := t = l \/ l = t ++ [13].

(** ** Classes of lines *)

(** The test of the general clean-up branch: blank, or starting with
    [http] or [blob:]. *)
Definition passedThrough (trimmedLine : jsstring) : bool :=
  negb (truthy trimmedLine) || startsWith (lit "http") trimmedLine
  || startsWith (lit "blob:") trimmedLine.

Definition isDuration (line : jsstring) : bool := startsWith EXTINF (trim line).

Definition isDiscontinuity (line : jsstring) : bool :=
  str_eqb (trim line) DISCONTINUITY.

(** A line that names something to play: not blank and not a tag. *)
Definition isPlayable (line : jsstring) : bool :=
  truthy (trim line) && negb (startsWith (lit "#") (trim line)).

(** ** Duration tags and what follows them *)

(** A line with nothing on it but white space. After the last line feed
    of a text the split leaves such a line, the empty one. *)
Definition isBlank (line : jsstring) : bool := negb (truthy (trim line)).

(** The duration tag [o] dangles before [rest]: the next line is a
    duration tag, or the document ends there (no line is left, or blank
    lines only), or the next line is a discontinuity tag with nothing
    playable after it. *)
Definition danglingAt (o : jsstring) (rest : list jsstring) : bool :=
  isDuration o &&
  match rest with
  | [] => true
  | s :: rest' =>
      isDuration s || forallb isBlank rest
      || (isDiscontinuity s && negb (existsb isPlayable rest'))
  end.

Fixpoint noDangling (out : list jsstring) : bool :=
  match out with
  | [] => true
  | o :: rest => negb (danglingAt o rest) && noDangling rest
  end.

(** Every duration tag is directly followed by the line of its segment:
    a line that names something to play, neither blank nor a tag. *)
Fixpoint durationsFollowed (lines : list jsstring) : bool :=
  match lines with
  | [] => true
  | l :: rest =>
      (if isDuration l then
         match rest with
         | s :: _ => isPlayable s
         | [] => false
         end
       else true) && durationsFollowed rest
  end.

(** The same on the stack: [next] is the line pushed after the head. *)
Fixpoint okStack (next : option jsstring) (processed : list jsstring) : bool :=
  match processed with
  | [] => true
  | x :: processed' =>
      (if isDuration x then
         match next with
         | Some s => isPlayable s
         | None => false
         end
       else true) && okStack (Some x) processed'
  end.

Definition okBelow (processed : list jsstring) : bool :=
  match processed with
  | [] => true
  | x :: processed' => okStack (Some x) processed'
  end.

(** What the lines still to come must satisfy when the head of the stack
    is [processed]'s last line. *)
Definition followedFrom (processed lines : list jsstring) : bool :=
  match processed with
  | e :: _ =>
      if isDuration e then
        match lines with
        | l :: _ => isPlayable l
        | [] => false
        end
      else true
  | [] => true
  end && durationsFollowed lines.

(** ** The reach of a backtrack *)

(** A backtrack started by a line of [post] reaches what was pushed just
    before [post]: an ad line comes after lines that were all pushed as
    metadata. *)
Fixpoint reachedByBacktrack (env : jsstring) (URL_origin : jsstring -> option jsstring)
    (baseUrl : jsstring) (post : list jsstring) : bool :=
  match post with
  | [] => false
  | l :: rest =>
      if matchesKeyword env (trim l) then true
      else if isMetadata (trim (rewriteLine URL_origin baseUrl l))
           then reachedByBacktrack env URL_origin baseUrl rest
           else false
  end.

(** ** Lines that a second rewriting keeps *)

(** A line that the rewriting leaves as it is, and that the splitting of
    the joined output gives back. *)
Definition stable (URL_origin : jsstring -> option jsstring)
    (baseUrl o : jsstring) : Prop :=
  (10 ∉ o) /\ endsWithCR o = false /\ isDiscontinuity o = false /\
  rewriteLine URL_origin baseUrl o = o.

(** ** Artifacts of the resolver *)

(** The blobs after [n] more children have settled. *)
Definition grown (objectURL : nat -> jsstring) (b b' : Blobs) (n : nat) : Prop :=
  handedOut b' = (handedOut b + n)%nat /\
  createdBlobs b' = createdBlobs b ++ List.map objectURL (seq (handedOut b) n) /\
  exists contents, store b' = store b ++ contents /\ length contents = n.

(** ** References of a master playlist *)

(** The line at [index] is the URI line of a variant, written relative:
    the line before it is a stream-info tag, and the line itself,
    trimmed, is not empty and starts neither with the number sign nor
    with [http]. *)
Definition relativeVariantAt (lines : list jsstring) (index : nat) : bool :=
  match index with
  | O => false
  | S before =>
      match lines !! before, lines !! index with
      | Some tag, Some line =>
          startsWith STREAM_INF (trim tag) && truthy (trim line)
          && negb (startsWith (lit "#") (trim line))
          && negb (startsWith (lit "http") (trim line))
      | _, _ => false
      end
  end.

(** The line is a rendition tag with a quoted URI attribute. *)
Definition hasRendition (line : jsstring) : bool :=
  startsWith EXT_X_MEDIA (trim line) && includes URI_ATTR (trim line).

(** ** Events and callbacks *)

Definition networkFatal (detail : option jsstring) : ErrorData :=
  {| fatal := true; type := NETWORK_ERROR; details := detail |}.

(** The engine's own success callback, seen as one event. *)
Definition engineOnSuccess {Stats NetworkDetails : Type}
    : Callback Stats NetworkDetails :=
  fun response stats context networkDetails =>
    [OriginalOnSuccess Stats NetworkDetails response stats context networkDetails].

(** ** Example inputs *)

Definition scenario_input : jsstring :=
  lit (nl "#EXTINF:5" (nl "http://h/a.ts" (nl "#EXTINF:3" (nl "http://h/adjump/x.ts"
      (nl "#EXTINF:5" "http://h/b.ts"))))).

Definition scenario_output : jsstring :=
  lit (nl "#EXTINF:5" (nl "http://h/a.ts" (nl "#EXTINF:5" "http://h/b.ts"))).

Definition example_base : jsstring := lit "http://cdn.example/path/master.m3u8".

Definition discontinuity_example : jsstring :=
  lit (nl "#EXTINF:5" (nl "http://h/a.ts" (nl "#EXT-X-DISCONTINUITY" (nl "#EXTINF:5"
      (nl "http://h/b.ts" (nl "#EXT-X-DISCONTINUITY" (nl "#EXTINF:3" "http://h/adjump/x.ts"))))))).

Definition clean_example : jsstring :=
  lit (nl "#EXTM3U" (nl "#EXT-X-DISCONTINUITY" "#EXT-X-KEY:METHOD=AES-128,"))
  ++ URI_ATTR ++ lit "key.bin" ++ [QUOTE; 10]
  ++ lit (nl "#EXTINF:5" (nl "seg1.ts" (nl "/seg2.ts" "http://h/c.ts"))).

(** A master playlist with three relative variants; the fetch of the
    second one is rejected. References are resolved against the
    directory of the master by putting its base path in front. *)
Definition example_master_src : jsstring := lit "http://h/p/master.m3u8".

Definition example_master : jsstring :=
  lit (nl "#EXTM3U" (nl "#EXT-X-STREAM-INF:BANDWIDTH=1" (nl "v1.m3u8"
      (nl "#EXT-X-STREAM-INF:BANDWIDTH=2" (nl "v2.m3u8"
      (nl "#EXT-X-STREAM-INF:BANDWIDTH=3" "v3.m3u8")))))).

Definition example_resolve (relative base : jsstring) : option jsstring :=
  Some (basePath base ++ relative).

Definition example_fetch (url : jsstring) : option jsstring :=
  if str_eqb url example_master_src then Some example_master
  else if str_eqb url (lit "http://h/p/v1.m3u8") then Some scenario_input
  else if str_eqb url (lit "http://h/p/v3.m3u8") then Some (lit (nl "#EXTINF:5" "seg1.ts"))
  else None.

Definition example_objectURL (n : nat) : jsstring :=
  lit "blob:" ++ [48 + N.of_nat n].

(** ** The claims that fail, read as they are stated *)

(** C2 as it is stated: without keyword in any line no
    discontinuity tag is in the output; with a keyword in some line, a
    discontinuity tag that no backtrack reaches stays where it was
    pushed, after the output of the lines before it. *)
Definition hybrid_policy (env : jsstring)
    (URL_origin : jsstring -> option jsstring) : Prop :=
  forall content baseUrl,
    ((forall l, l ∈ split_lines content -> matchesKeyword env l = false) ->
     forall o, o ∈ processedLines env URL_origin content baseUrl ->
               isDiscontinuity o = false) /\
    ((exists l, l ∈ split_lines content /\ matchesKeyword env l = true) ->
     forall pre d post,
       split_lines content = pre ++ d :: post ->
       isDiscontinuity d = true ->
       reachedByBacktrack env URL_origin baseUrl post = false ->
       exists after,
         processedLines env URL_origin content baseUrl
         = rev (processLines env URL_origin baseUrl true pre) ++ d :: after).

(** C4 as it is stated: for a playlist without keyword in any line and
    an absolute base URL, rewriting twice is rewriting once. *)
Definition rewriter_idempotent (env : jsstring)
    (URL_origin : jsstring -> option jsstring) : Prop :=
  forall x u,
    (forall l, l ∈ split_lines x -> matchesKeyword env l = false) ->
    httpUrl u = true ->
    filterM3u8Ad env URL_origin (filterM3u8Ad env URL_origin x u) u
    = filterM3u8Ad env URL_origin x u.

(** C5 as it is stated: no duration tag dangles in any output. *)
Definition no_dangling_metadata (env : jsstring)
    (URL_origin : jsstring -> option jsstring) : Prop :=
  forall content baseUrl,
    noDangling (processedLines env URL_origin content baseUrl) = true.

(** The third part of C7 as it is stated: the line of a
    variant whose fetch is rejected ends as the absolute URL of the
    variant. *)
Definition failed_variant_left_absolute (env : jsstring)
    (URL_origin : jsstring -> option jsstring)
    (URL_resolve : jsstring -> jsstring -> option jsstring)
    (fetchText : jsstring -> option jsstring) (objectURL : nat -> jsstring) : Prop :=
  forall masterSrc masterContent schedule index line trimmedLine absoluteUrl,
    fetchText masterSrc = Some masterContent ->
    includes STREAM_INF masterContent = true ->
    schedule ≡ₚ childIndices (split_lines masterContent) ->
    split_lines masterContent !! index = Some line ->
    childOf (split_lines masterContent) index line = Some (VariantUri trimmedLine) ->
    URL_resolve trimmedLine masterSrc = Some absoluteUrl ->
    fetchText absoluteUrl = None ->
    (settleAll env URL_origin URL_resolve fetchText objectURL masterSrc
       (split_lines masterContent) schedule (split_lines masterContent) noBlobs).1
      !! index = Some absoluteUrl.

(** C10 as it is stated: with a base path and an origin that hold no
    keyword, no line of the output holds a keyword. *)
Definition keyword_free_output (env : jsstring)
    (URL_origin : jsstring -> option jsstring) : Prop :=
  forall content baseUrl,
    matchesKeyword env (basePath baseUrl) = false ->
    matchesKeyword env (origin URL_origin baseUrl) = false ->
    forall o, o ∈ processedLines env URL_origin content baseUrl ->
              matchesKeyword env o = false.

(** ** The keyword setting *)

(** Keywords written as the setting has them, separated by commas. *)
Fixpoint commaList (ks : list jsstring) : jsstring :=
  match ks with
  | [] => []
  | [k] => k
  | k :: rest => k ++ 44 :: commaList rest
  end.

(** A keyword as the parsing of the setting leaves it: not empty, nothing
    to strip at its ends, no line feed and no comma in it. *)
Definition plainKeyword (k : jsstring) : Prop :=
  k <> [] /\ trimmed k /\ (10 ∉ k) /\ (44 ∉ k).

(** A unit of the setting that names no keyword: white space or a comma. *)
Definition blankUnit (c : N) : bool := is_ws c || (c =? 44).

(** ** Lines the loop removes *)

(** The test of the loop for an ad line. *)
Definition isAdLine (env line : jsstring) : bool := matchesKeyword env (trim line).

(** ** Feeds of error events *)

Definition mediaFatal (detail : option jsstring) : ErrorData :=
  {| fatal := true; type := MEDIA_ERROR; details := detail |}.

Definition isFatalNetwork (data : ErrorData) : bool :=
  fatal data && match type data with NETWORK_ERROR => true | _ => false end.

Definition isFatalMedia (data : ErrorData) : bool :=
  fatal data && match type data with MEDIA_ERROR => true | _ => false end.

Definition isStartLoad (c : Command) : bool :=
  match c with StartLoad => true | _ => false end.

Definition isRecoverMediaError (c : Command) : bool :=
  match c with RecoverMediaError => true | _ => false end.

(** The calls that answer one fatal event: one recovery call, or the
    report to the caller (when [onError] was given) followed by
    [destroy]. *)
Definition isAnswer (onError_given : bool) (block : list Command) : Prop :=
  block = [StartLoad] \/ block = [RecoverMediaError] \/
  exists m, block = report onError_given m ++ [Destroy].

(** A line that needs no rewriting: blank, starting with [http] or
    [blob:], or a tag without quoted URI attribute, and no discontinuity
    tag. *)
Definition settledAlready (line : jsstring) : bool :=
  negb (isDiscontinuity line) &&
  (passedThrough (trim line) ||
   (startsWith (lit "#") (trim line) && negb (includes URI_ATTR line))).

(** * Properties *)

(** ** Strings *)

Section StringFacts.

Implicit Types (s t p k : jsstring) (c : N).

Lemma str_eqb_eq s t : str_eqb s t = true <-> s = t.
Proof.
  revert t; induction s as [|a s IH]; intros [|b t]; simpl; try (split; congruence).
  rewrite andb_true_iff, N.eqb_eq, IH. split; [intros [-> ->]|intros [= -> ->]]; auto.
Qed.

Lemma str_eqb_refl s : str_eqb s s = true.
Proof. by apply str_eqb_eq. Qed.

Lemma str_eqb_neq s t : str_eqb s t = false <-> s <> t.
Proof.
  rewrite <- str_eqb_eq. destruct (str_eqb s t); split; congruence.
Qed.

Lemma startsWith_prefix p s : startsWith p s = true <-> p `prefix_of` s.
Proof.
  revert s; induction p as [|a p IH]; intros s; simpl.
  - split; [intros _; apply prefix_nil|done].
  - destruct s as [|b s].
    + split; [congruence|]. intros [r Hr]. discriminate.
    + rewrite andb_true_iff, N.eqb_eq, IH. split.
      * intros [-> H]. by apply prefix_cons.
      * intros [r Hr]. simpl in Hr. simplify_eq. split; [done|]. by apply prefix_app_r.
Qed.

Lemma startsWith_app p r : startsWith p (p ++ r) = true.
Proof. apply startsWith_prefix. by exists r. Qed.

Lemma startsWith_inv p s : startsWith p s = true -> exists r, s = p ++ r.
Proof. intros H. by apply startsWith_prefix in H. Qed.

Lemma startsWith_nil_r p : startsWith p [] = true -> p = [].
Proof. by destruct p. Qed.

Lemma includes_spec k s : includes k s = true <-> exists a b, s = a ++ k ++ b.
Proof.
  induction s as [|c s IH]; simpl.
  - rewrite orb_false_r. split.
    + intros H. apply startsWith_nil_r in H as ->. by exists [], [].
    + intros (a & b & H). symmetry in H.
      apply app_eq_nil in H as [-> H]. apply app_eq_nil in H as [-> _]. done.
  - rewrite orb_true_iff, IH. split.
    + intros [H|(a & b & ->)].
      * apply startsWith_inv in H as [r ->]. by exists [], r.
      * by exists (c :: a), b.
    + intros (a & b & H). destruct a as [|c' a]; simpl in H.
      * left. rewrite H. apply startsWith_app.
      * right. simplify_eq. by exists a, b.
Qed.

Lemma includes_intro k a b : includes k (a ++ k ++ b) = true.
Proof. apply includes_spec. by exists a, b. Qed.

Lemma includes_false_app k a s b :
  includes k (a ++ s ++ b) = false -> includes k s = false.
Proof.
  intros H. destruct (includes k s) eqn:E; [|done].
  apply includes_spec in E as (x & y & ->).
  rewrite <- H. symmetry. apply includes_spec.
  exists (a ++ x), (y ++ b). by rewrite <- !app_assoc.
Qed.

Lemma includes_mono k a s b :
  includes k s = true -> includes k (a ++ s ++ b) = true.
Proof.
  intros H. destruct (includes k (a ++ s ++ b)) eqn:E; [done|].
  apply includes_false_app in E. congruence.
Qed.

Lemma includes_elem c s : includes [c] s = true <-> c ∈ s.
Proof.
  rewrite includes_spec. split.
  - intros (a & b & ->). set_solver.
  - intros (a & b & ->)%list_elem_of_split. by exists a, b.
Qed.

(** *** Trimming *)

Abbreviation all_ws := (Forall (fun c : N => is_ws c = true)).

Lemma trimStart_decomp s : exists w, s = w ++ trimStart s /\ all_ws w.
Proof.
  induction s as [|c s (w & Hs & Hw)]; simpl.
  - by exists [].
  - destruct (is_ws c) eqn:E.
    + exists (c :: w). split; [simpl; by f_equal|by constructor].
    + by exists [].
Qed.

Lemma trimStart_head s c r : trimStart s = c :: r -> is_ws c = false.
Proof.
  induction s as [|a s IH]; simpl; [done|].
  destruct (is_ws a) eqn:E; [done|]. by intros [= -> ->].
Qed.

Lemma trimStart_idem s : trimStart (trimStart s) = trimStart s.
Proof.
  destruct (trimStart s) as [|c r] eqn:E; [done|].
  apply trimStart_head in E. simpl. by rewrite E.
Qed.

Lemma trimStart_ws_app w s : all_ws w -> trimStart (w ++ s) = trimStart s.
Proof. induction 1 as [|c w Hc _ IH]; simpl; [done|]. by rewrite Hc. Qed.

Lemma trimStart_all_ws w : all_ws w -> trimStart w = [].
Proof. intros H. rewrite <- (app_nil_r w). by rewrite trimStart_ws_app. Qed.

Lemma trimStart_nil_inv s : trimStart s = [] -> all_ws s.
Proof.
  intros H. destruct (trimStart_decomp s) as (w & Hs & Hw).
  rewrite H, app_nil_r in Hs. by subst.
Qed.

Lemma trimStart_cons_nonws c s : is_ws c = false -> trimStart (c :: s) = c :: s.
Proof. intros H. simpl. by rewrite H. Qed.

Lemma trimStart_app_nonempty s r :
  trimStart s <> [] -> trimStart (s ++ r) = trimStart s ++ r.
Proof.
  induction s as [|c s IH]; simpl; [done|].
  destruct (is_ws c); auto.
Qed.

Lemma all_ws_rev w : all_ws w -> all_ws (rev w).
Proof. apply Forall_rev. Qed.

Lemma all_ws_app a b : all_ws a -> all_ws b -> all_ws (a ++ b).
Proof. apply Forall_app_2. Qed.

Lemma trimEnd_decomp s : exists w, s = trimEnd s ++ w /\ all_ws w.
Proof.
  unfold trimEnd. destruct (trimStart_decomp (rev s)) as (w & Hs & Hw).
  exists (rev w). split; [|by apply all_ws_rev].
  rewrite <- rev_app_distr, <- Hs. by rewrite rev_involutive.
Qed.

Lemma trimEnd_app_ws s w : all_ws w -> trimEnd (s ++ w) = trimEnd s.
Proof.
  intros H. unfold trimEnd. rewrite rev_app_distr.
  rewrite trimStart_ws_app; [done|by apply all_ws_rev].
Qed.

Lemma trimEnd_snoc_nonws s c : is_ws c = false -> trimEnd (s ++ [c]) = s ++ [c].
Proof.
  intros H. unfold trimEnd. rewrite rev_app_distr. simpl. rewrite H.
  simpl. by rewrite rev_involutive.
Qed.

Lemma trimEnd_idem s : trimEnd (trimEnd s) = trimEnd s.
Proof. unfold trimEnd. by rewrite rev_involutive, trimStart_idem. Qed.

Lemma trimEnd_nil_inv s : trimEnd s = [] -> all_ws s.
Proof.
  intros H. destruct (trimEnd_decomp s) as (w & Hs & Hw).
  rewrite H in Hs. simpl in Hs. by subst.
Qed.

Lemma trimEnd_all_ws w : all_ws w -> trimEnd w = [].
Proof. intros H. unfold trimEnd. rewrite trimStart_all_ws; [done|by apply all_ws_rev]. Qed.

(** Stripping the end keeps a first unit that is not white space. *)
Lemma trimEnd_cons_nonws c s : is_ws c = false -> exists r, trimEnd (c :: s) = c :: r.
Proof.
  intros Hc. induction s as [|d s IH] using rev_ind.
  - exists []. by apply (trimEnd_snoc_nonws []).
  - destruct (is_ws d) eqn:E.
    + rewrite app_comm_cons, trimEnd_app_ws; [done|]. by repeat constructor.
    + rewrite app_comm_cons, trimEnd_snoc_nonws by done. eauto.
Qed.

Lemma trimEnd_app_nonempty a s :
  trimEnd s <> [] -> trimEnd (a ++ s) = a ++ trimEnd s.
Proof.
  unfold trimEnd. intros H. rewrite rev_app_distr.
  rewrite trimStart_app_nonempty.
  - by rewrite rev_app_distr, rev_involutive.
  - intros Hnil. apply H. by rewrite Hnil.
Qed.

Lemma trimStart_trimEnd_comm s : trimStart (trimEnd s) = trimEnd (trimStart s).
Proof.
  destruct (trimStart_decomp s) as (w & Hs & Hw).
  destruct (trimStart s) as [|c r] eqn:E.
  - rewrite app_nil_r in Hs. subst w.
    by rewrite trimEnd_all_ws.
  - pose proof (trimStart_head _ _ _ E) as Hc.
    destruct (trimEnd_cons_nonws c r Hc) as (r' & Hr').
    rewrite Hs, trimEnd_app_nonempty by (by rewrite Hr').
    rewrite trimStart_ws_app by done.
    rewrite Hr'. by apply trimStart_cons_nonws.
Qed.

Lemma trim_trimmed s : trimmed (trim s).
Proof.
  split.
  - unfold trim. rewrite <- trimStart_trimEnd_comm. apply trimStart_idem.
  - unfold trim, trimEnd. rewrite rev_involutive. apply trimStart_idem.
Qed.

Lemma trimmed_trim s : trimmed s -> trim s = s.
Proof.
  intros [H1 H2]. unfold trim, trimEnd. rewrite H1, H2. apply rev_involutive.
Qed.

Lemma trim_idem s : trim (trim s) = trim s.
Proof. apply trimmed_trim, trim_trimmed. Qed.

Lemma trim_decomp s : exists a b, s = a ++ trim s ++ b /\ all_ws a /\ all_ws b.
Proof.
  destruct (trimStart_decomp s) as (a & Hs & Ha).
  destruct (trimEnd_decomp (trimStart s)) as (b & Hb & Hwb).
  exists a, b. split; [|done]. unfold trim. by rewrite <- Hb.
Qed.

Lemma trim_ws_frame a s b : all_ws a -> all_ws b -> trim (a ++ s ++ b) = trim s.
Proof.
  intros Ha Hb. unfold trim. rewrite trimStart_ws_app by done.
  rewrite <- !trimStart_trimEnd_comm. by rewrite trimEnd_app_ws.
Qed.

Lemma trimmed_nil : trimmed [].
Proof. done. Qed.

Lemma trimmed_head c r : trimmed (c :: r) -> is_ws c = false.
Proof. intros [H _]. by apply trimStart_head in H. Qed.

Lemma trimmed_last s c : trimmed (s ++ [c]) -> is_ws c = false.
Proof.
  intros [_ H]. rewrite rev_app_distr in H.
  by apply (trimStart_head (rev [c] ++ rev s) c (rev s)) in H.
Qed.

Lemma trimmed_intro c s d :
  is_ws c = false -> is_ws d = false -> trimmed ((c :: s) ++ [d]).
Proof.
  intros Hc Hd. split.
  - by apply trimStart_cons_nonws.
  - rewrite rev_app_distr. simpl. by rewrite Hd.
Qed.

Lemma trimmed_single c : is_ws c = false -> trimmed [c].
Proof. intros H. split; simpl; by rewrite H. Qed.

(** A non-empty string is trimmed when its two ends are not white space. *)
Lemma trimmed_ends s :
  trimmed s <->
  s = [] \/ (exists c r, s = c :: r /\ is_ws c = false) /\
            (exists r d, s = r ++ [d] /\ is_ws d = false).
Proof.
  split.
  - intros H. destruct s as [|c r]; [by left|right]. split.
    + exists c, r. split; [done|]. by eapply trimmed_head.
    + destruct (exists_last (l := c :: r)) as (r' & d & Hr); [done|].
      exists r', d. split; [done|]. rewrite Hr in H. by eapply trimmed_last.
  - intros [->|[(c & r & -> & Hc) (r' & d & Hr & Hd)]]; [done|].
    split; [by apply trimStart_cons_nonws|].
    rewrite Hr, rev_app_distr. simpl. by rewrite Hd.
Qed.

Lemma trimmed_app p t :
  trimmed p -> trimmed t -> p <> [] -> t <> [] -> trimmed (p ++ t).
Proof.
  rewrite !trimmed_ends.
  intros [->|[(c & r & -> & Hc) _]] [->|[_ (r' & d & -> & Hd)]] ? ?; try done.
  right. split.
  - exists c, (r ++ r' ++ [d]). by rewrite app_comm_cons.
  - exists ((c :: r) ++ r'), d. by rewrite <- app_assoc.
Qed.

(** A prefix that starts with a unit other than white space, put in
    front of a trimmed non-empty string. *)
Lemma trimmed_prefixed c p t :
  is_ws c = false -> trimmed t -> t <> [] -> trimmed ((c :: p) ++ t).
Proof.
  rewrite !trimmed_ends.
  intros Hc [->|[_ (r' & d & -> & Hd)]] ?; try done.
  right. split.
  - exists c, (p ++ r' ++ [d]). by rewrite app_comm_cons.
  - exists ((c :: p) ++ r'), d. by rewrite <- app_assoc.
Qed.

(** Units that are not white space survive trimming. *)
Lemma elem_of_trim c s : c ∈ s -> is_ws c = false -> c ∈ trim s.
Proof.
  intros Hin Hc. destruct (trim_decomp s) as (a & b & Hs & Ha & Hb).
  rewrite Hs in Hin. rewrite !elem_of_app in Hin.
  destruct Hin as [Hin|[Hin|Hin]]; [|done|].
  - rewrite Forall_forall in Ha. apply Ha in Hin. congruence.
  - rewrite Forall_forall in Hb. apply Hb in Hin. congruence.
Qed.

Lemma elem_of_trim_inv c s : c ∈ trim s -> c ∈ s.
Proof.
  intros Hin. destruct (trim_decomp s) as (a & b & Hs & _).
  rewrite Hs. set_solver.
Qed.

Lemma includes_trim_mono k s : includes k (trim s) = true -> includes k s = true.
Proof.
  intros H. destruct (trim_decomp s) as (a & b & Hs & _).
  rewrite Hs. by apply includes_mono.
Qed.

End StringFacts.

(** *** Splitting into lines *)

Section SplitFacts.

Implicit Types (s t p k : jsstring) (c : N).

Lemma split_lines_nil : split_lines [] = [[]].
Proof. done. Qed.

Lemma split_lines_lf s : split_lines (10 :: s) = [] :: split_lines s.
Proof. done. Qed.

Lemma split_lines_crlf s : split_lines (13 :: 10 :: s) = [] :: split_lines s.
Proof. done. Qed.

(** A unit that does not start a separator goes to the first piece. *)
Lemma split_lines_unit c s :
  c <> 10 -> (c = 13 -> forall s', s <> 10 :: s') ->
  split_lines (c :: s) = cons_first c (split_lines s).
Proof.
  intros Hc Hs. simpl. apply N.eqb_neq in Hc as ->.
  destruct s as [|d s']; [done|].
  destruct (N.eqb_spec c 13) as [->|]; [|done].
  destruct (N.eqb_spec d 10) as [->|]; [|done].
  by destruct (Hs eq_refl s').
Qed.

(** The induction that follows the three cases of the split. *)
Lemma split_lines_ind (P : jsstring -> Prop) :
  P [] ->
  (forall s, P s -> P (10 :: s)) ->
  (forall s, P s -> P (13 :: 10 :: s)) ->
  (forall c s, c <> 10 -> (c = 13 -> forall s', s <> 10 :: s') -> P s -> P (c :: s)) ->
  forall s, P s.
Proof.
  intros Hnil Hlf Hcrlf Hunit s.
  induction s as [s IH] using (induction_ltof1 _ (@length N)). unfold ltof in IH.
  destruct s as [|c s]; [done|].
  destruct (N.eq_dec c 10) as [->|Hc].
  { apply Hlf, IH. simpl. lia. }
  destruct (N.eq_dec c 13) as [->|Hc'].
  - destruct s as [|d s].
    + apply Hunit; [done|by intros _ s'|done].
    + destruct (N.eq_dec d 10) as [->|Hd].
      * apply Hcrlf, IH. simpl. lia.
      * apply Hunit; [done| |apply IH; simpl; lia].
        intros _ s' [= ? _]. done.
  - apply Hunit; [done|done|apply IH; simpl; lia].
Qed.

Lemma split_lines_nonempty s : split_lines s <> [].
Proof.
  induction s as [| | |c s Hc Hs IH] using split_lines_ind; try done.
  rewrite split_lines_unit by done. by destruct (split_lines s).
Qed.

(** Every piece is a part of the text, the first one a prefix. *)
Lemma split_lines_parts s (h : jsstring) (others : list jsstring) :
  split_lines s = h :: others ->
  (exists b, s = h ++ b) /\ (forall l, l ∈ others -> exists a b, s = a ++ l ++ b).
Proof.
  revert h others.
  induction s as [|s IH|s IH|c s Hc Hs IH] using split_lines_ind; intros h t.
  - intros [= <- <-]. split; [by exists []|]. intros l Hl. by apply elem_of_nil in Hl.
  - rewrite split_lines_lf. intros [= <- <-]. split; [by eexists|].
    intros l Hl. destruct (split_lines s) as [|h' t'] eqn:E; [by apply elem_of_nil in Hl|].
    destruct (IH h' t' eq_refl) as [[b Hb] Ht].
    apply elem_of_cons in Hl as [->|Hl].
    + exists [10], b. simpl. by f_equal.
    + destruct (Ht l Hl) as (a & b' & ->). by exists (10 :: a), b'.
  - rewrite split_lines_crlf. intros [= <- <-]. split; [by eexists|].
    intros l Hl. destruct (split_lines s) as [|h' t'] eqn:E; [by apply elem_of_nil in Hl|].
    destruct (IH h' t' eq_refl) as [[b Hb] Ht].
    apply elem_of_cons in Hl as [->|Hl].
    + exists [13; 10], b. simpl. by do 2 f_equal.
    + destruct (Ht l Hl) as (a & b' & ->). by exists (13 :: 10 :: a), b'.
  - rewrite split_lines_unit by done.
    destruct (split_lines s) as [|h' t'] eqn:E; [by destruct (split_lines_nonempty s)|].
    simpl. intros [= <- <-].
    destruct (IH h' t' eq_refl) as [[b Hb] Ht]. split.
    + exists b. simpl. by f_equal.
    + intros l Hl. destruct (Ht l Hl) as (a & b' & ->). by exists (c :: a), b'.
Qed.

Lemma split_lines_part s l :
  l ∈ split_lines s -> exists a b, s = a ++ l ++ b.
Proof.
  destruct (split_lines s) as [|h t] eqn:E; [intros H; by apply elem_of_nil in H|].
  destruct (split_lines_parts s h t E) as [[b Hb] Ht].
  intros [->|Hl]%elem_of_cons; [by exists [], b|by apply Ht].
Qed.

(** No piece holds a line feed. *)
Lemma split_lines_no_lf s l : l ∈ split_lines s -> 10 ∉ l.
Proof.
  revert l. induction s as [|s IH|s IH|c s Hc Hs IH] using split_lines_ind; intros l.
  - intros ->%list_elem_of_singleton. apply not_elem_of_nil.
  - rewrite split_lines_lf. intros [->|Hl]%elem_of_cons; [apply not_elem_of_nil|auto].
  - rewrite split_lines_crlf. intros [->|Hl]%elem_of_cons; [apply not_elem_of_nil|auto].
  - rewrite split_lines_unit by done.
    destruct (split_lines s) as [|h t] eqn:E; [by destruct (split_lines_nonempty s)|].
    simpl. intros [->|Hl]%elem_of_cons.
    + intros [?|?]%elem_of_cons; [done|]. eapply IH; [|done]. by left.
    + apply IH. by right.
Qed.

Lemma within_line_tail c k : within_line (c :: k) -> within_line k.
Proof.
  intros [H1 H2]. split.
  - intros H. apply H1. by right.
  - intros k' ->. by apply (H2 (c :: k')).
Qed.

Lemma startsWith_first_line k s :
  within_line k -> startsWith k s = true ->
  startsWith k (hd [] (split_lines s)) = true.
Proof.
  revert k. induction s as [|s IH|s IH|c s Hc Hs IH] using split_lines_ind;
    intros k Hk Hsw.
  - done.
  - destruct k as [|a k]; [done|]. simpl in Hsw.
    apply andb_true_iff in Hsw as [->%N.eqb_eq _].
    destruct Hk as [Hk _]. destruct Hk. by left.
  - destruct k as [|a [|b k]]; [done|..]; simpl in Hsw.
    + apply andb_true_iff in Hsw as [->%N.eqb_eq _].
      destruct Hk as [_ Hk]. by destruct (Hk []).
    + apply andb_true_iff in Hsw as [_ Hsw].
      apply andb_true_iff in Hsw as [->%N.eqb_eq _].
      destruct Hk as [Hk _]. destruct Hk. right. by left.
  - rewrite split_lines_unit by done.
    destruct (split_lines s) as [|h t] eqn:E; [by destruct (split_lines_nonempty s)|].
    destruct k as [|a k]; [done|]. simpl in *.
    apply andb_true_iff in Hsw as [-> Hsw]. simpl.
    apply IH; [|done]. by eapply within_line_tail.
Qed.

Lemma includes_some_line k s :
  k <> [] -> within_line k -> includes k s = true ->
  exists l, l ∈ split_lines s /\ includes k l = true.
Proof.
  intros Hne Hk.
  induction s as [|s IH|s IH|c s Hc Hs IH] using split_lines_ind; intros Hin.
  - simpl in Hin. rewrite orb_false_r in Hin. by apply startsWith_nil_r in Hin.
  - simpl in Hin. apply orb_true_iff in Hin as [Hsw|Hin].
    + apply (startsWith_first_line _ _ Hk) in Hsw. rewrite split_lines_lf in Hsw.
      simpl in Hsw. by apply startsWith_nil_r in Hsw.
    + destruct (IH Hin) as (l & Hl & Hkl). exists l. split; [|done].
      rewrite split_lines_lf. by right.
  - change (includes k (13 :: 10 :: s))
      with (startsWith k (13 :: 10 :: s) || (startsWith k (10 :: s) || includes k s)) in Hin.
    apply orb_true_iff in Hin as [Hsw|Hin].
    { apply (startsWith_first_line _ _ Hk) in Hsw. rewrite split_lines_crlf in Hsw.
      simpl in Hsw. by apply startsWith_nil_r in Hsw. }
    apply orb_true_iff in Hin as [Hsw|Hin].
    { apply (startsWith_first_line _ _ Hk) in Hsw. rewrite split_lines_lf in Hsw.
      simpl in Hsw. by apply startsWith_nil_r in Hsw. }
    destruct (IH Hin) as (l & Hl & Hkl). exists l. split; [|done].
    rewrite split_lines_crlf. by right.
  - simpl in Hin. apply orb_true_iff in Hin as [Hsw|Hin].
    + apply (startsWith_first_line _ _ Hk) in Hsw.
      destruct (split_lines (c :: s)) as [|h t] eqn:E;
        [by destruct (split_lines_nonempty (c :: s))|].
      exists h. split; [by left|]. simpl in Hsw.
      apply startsWith_inv in Hsw as [r ->]. apply (includes_intro k []).
    + destruct (IH Hin) as (l & Hl & Hkl).
      rewrite split_lines_unit by done.
      destruct (split_lines s) as [|h t] eqn:E; [by apply elem_of_nil in Hl|].
      simpl. apply elem_of_cons in Hl as [->|Hl].
      * exists (c :: h). split; [by left|].
        apply (includes_mono k [c] h []) in Hkl. by rewrite app_nil_r in Hkl.
      * exists l. split; [by right|done].
Qed.

(** *** Needles and trimming *)

Lemma includes_trimStart c k s :
  is_ws c = false -> includes (c :: k) s = true ->
  includes (c :: k) (trimStart s) = true.
Proof.
  intros Hc. induction s as [|d s IH]; [done|].
  intros Hin. simpl trimStart. destruct (is_ws d) eqn:Ed; [|done].
  simpl in Hin. apply orb_true_iff in Hin as [Hsw|Hin]; [|auto].
  apply andb_true_iff in Hsw as [->%N.eqb_eq _]. congruence.
Qed.

Lemma includes_rev k s : includes k s = true -> includes (rev k) (rev s) = true.
Proof.
  rewrite !includes_spec. intros (a & b & ->).
  exists (rev b), (rev a). by rewrite !rev_app_distr, <- app_assoc.
Qed.

Lemma includes_trimEnd k c s :
  is_ws c = false -> includes (k ++ [c]) s = true ->
  includes (k ++ [c]) (trimEnd s) = true.
Proof.
  intros Hc Hin. apply includes_rev in Hin. rewrite rev_app_distr in Hin.
  simpl in Hin. apply (includes_trimStart c (rev k) _ Hc) in Hin.
  apply includes_rev in Hin. simpl in Hin.
  by rewrite rev_involutive in Hin.
Qed.

Lemma includes_trim k s :
  k <> [] -> trimmed k -> includes k s = true -> includes k (trim s) = true.
Proof.
  intros Hne Hk Hin.
  apply trimmed_ends in Hk as [->|[(c & r & -> & Hc) (r' & d & Hr & Hd)]]; [done|].
  unfold trim. rewrite Hr. apply includes_trimEnd; [done|]. rewrite <- Hr.
  by apply includes_trimStart.
Qed.

(** The pieces of the keyword list hold no line feed. *)
Lemma split_list_no_lf s p : p ∈ split_list s -> 10 ∉ p.
Proof.
  revert p. induction s as [|c s IH]; intros p; simpl.
  - intros ->%list_elem_of_singleton. apply not_elem_of_nil.
  - destruct ((c =? 10) || (c =? 44)) eqn:E.
    + intros [->|Hp]%elem_of_cons; [apply not_elem_of_nil|auto].
    + apply orb_false_iff in E as [E1%N.eqb_neq _].
      destruct (split_list s) as [|h t]; simpl.
      * intros ->%list_elem_of_singleton. intros [?|?%elem_of_nil]%elem_of_cons; done.
      * intros [->|Hp]%elem_of_cons.
        -- intros [?|?]%elem_of_cons; [done|]. eapply IH; [|done]. by left.
        -- apply IH. by right.
Qed.

End SplitFacts.

(** *** The quoted URI attribute *)

#[local] Arguments N.eqb : simpl never.
#[local] Arguments lit : simpl never.

(** Evaluates the literals of the goal to lists of code units. *)
Ltac eval_lits :=
  unfold EXTINF, DISCONTINUITY, URI_ATTR, QUOTE, SLASH in *;
  repeat match goal with
    | |- context [lit ?s] =>
        let v := eval vm_compute in (lit s) in change (lit s) with v
    | H : context [lit ?s] |- _ =>
        let v := eval vm_compute in (lit s) in change (lit s) with v in H
    end.

Section ReplaceFacts.

Implicit Types (s t p uri rest : jsstring) (c : N).

Lemma span_unquoted_spec s run tl :
  span_unquoted s = (run, tl) ->
  s = run ++ tl /\ (QUOTE ∉ run) /\ (tl = [] \/ exists tl', tl = QUOTE :: tl').
Proof.
  revert run tl. induction s as [|c s IH]; intros run tl; simpl.
  - intros [= <- <-]. split; [done|]. split; [apply not_elem_of_nil|by left].
  - destruct (N.eqb_spec c QUOTE) as [->|Hc].
    + intros [= <- <-]. split; [done|]. split; [apply not_elem_of_nil|right; eauto].
    + destruct (span_unquoted s) as [run' tl'] eqn:E. intros [= <- <-].
      destruct (IH run' tl' eq_refl) as (-> & Hq & Htl).
      split; [done|]. split; [|done].
      intros [?|?]%elem_of_cons; done.
Qed.

Lemma span_unquoted_intro run tl :
  QUOTE ∉ run -> span_unquoted (run ++ QUOTE :: tl) = (run, QUOTE :: tl).
Proof.
  induction run as [|c run IH]; intros Hq; simpl; [done|].
  destruct (N.eqb_spec c QUOTE) as [->|Hc].
  - destruct Hq. by left.
  - rewrite IH; [done|]. intros H. apply Hq. by right.
Qed.

Lemma span_unquoted_none s : QUOTE ∉ s -> span_unquoted s = (s, []).
Proof.
  induction s as [|c s IH]; intros Hq; simpl; [done|].
  destruct (N.eqb_spec c QUOTE) as [->|Hc].
  - destruct Hq. by left.
  - rewrite IH; [done|]. intros H. apply Hq. by right.
Qed.

Lemma match_uri_Some s uri rest :
  match_uri s = Some (uri, rest) <->
  s = URI_ATTR ++ uri ++ QUOTE :: rest /\ uri <> [] /\ (QUOTE ∉ uri).
Proof.
  unfold match_uri. split.
  - destruct (startsWith URI_ATTR s) eqn:E; [|done].
    apply startsWith_inv in E as [r ->].
    change (drop 5 (URI_ATTR ++ r)) with r.
    destruct (span_unquoted r) as [run tl] eqn:Es.
    destruct (span_unquoted_spec r run tl Es) as (-> & Hq & Htl).
    destruct run as [|c run]; [done|]. destruct tl as [|q tl]; [done|].
    intros [= <- <-]. destruct Htl as [?|[tl' [= -> ->]]]; [done|]. done.
  - intros (-> & Hne & Hq). rewrite startsWith_app.
    change (drop 5 (URI_ATTR ++ uri ++ QUOTE :: rest)) with (uri ++ QUOTE :: rest).
    rewrite span_unquoted_intro by done. by destruct uri.
Qed.

Lemma match_uri_length s uri rest :
  match_uri s = Some (uri, rest) -> (length rest < length s)%nat.
Proof.
  intros (-> & _)%match_uri_Some. rewrite !length_app. simpl. lia.
Qed.

(** A match starts with the unit [U]. *)
Lemma match_uri_head c s : c <> 85 -> match_uri (c :: s) = None.
Proof.
  intros Hc. unfold match_uri. eval_lits. simpl.
  by destruct (N.eqb_spec 85 c) as [<-|].
Qed.

Lemma match_uri_unquoted s : QUOTE ∉ s -> match_uri s = None.
Proof.
  intros Hq. destruct (match_uri s) as [[uri rest]|] eqn:E; [|done].
  apply match_uri_Some in E as (-> & _). destruct Hq.
  rewrite !elem_of_app. left. unfold URI_ATTR. rewrite elem_of_app. right. by left.
Qed.

Variable baseUrl : jsstring.

Lemma replaceURI_fuel_enough n m s :
  (length s <= n)%nat -> (length s <= m)%nat ->
  replaceURI_fuel n baseUrl s = replaceURI_fuel m baseUrl s.
Proof.
  revert m s. induction n as [|n IH]; intros m s Hn Hm.
  - destruct s; [|simpl in Hn; lia]. by destruct m.
  - destruct m as [|m]; [destruct s; [done|simpl in Hm; lia]|].
    simpl. destruct s as [|c s]; [done|].
    destruct (match_uri (c :: s)) as [[uri rest]|] eqn:E.
    + apply match_uri_length in E. simpl in *. f_equal. apply IH; lia.
    + simpl in *. f_equal. apply IH; lia.
Qed.

Lemma replaceURI_nil : replaceURI baseUrl [] = [].
Proof. done. Qed.

Lemma replaceURI_match s uri rest :
  match_uri s = Some (uri, rest) ->
  replaceURI baseUrl s = replaceCallback baseUrl uri ++ replaceURI baseUrl rest.
Proof.
  intros E. unfold replaceURI. pose proof (match_uri_length _ _ _ E) as Hlen.
  destruct s as [|c s]; [done|]. simpl replaceURI_fuel at 1. rewrite E.
  f_equal. apply replaceURI_fuel_enough; simpl in *; lia.
Qed.

Lemma replaceURI_skip c s :
  match_uri (c :: s) = None ->
  replaceURI baseUrl (c :: s) = c :: replaceURI baseUrl s.
Proof. intros E. unfold replaceURI. simpl. by rewrite E. Qed.

(** The induction that follows the scan of the replace. *)
Lemma replaceURI_ind (P : jsstring -> Prop) :
  P [] ->
  (forall s uri rest, match_uri s = Some (uri, rest) -> P rest -> P s) ->
  (forall c s, match_uri (c :: s) = None -> P s -> P (c :: s)) ->
  forall s, P s.
Proof.
  intros Hnil Hmatch Hskip s.
  induction s as [s IH] using (induction_ltof1 _ (@length N)). unfold ltof in IH.
  destruct s as [|c s]; [done|].
  destruct (match_uri (c :: s)) as [[uri rest]|] eqn:E.
  - eapply Hmatch; [done|]. apply IH. by apply match_uri_length in E.
  - apply Hskip; [done|]. apply IH. simpl. lia.
Qed.

Lemma replaceCallback_shape uri :
  exists uri', replaceCallback baseUrl uri = URI_ATTR ++ uri' ++ [QUOTE] /\
    (uri' = uri \/ uri' = basePath baseUrl ++ uri).
Proof.
  unfold replaceCallback.
  destruct (startsWith (lit "http") uri || startsWith (lit "/") uri).
  - exists uri. auto.
  - exists (basePath baseUrl ++ uri). rewrite <- app_assoc. auto.
Qed.

(** Without a quote there is nothing to replace, and a quote stays. *)
Lemma replaceURI_unquoted s : QUOTE ∉ s -> replaceURI baseUrl s = s.
Proof.
  induction s as [|c s IH]; intros Hq; [done|].
  rewrite replaceURI_skip by (by apply match_uri_unquoted).
  f_equal. apply IH. intros H. apply Hq. by right.
Qed.

Lemma replaceURI_quoted s : QUOTE ∈ s -> QUOTE ∈ replaceURI baseUrl s.
Proof.
  induction s as [|s uri rest E IH|c s E IH] using replaceURI_ind; intros Hq.
  - done.
  - rewrite (replaceURI_match _ _ _ E).
    destruct (replaceCallback_shape uri) as (uri' & -> & _).
    rewrite !elem_of_app. left. right. right. by left.
  - rewrite replaceURI_skip by done.
    apply elem_of_cons in Hq as [<-|Hq]; [by left|right; auto].
Qed.

(** The replace leaves everything before the first [U] alone. *)
Lemma replaceURI_cons c s :
  c <> 85 -> replaceURI baseUrl (c :: s) = c :: replaceURI baseUrl s.
Proof. intros Hc. apply replaceURI_skip. by apply match_uri_head. Qed.

Lemma is_ws_not_U c : is_ws c = true -> c <> 85.
Proof. by intros H ->. Qed.

Lemma replaceURI_ws_app w s :
  Forall (fun c => is_ws c = true) w ->
  replaceURI baseUrl (w ++ s) = w ++ replaceURI baseUrl s.
Proof.
  induction 1 as [|c w Hc _ IH]; [done|]. simpl.
  rewrite replaceURI_cons by (by apply is_ws_not_U). by f_equal.
Qed.

Lemma replaceURI_head s :
  hd_error (replaceURI baseUrl s) = hd_error s.
Proof.
  destruct s as [|c s]; [done|].
  destruct (match_uri (c :: s)) as [[uri rest]|] eqn:E.
  - rewrite (replaceURI_match _ _ _ E).
    destruct (replaceCallback_shape uri) as (uri' & -> & _).
    apply match_uri_Some in E as (E & _). rewrite E. done.
  - by rewrite replaceURI_skip.
Qed.

Lemma trimStart_replaceURI s :
  trimStart (replaceURI baseUrl s) = replaceURI baseUrl (trimStart s).
Proof.
  destruct (trimStart_decomp s) as (w & Hs & Hw).
  rewrite Hs at 1. rewrite replaceURI_ws_app, trimStart_ws_app by done.
  destruct (trimStart s) as [|c r] eqn:E; [done|].
  pose proof (trimStart_head _ _ _ E) as Hc.
  pose proof (replaceURI_head (c :: r)) as Hh.
  destruct (replaceURI baseUrl (c :: r)) as [|c' r']; [done|].
  simpl in Hh. injection Hh as ->. by apply trimStart_cons_nonws.
Qed.

Lemma startsWith_replaceURI p s :
  85 ∉ p -> startsWith p (replaceURI baseUrl s) = startsWith p s.
Proof.
  revert p. induction s as [|s uri rest E IH|c s E IH] using replaceURI_ind; intros p Hp.
  - done.
  - rewrite (replaceURI_match _ _ _ E).
    destruct (replaceCallback_shape uri) as (uri' & -> & _).
    apply match_uri_Some in E as (-> & _).
    destruct p as [|a p]; [done|]. eval_lits. simpl.
    destruct (N.eqb_spec a 85) as [->|]; [|done]. destruct Hp. by left.
  - rewrite replaceURI_skip by done.
    destruct p as [|a p]; [done|]. simpl. f_equal. apply IH.
    intros H. apply Hp. by right.
Qed.

End ReplaceFacts.

(** ** Lists *)

Lemma sublist_rev {A} (l1 l2 : list A) :
  l1 `sublist_of` l2 -> rev l1 `sublist_of` rev l2.
Proof.
  induction 1 as [|x l1 l2 _ IH|x l1 l2 _ IH]; simpl.
  - constructor.
  - by apply sublist_app.
  - by apply sublist_inserts_r.
Qed.

Lemma elem_of_rev {A} (x : A) (l : list A) : x ∈ rev l <-> x ∈ l.
Proof. rewrite !list_elem_of_In. symmetry. apply in_rev. Qed.

Lemma Forall2_elem_of_left {A B} (R : A -> B -> Prop) (xs : list A) (ys : list B) x :
  Forall2 R xs ys -> x ∈ xs -> exists y, y ∈ ys /\ R x y.
Proof.
  induction 1 as [|a b xs ys Hab _ IH]; intros Hx; [by apply elem_of_nil in Hx|].
  apply elem_of_cons in Hx as [->|Hx].
  - exists b. split; [by left|done].
  - destruct (IH Hx) as (y & Hy & HR). exists y. split; [by right|done].
Qed.

Lemma Forall_sublist {A} (P : A -> Prop) (l1 l2 : list A) :
  l1 `sublist_of` l2 -> Forall P l2 -> Forall P l1.
Proof.
  rewrite !Forall_forall. intros Hsub H x Hx. apply H. by eapply elem_of_sublist.
Qed.

(** ** The rewriter *)

Section RewriterFacts.

Variable env : jsstring.
Variable URL_origin : jsstring -> option jsstring.

Implicit Types (line s t : jsstring) (processed lines : list jsstring).

Local Abbreviation matchesKeyword := (matchesKeyword env).
Local Abbreviation hasAdMatch := (hasAdMatch env).
Local Abbreviation rewriteLine := (rewriteLine URL_origin).
Local Abbreviation processLine := (processLine env URL_origin).
Local Abbreviation processLines := (processLines env URL_origin).
Local Abbreviation processedLines := (processedLines env URL_origin).
Local Abbreviation filterM3u8Ad := (filterM3u8Ad env URL_origin).

(** *** The backtrack *)

Lemma backtrack_decomp processed :
  exists popped, processed = popped ++ backtrack processed /\
    Forall (fun l => isMetadata (trim l) = true) popped.
Proof.
  induction processed as [|l processed (popped & Hp & Hm)]; simpl.
  - by exists [].
  - destruct (isMetadata (trim l)) eqn:E.
    + exists (l :: popped). split; [simpl; by f_equal|by constructor].
    + by exists [].
Qed.

Lemma backtrack_head processed l rest :
  backtrack processed = l :: rest -> isMetadata (trim l) = false.
Proof.
  induction processed as [|x processed IH]; simpl; [done|].
  destruct (isMetadata (trim x)) eqn:E; [done|]. by intros [= -> ->].
Qed.

Lemma backtrack_popped popped processed :
  Forall (fun l => isMetadata (trim l) = true) popped ->
  backtrack (popped ++ processed) = backtrack processed.
Proof. induction 1 as [|l popped Hl _ IH]; simpl; [done|]. by rewrite Hl. Qed.

Lemma backtrack_stop l processed :
  isMetadata (trim l) = false -> backtrack (l :: processed) = l :: processed.
Proof. intros H. simpl. by rewrite H. Qed.

Lemma backtrack_sublist processed : backtrack processed `sublist_of` processed.
Proof.
  destruct (backtrack_decomp processed) as (popped & Hp & _).
  rewrite Hp at 2. by apply sublist_inserts_l.
Qed.

Lemma backtrack_keeps l processed :
  l ∈ processed -> isMetadata (trim l) = false -> l ∈ backtrack processed.
Proof.
  intros Hin Hl. destruct (backtrack_decomp processed) as (popped & Hp & Hm).
  rewrite Hp in Hin. apply elem_of_app in Hin as [Hin|Hin]; [|done].
  rewrite Forall_forall in Hm. apply Hm in Hin. congruence.
Qed.

(** *** One iteration *)

Lemma processLine_ad baseUrl processed line :
  matchesKeyword (trim line) = true ->
  processLine baseUrl true processed line = backtrack processed.
Proof. intros H. unfold M3u8.processLine. by rewrite H. Qed.

Lemma processLine_aggressive_discontinuity baseUrl processed line :
  str_eqb (trim line) DISCONTINUITY = true ->
  processLine baseUrl false processed line = processed.
Proof. intros H. unfold M3u8.processLine. by rewrite H. Qed.

Lemma rewriteLine_discontinuity baseUrl line :
  str_eqb (trim line) DISCONTINUITY = true -> rewriteLine baseUrl line = line.
Proof.
  intros H. apply str_eqb_eq in H. unfold M3u8.rewriteLine. by rewrite H.
Qed.

(** A line that is not dropped is pushed as [rewriteLine] gives it. *)
Lemma processLine_cases baseUrl hasAd processed line :
  (hasAd = true /\ matchesKeyword (trim line) = true /\
     processLine baseUrl hasAd processed line = backtrack processed) \/
  (hasAd = false /\ str_eqb (trim line) DISCONTINUITY = true /\
     processLine baseUrl hasAd processed line = processed) \/
  ((hasAd = true -> matchesKeyword (trim line) = false) /\
   (hasAd = false -> str_eqb (trim line) DISCONTINUITY = false) /\
     processLine baseUrl hasAd processed line = rewriteLine baseUrl line :: processed).
Proof.
  unfold M3u8.processLine.
  destruct hasAd, (matchesKeyword (trim line)) eqn:Ek,
    (str_eqb (trim line) DISCONTINUITY) eqn:Ed; simpl; auto.
  all: right; right; repeat split; try done.
  all: by rewrite rewriteLine_discontinuity.
Qed.

Lemma processLine_sublist baseUrl hasAd processed line :
  processLine baseUrl hasAd processed line
    `sublist_of` rewriteLine baseUrl line :: processed.
Proof.
  destruct (processLine_cases baseUrl hasAd processed line)
    as [(_ & _ & ->)|[(_ & _ & ->)|(_ & _ & ->)]].
  - apply sublist_cons, backtrack_sublist.
  - by apply sublist_cons.
  - done.
Qed.

Lemma processLines_sublist baseUrl hasAd lines processed :
  fold_left (processLine baseUrl hasAd) lines processed
    `sublist_of` rev (List.map (rewriteLine baseUrl) lines) ++ processed.
Proof.
  revert processed. induction lines as [|l lines IH]; intros processed; simpl.
  - done.
  - etrans; [apply IH|]. rewrite <- app_assoc. simpl.
    apply sublist_app; [done|]. apply processLine_sublist.
Qed.

Lemma processedLines_sublist content baseUrl :
  processedLines content baseUrl
    `sublist_of` List.map (rewriteLine baseUrl) (split_lines content).
Proof.
  unfold M3u8.processedLines, M3u8.processLines.
  rewrite <- (rev_involutive (List.map _ _)). apply sublist_rev.
  rewrite <- (app_nil_r (rev _)). apply processLines_sublist.
Qed.

(** The four shapes of a rewritten line. *)
Lemma rewriteLine_cases baseUrl line :
  rewriteLine baseUrl line = line \/
  rewriteLine baseUrl line = replaceURI baseUrl line \/
  rewriteLine baseUrl line = origin URL_origin baseUrl ++ trim line \/
  rewriteLine baseUrl line = basePath baseUrl ++ trim line.
Proof.
  unfold M3u8.rewriteLine.
  repeat match goal with |- context [if ?b then _ else _] => destruct b eqn:? end;
    auto.
  right. right. left. by destruct (origin URL_origin baseUrl).
Qed.

(** *** Keywords and lines *)

Lemma matchesKeyword_spec t :
  matchesKeyword t = true <-> exists k, k ∈ keywords env /\ includes k t = true.
Proof.
  unfold M3u8.matchesKeyword. rewrite existsb_exists.
  split; intros (k & Hk & Hin); exists k; by rewrite ?list_elem_of_In in *.
Qed.

Lemma keywords_wf k :
  k ∈ keywords env -> k <> [] /\ trimmed k /\ (10 ∉ k).
Proof.
  unfold keywords. destruct (truthy env).
  - intros Hin. apply list_elem_of_In, filter_In in Hin as [Hin Hne].
    apply in_map_iff in Hin as (p & <- & Hp). apply list_elem_of_In in Hp.
    split; [by destruct (trim p)|]. split; [apply trim_trimmed|].
    intros Hin. apply elem_of_trim_inv in Hin. by apply split_list_no_lf in Hp.
  - intros ->%list_elem_of_singleton. split; [done|]. split; [done|].
    intros Hin. apply includes_elem in Hin. done.
Qed.

Lemma keywords_within_line k : k ∈ keywords env -> within_line k.
Proof.
  intros (Hne & Hk & Hlf)%keywords_wf. split; [done|].
  intros k' ->. by apply trimmed_last in Hk.
Qed.

(** Whether [content.includes(k)] sees a keyword is whether a line holds
    one, and trimming the line makes no difference. *)
Lemma matchesKeyword_trim line :
  matchesKeyword (trim line) = matchesKeyword line.
Proof.
  apply eq_true_iff_eq. rewrite !matchesKeyword_spec.
  split; intros (k & Hk & Hin); exists k; split; try done.
  - by apply includes_trim_mono.
  - destruct (keywords_wf k Hk) as (Hne & Ht & _). by apply includes_trim.
Qed.

Lemma hasAdMatch_spec content :
  hasAdMatch content = true <->
  exists l, l ∈ split_lines content /\ matchesKeyword (trim l) = true.
Proof.
  unfold M3u8.hasAdMatch. fold (matchesKeyword content).
  rewrite matchesKeyword_spec. split.
  - intros (k & Hk & Hin). destruct (keywords_wf k Hk) as (Hne & Ht & _).
    destruct (includes_some_line k content Hne (keywords_within_line k Hk) Hin)
      as (l & Hl & Hkl).
    exists l. split; [done|]. rewrite matchesKeyword_trim.
    apply matchesKeyword_spec. eauto.
  - intros (l & Hl & Hm). rewrite matchesKeyword_trim in Hm.
    apply matchesKeyword_spec in Hm as (k & Hk & Hin).
    exists k. split; [done|].
    apply split_lines_part in Hl as (a & b & ->). by apply includes_mono.
Qed.

Lemma hasAdMatch_false content l :
  hasAdMatch content = false -> l ∈ split_lines content ->
  matchesKeyword (trim l) = false.
Proof.
  intros H Hl. destruct (matchesKeyword (trim l)) eqn:E; [|done].
  rewrite <- H. symmetry. apply hasAdMatch_spec. eauto.
Qed.

(** *** The lines of the output come from lines without keyword *)

Lemma processLines_origin baseUrl hasAd (all : list jsstring) lines processed :
  (hasAd = false -> forall l, l ∈ all -> matchesKeyword (trim l) = false) ->
  lines ⊆ all ->
  Forall (fun o => exists l, l ∈ all /\ matchesKeyword (trim l) = false /\
                     o = rewriteLine baseUrl l) processed ->
  Forall (fun o => exists l, l ∈ all /\ matchesKeyword (trim l) = false /\
                     o = rewriteLine baseUrl l)
    (fold_left (processLine baseUrl hasAd) lines processed).
Proof.
  intros Hagg. revert processed.
  induction lines as [|l lines IH]; intros processed Hsub Hp; simpl; [done|].
  apply IH; [set_solver|].
  destruct (processLine_cases baseUrl hasAd processed l)
    as [(_ & _ & ->)|[(_ & _ & ->)|(Hk & _ & ->)]].
  - eapply Forall_sublist; [|done]. apply backtrack_sublist.
  - done.
  - constructor; [|done]. exists l. split; [set_solver|]. split; [|done].
    destruct hasAd; [by apply Hk|]. apply Hagg; [done|set_solver].
Qed.

End RewriterFacts.

(** ** Lines passed through *)

Section PassThrough.

Variable env : jsstring.
Variable URL_origin : jsstring -> option jsstring.

Lemma passedThrough_cases t :
  passedThrough t = true ->
  t = [] \/ (exists r, t = lit "http" ++ r) \/ (exists r, t = lit "blob:" ++ r).
Proof.
  unfold passedThrough. rewrite !orb_true_iff.
  intros [[H|H]|H]; [left; by destruct t|right; left|right; right];
    by apply startsWith_inv.
Qed.

Lemma passedThrough_not_metadata t :
  passedThrough t = true ->
  isMetadata t = false /\ str_eqb t DISCONTINUITY = false.
Proof.
  intros [->|[[r ->]|[r ->]]]%passedThrough_cases; by split.
Qed.

Lemma rewriteLine_passedThrough baseUrl line :
  passedThrough (trim line) = true -> rewriteLine URL_origin baseUrl line = line.
Proof. unfold passedThrough, rewriteLine. by intros ->. Qed.

Lemma processLine_passedThrough baseUrl hasAd processed line :
  passedThrough (trim line) = true ->
  hasAd && matchesKeyword env (trim line) = false ->
  processLine env URL_origin baseUrl hasAd processed line = line :: processed.
Proof.
  intros Hp Hk. unfold processLine. rewrite Hk.
  destruct (passedThrough_not_metadata _ Hp) as [_ ->].
  by rewrite rewriteLine_passedThrough.
Qed.

(** A pushed line that is not metadata is never popped. *)
Lemma processLines_keeps baseUrl hasAd lines processed o :
  isMetadata (trim o) = false -> o ∈ processed ->
  o ∈ fold_left (processLine env URL_origin baseUrl hasAd) lines processed.
Proof.
  intros Ho. revert processed.
  induction lines as [|l lines IH]; intros processed Hin; simpl; [done|].
  apply IH.
  destruct (processLine_cases env URL_origin baseUrl hasAd processed l)
    as [(_ & _ & ->)|[(_ & _ & ->)|(_ & _ & ->)]].
  - by apply backtrack_keeps.
  - done.
  - by right.
Qed.

Lemma processLines_passedThrough baseUrl hasAd lines processed line :
  line ∈ lines -> passedThrough (trim line) = true ->
  hasAd && matchesKeyword env (trim line) = false ->
  line ∈ fold_left (processLine env URL_origin baseUrl hasAd) lines processed.
Proof.
  intros Hin Hp Hk. revert processed.
  induction lines as [|l lines IH]; intros processed; [by apply elem_of_nil in Hin|].
  simpl. apply elem_of_cons in Hin as [<-|Hin]; [|by apply IH].
  rewrite processLine_passedThrough by done.
  apply processLines_keeps; [|by left].
  by destruct (passedThrough_not_metadata _ Hp).
Qed.

End PassThrough.

(** ** Metadata that dangles *)

Section Dangling.

Variable env : jsstring.
Variable URL_origin : jsstring -> option jsstring.
Variable baseUrl : jsstring.

Implicit Types (line s t p : jsstring) (processed lines : list jsstring).

Lemma isMetadata_trim line :
  isMetadata (trim line) = isDuration line || isDiscontinuity line.
Proof. done. Qed.

Lemma okStack_rev processed nxt :
  durationsFollowed (rev processed ++ nxt)
  = okStack (hd_error nxt) processed && durationsFollowed nxt.
Proof.
  revert nxt. induction processed as [|x processed IH]; intros nxt; simpl; [done|].
  rewrite <- app_assoc. simpl. rewrite IH. simpl.
  destruct nxt as [|n nxt]; simpl;
    destruct (isDuration x), (okStack (Some x) processed); simpl; try done.
  - by rewrite andb_true_r.
  - by rewrite andb_false_r.
Qed.

Lemma okStack_closed processed :
  durationsFollowed (rev processed) = okStack None processed.
Proof.
  rewrite <- (app_nil_r (rev processed)), okStack_rev. simpl. apply andb_true_r.
Qed.

Lemma okBelow_pop x processed : okBelow (x :: processed) = true -> okBelow processed = true.
Proof.
  simpl. destruct processed as [|y processed]; [done|]. simpl.
  by intros [_ H]%andb_true_iff.
Qed.

Lemma okBelow_backtrack processed :
  okBelow processed = true -> okBelow (backtrack processed) = true.
Proof.
  induction processed as [|x processed IH]; [done|]. intros H. simpl.
  destruct (isMetadata (trim x)); [|done]. apply IH. by eapply okBelow_pop.
Qed.

Lemma backtrack_head_not_duration processed :
  match backtrack processed with
  | e :: _ => isDuration e = false
  | [] => True
  end.
Proof.
  destruct (backtrack processed) as [|e rest] eqn:E; [done|].
  apply backtrack_head in E. rewrite isMetadata_trim in E.
  by apply orb_false_iff in E as [-> _].
Qed.

(** *** The image of a line that is not metadata *)

Lemma startsWith_trimEnd p d s :
  is_ws d = false ->
  startsWith (p ++ [d]) (trimEnd s) = startsWith (p ++ [d]) s.
Proof.
  intros Hd. apply eq_true_iff_eq. split; intros H.
  - apply startsWith_prefix. apply startsWith_prefix in H.
    destruct (trimEnd_decomp s) as (w & Hs & _). rewrite Hs.
    by apply prefix_app_r.
  - apply startsWith_inv in H as [r ->]. rewrite <- app_assoc. simpl.
    destruct (trimEnd_cons_nonws d r Hd) as (r' & Hr).
    rewrite trimEnd_app_nonempty by (by rewrite Hr). rewrite Hr.
    apply startsWith_prefix. exists r'. by rewrite <- app_assoc.
Qed.

Lemma startsWith_hash_trim s :
  startsWith (lit "#") (trim s) = startsWith (lit "#") (trimStart s).
Proof. apply (startsWith_trimEnd [] 35). done. Qed.

Lemma startsWith_EXTINF_trim s :
  startsWith EXTINF (trim s) = startsWith EXTINF (trimStart s).
Proof. apply (startsWith_trimEnd (lit "#EXTINF") 58). done. Qed.

Lemma not_tag_not_metadata t :
  startsWith (lit "#") t = false -> isMetadata t = false.
Proof.
  destruct t as [|c t]; [done|]. unfold isMetadata. eval_lits. simpl.
  rewrite (N.eqb_sym c 35), andb_true_r. by intros ->.
Qed.

Lemma playable_not_metadata line :
  isPlayable line = true ->
  isDuration line = false /\ isDiscontinuity line = false /\ isBlank line = false.
Proof.
  unfold isPlayable, isBlank.
  intros [Ht Hh%negb_true_iff]%andb_true_iff. rewrite Ht.
  apply not_tag_not_metadata in Hh. rewrite isMetadata_trim in Hh.
  by apply orb_false_iff in Hh as [-> ->].
Qed.

Lemma durationsFollowed_noDangling lines :
  durationsFollowed lines = true -> noDangling lines = true.
Proof.
  induction lines as [|l rest IH]; simpl; [done|].
  intros [H1 H2]%andb_true_iff. rewrite IH by done. rewrite andb_true_r.
  unfold danglingAt. destruct (isDuration l); [|done].
  destruct rest as [|s rest']; [done|]. cbn [forallb andb negb].
  destruct (playable_not_metadata s H1) as (-> & -> & ->). done.
Qed.

Lemma trim_cons_nonws c s : is_ws c = false -> exists r, trim (c :: s) = c :: r.
Proof.
  intros Hc. unfold trim. rewrite trimStart_cons_nonws by done.
  by apply trimEnd_cons_nonws.
Qed.

Lemma prefixed_not_tag p t :
  plainPrefix p = true -> trimmed t -> t <> [] ->
  startsWith (lit "#") t = false ->
  startsWith (lit "#") (trim (p ++ t)) = false.
Proof.
  intros Hp Ht Hne Hhash. rewrite startsWith_hash_trim.
  destruct (trimStart p) as [|d r] eqn:E.
  - apply trimStart_nil_inv in E. rewrite trimStart_ws_app by done.
    destruct Ht as [-> _]. done.
  - rewrite trimStart_app_nonempty by (by rewrite E). rewrite E.
    unfold plainPrefix in Hp. rewrite E in Hp. by apply negb_true_iff in Hp.
Qed.

Lemma isDuration_replaceURI line :
  isDuration (replaceURI baseUrl line) = isDuration line.
Proof.
  unfold isDuration. rewrite !startsWith_EXTINF_trim, trimStart_replaceURI.
  apply startsWith_replaceURI. intros H. apply includes_elem in H. done.
Qed.

Lemma isDiscontinuity_replaceURI line :
  isDiscontinuity line = false -> isDiscontinuity (replaceURI baseUrl line) = false.
Proof.
  unfold isDiscontinuity. intros H. apply str_eqb_neq. intros E.
  assert (QUOTE ∉ replaceURI baseUrl line) as Hq.
  { intros Hin. apply (elem_of_trim QUOTE) in Hin; [|done].
    rewrite E in Hin. apply includes_elem in Hin. done. }
  assert (QUOTE ∉ line) as Hq' by (intros Hin; by apply Hq, replaceURI_quoted).
  rewrite replaceURI_unquoted in E by done.
  apply str_eqb_neq in H. done.
Qed.

Lemma prefixed_not_blank p t :
  trimmed t -> t <> [] -> truthy (trim (p ++ t)) = true.
Proof.
  intros Ht Hne. destruct t as [|c t]; [done|]. apply trimmed_head in Ht.
  assert (c ∈ trim (p ++ c :: t)) as Hin.
  { apply elem_of_trim; [|done]. rewrite elem_of_app. right. by left. }
  by destruct (trim (p ++ c :: t)); [apply elem_of_nil in Hin|].
Qed.

Hypothesis basePath_plain : plainPrefix (basePath baseUrl) = true.
Hypothesis origin_plain : plainPrefix (origin URL_origin baseUrl) = true.

Lemma rewriteLine_keeps_playable line :
  isPlayable line = true -> isPlayable (rewriteLine URL_origin baseUrl line) = true.
Proof.
  intros Hp. unfold rewriteLine.
  destruct (negb (truthy (trim line)) || startsWith (lit "http") (trim line)
            || startsWith (lit "blob:") (trim line)); [done|].
  unfold isPlayable in Hp. apply andb_true_iff in Hp as [Ht Hh%negb_true_iff].
  rewrite Hh.
  assert (trim line <> []) as Hne by (by destruct (trim line)).
  assert (forall p, plainPrefix p = true -> isPlayable (p ++ trim line) = true) as Hpre.
  { intros p Hplain. unfold isPlayable.
    rewrite prefixed_not_blank by (done || apply trim_trimmed).
    by rewrite prefixed_not_tag by (done || apply trim_trimmed). }
  assert (isPlayable (trim line) = true) as Htrim.
  { unfold isPlayable. by rewrite trim_idem, Ht, Hh. }
  destruct (startsWith (lit "/") (trim line)); [|by apply Hpre].
  destruct (truthy (origin URL_origin baseUrl)); [by apply Hpre|done].
Qed.

Lemma rewriteLine_not_metadata line :
  isMetadata (trim line) = false ->
  isMetadata (trim (rewriteLine URL_origin baseUrl line)) = false.
Proof.
  intros Hm. unfold rewriteLine.
  destruct (negb (truthy (trim line)) || startsWith (lit "http") (trim line)
            || startsWith (lit "blob:") (trim line)) eqn:E1; [done|].
  apply orb_false_iff in E1 as [E1 _]. apply orb_false_iff in E1 as [E1 _].
  apply negb_false_iff in E1.
  destruct (startsWith (lit "#") (trim line)) eqn:E2.
  - destruct (includes URI_ATTR (trim line)); [|done].
    rewrite isMetadata_trim in *. apply orb_false_iff in Hm as [Hd Hc].
    by rewrite isDuration_replaceURI, Hd, isDiscontinuity_replaceURI.
  - assert (trim line <> []) as Hne by (by destruct (trim line)).
    destruct (startsWith (lit "/") (trim line)).
    + destruct (truthy (origin URL_origin baseUrl)).
      * apply not_tag_not_metadata, prefixed_not_tag; auto using trim_trimmed.
      * rewrite trim_idem. by apply not_tag_not_metadata.
    + apply not_tag_not_metadata, prefixed_not_tag; auto using trim_trimmed.
Qed.

Lemma rewriteLine_duration line :
  isDuration (rewriteLine URL_origin baseUrl line) = true -> isDuration line = true.
Proof.
  intros H. destruct (isMetadata (trim line)) eqn:Hm.
  - rewrite isMetadata_trim in Hm. apply orb_true_iff in Hm as [Hm|Hm]; [done|].
    rewrite rewriteLine_discontinuity in H by done.
    unfold isDiscontinuity in Hm. apply str_eqb_eq in Hm.
    unfold isDuration in *. by rewrite Hm in *.
  - apply rewriteLine_not_metadata in Hm. rewrite isMetadata_trim in Hm.
    apply orb_false_iff in Hm as [Hm _]. congruence.
Qed.

(** *** The loop keeps duration tags followed *)

Lemma processLines_followed hasAd lines processed :
  okBelow processed = true -> followedFrom processed lines = true ->
  okStack None (fold_left (processLine env URL_origin baseUrl hasAd) lines processed) = true.
Proof.
  revert processed. induction lines as [|l lines IH]; intros processed Hb Hf; simpl.
  - unfold followedFrom in Hf. destruct processed as [|e processed]; [done|].
    simpl in *. destruct (isDuration e); [done|]. done.
  - apply andb_true_iff in Hf as [Hnext Hrest]. simpl in Hrest.
    apply andb_true_iff in Hrest as [Hl Hlines].
    assert (followedFrom [] lines = true) as Hnil by (unfold followedFrom; by rewrite Hlines).
    destruct (processLine_cases env URL_origin baseUrl hasAd processed l)
      as [(_ & _ & ->)|[(_ & Hd & ->)|(_ & _ & ->)]].
    + apply IH; [by apply okBelow_backtrack|].
      pose proof (backtrack_head_not_duration processed) as Hh.
      unfold followedFrom. destruct (backtrack processed) as [|e rest]; [done|].
      by rewrite Hh.
    + apply IH; [done|]. unfold followedFrom. rewrite Hlines, andb_true_r.
      destruct processed as [|e processed]; [done|].
      destruct (isDuration e); [|done].
      destruct (playable_not_metadata l Hnext) as (_ & Hnd & _).
      fold (isDiscontinuity l) in Hd. congruence.
    + apply IH.
      * simpl. destruct processed as [|e processed]; [done|]. simpl in *.
        rewrite Hb, andb_true_r. destruct (isDuration e); [|done].
        by apply rewriteLine_keeps_playable.
      * unfold followedFrom. rewrite Hlines, andb_true_r.
        destruct (isDuration (rewriteLine URL_origin baseUrl l)) eqn:E; [|done].
        apply rewriteLine_duration in E. rewrite E in Hl. by destruct lines.
Qed.

Lemma processedLines_followed content :
  durationsFollowed (split_lines content) = true ->
  durationsFollowed (processedLines env URL_origin content baseUrl) = true.
Proof.
  intros H. unfold processedLines, processLines. rewrite okStack_closed.
  by apply processLines_followed.
Qed.

End Dangling.

(** ** The hybrid policy for discontinuity tags *)

Section Hybrid.

Variable env : jsstring.
Variable URL_origin : jsstring -> option jsstring.
Variable baseUrl : jsstring.

Implicit Types (line s t p d : jsstring) (processed lines : list jsstring).

(** *** The base path *)

Lemma lastIndexOf_from_spec c s i acc :
  let r := lastIndexOf_from c s i acc in
  r = acc \/ ((i <= r < i + Z.of_nat (length s))%Z /\ s !! Z.to_nat (r - i) = Some c).
Proof.
  revert i acc. induction s as [|x s IH]; intros i acc; simpl; [by left|].
  destruct (IH (i + 1)%Z (if x =? c then i else acc)) as [H|[H1 H2]].
  - rewrite H. destruct (N.eqb_spec x c) as [->|]; [|by left].
    right. split; [lia|]. by rewrite Z.sub_diag.
  - right. split; [lia|].
    replace (Z.to_nat (lastIndexOf_from c s (i + 1) (if x =? c then i else acc) - i))
      with (S (Z.to_nat (lastIndexOf_from c s (i + 1) (if x =? c then i else acc) - (i + 1))))
      by lia.
    done.
Qed.

Lemma basePath_cases : basePath baseUrl = [] \/ SLASH ∈ basePath baseUrl.
Proof.
  unfold basePath, substring0, lastIndexOf.
  destruct (lastIndexOf_from_spec SLASH baseUrl 0 (-1)) as [H|[H1 H2]].
  - left. by rewrite H.
  - right. rewrite Z.sub_0_r in H2. apply list_elem_of_lookup.
    exists (Z.to_nat (lastIndexOf_from SLASH baseUrl 0 (-1))).
    rewrite lookup_take_lt by lia. done.
Qed.

Lemma basePath_prefix : basePath baseUrl `prefix_of` baseUrl.
Proof. apply prefix_take. Qed.

(** *** No discontinuity tag is made by the rewriting *)

Lemma slash_not_discontinuity s : SLASH ∈ s -> isDiscontinuity s = false.
Proof.
  intros H. apply (elem_of_trim SLASH) in H; [|done].
  unfold isDiscontinuity. apply str_eqb_neq. intros E. rewrite E in H.
  apply includes_elem in H. done.
Qed.

Lemma rewriteLine_not_discontinuity line :
  isDiscontinuity line = false ->
  isDiscontinuity (rewriteLine URL_origin baseUrl line) = false.
Proof.
  intros Hd. unfold rewriteLine.
  destruct (negb (truthy (trim line)) || startsWith (lit "http") (trim line)
            || startsWith (lit "blob:") (trim line)); [done|].
  destruct (startsWith (lit "#") (trim line)).
  { destruct (includes URI_ATTR (trim line)); [|done].
    by apply isDiscontinuity_replaceURI. }
  assert (isDiscontinuity (trim line) = false) as Ht.
  { unfold isDiscontinuity in *. by rewrite trim_idem. }
  destruct (startsWith (lit "/") (trim line)) eqn:E.
  - destruct (truthy (origin URL_origin baseUrl)); [|done].
    apply slash_not_discontinuity. apply startsWith_inv in E as [r ->].
    rewrite elem_of_app. right. by left.
  - destruct basePath_cases as [->|H]; [done|].
    apply slash_not_discontinuity. rewrite elem_of_app. by left.
Qed.

Lemma processLines_aggressive lines processed :
  Forall (fun o => isDiscontinuity o = false) processed ->
  Forall (fun o => isDiscontinuity o = false)
    (fold_left (processLine env URL_origin baseUrl false) lines processed).
Proof.
  revert processed. induction lines as [|l lines IH]; intros processed Hp; simpl; [done|].
  apply IH.
  destruct (processLine_cases env URL_origin baseUrl false processed l)
    as [(? & _)|[(_ & _ & ->)|(_ & Hd & ->)]]; [done|done|].
  constructor; [|done]. apply rewriteLine_not_discontinuity. by apply Hd.
Qed.

(** *** A discontinuity tag that no backtrack reaches *)

Lemma backtrack_above above o processed :
  isMetadata (trim o) = false ->
  exists after, backtrack (above ++ o :: processed) = after ++ o :: processed.
Proof.
  intros Ho. induction above as [|x above [after IH]]; simpl.
  - exists []. by rewrite Ho.
  - destruct (isMetadata (trim x)); [by exists after|by exists (x :: above)].
Qed.

Lemma processLines_above hasAd lines above o processed :
  isMetadata (trim o) = false ->
  exists after,
    fold_left (processLine env URL_origin baseUrl hasAd) lines (above ++ o :: processed)
    = after ++ o :: processed.
Proof.
  intros Ho. revert above. induction lines as [|l lines IH]; intros above; simpl.
  - by exists above.
  - destruct (processLine_cases env URL_origin baseUrl hasAd (above ++ o :: processed) l)
      as [(_ & _ & ->)|[(_ & _ & ->)|(_ & _ & ->)]].
    + destruct (backtrack_above above o processed Ho) as [after ->]. apply IH.
    + apply IH.
    + apply (IH (_ :: above)).
Qed.

Lemma processLines_unreached post popped d processed :
  reachedByBacktrack env URL_origin baseUrl post = false ->
  exists after,
    fold_left (processLine env URL_origin baseUrl true) post (popped ++ d :: processed)
    = after ++ d :: processed.
Proof.
  revert popped. induction post as [|l post IH]; intros popped; simpl.
  - by exists popped.
  - destruct (matchesKeyword env (trim l)) eqn:Ek; [done|].
    destruct (processLine_cases env URL_origin baseUrl true (popped ++ d :: processed) l)
      as [(_ & ? & _)|[(? & _)|(_ & _ & ->)]]; [congruence|done|].
    destruct (isMetadata (trim (rewriteLine URL_origin baseUrl l))) eqn:Em.
    + intros Hr. apply (IH (_ :: popped) Hr).
    + intros _.
      destruct (processLines_above true post [] (rewriteLine URL_origin baseUrl l)
                  (popped ++ d :: processed) Em) as [after Hafter].
      simpl in Hafter. rewrite Hafter.
      exists (after ++ rewriteLine URL_origin baseUrl l :: popped).
      by rewrite <- app_assoc.
Qed.

Lemma processLines_reached post popped d processed :
  Forall (fun m => isMetadata (trim m) = true) popped ->
  isMetadata (trim d) = true ->
  reachedByBacktrack env URL_origin baseUrl post = true ->
  exists rest,
    rest `suffix_of` post /\
    fold_left (processLine env URL_origin baseUrl true) post (popped ++ d :: processed)
    = fold_left (processLine env URL_origin baseUrl true) rest (backtrack processed).
Proof.
  intros Hp Hd. revert popped Hp.
  induction post as [|l post IH]; intros popped Hp; simpl; [done|].
  destruct (matchesKeyword env (trim l)) eqn:Ek.
  - intros _. exists post. split; [by apply suffix_cons_r|].
    rewrite processLine_ad by done.
    rewrite backtrack_popped by done. simpl. by rewrite Hd.
  - destruct (processLine_cases env URL_origin baseUrl true (popped ++ d :: processed) l)
      as [(_ & ? & _)|[(? & _)|(_ & _ & ->)]]; [congruence|done|].
    destruct (isMetadata (trim (rewriteLine URL_origin baseUrl l))) eqn:Em; [|done].
    intros Hr.
    destruct (IH (rewriteLine URL_origin baseUrl l :: popped)) as (rest & Hsuf & E);
      [by constructor|done|].
    exists rest. split; [by apply suffix_cons_r|done].
Qed.

Lemma processLines_discontinuity_popped pre d post :
  isDiscontinuity d = true -> matchesKeyword env d = false ->
  reachedByBacktrack env URL_origin baseUrl post = true ->
  exists rest,
    rest `suffix_of` post /\
    processLines env URL_origin baseUrl true (pre ++ d :: post)
    = fold_left (processLine env URL_origin baseUrl true) rest
        (backtrack (processLines env URL_origin baseUrl true pre)).
Proof.
  intros Hd Hk Hr. unfold processLines. rewrite fold_left_app. simpl.
  destruct (processLine_cases env URL_origin baseUrl true
              (fold_left (processLine env URL_origin baseUrl true) pre []) d)
    as [(_ & ? & _)|[(? & _)|(_ & _ & ->)]].
  - rewrite matchesKeyword_trim in *. congruence.
  - done.
  - rewrite rewriteLine_discontinuity by done.
    apply (processLines_reached post [] d); [done| |done].
    unfold isMetadata. fold (isDiscontinuity d). rewrite Hd. apply orb_true_r.
Qed.

Lemma processLines_discontinuity_kept pre d post :
  isDiscontinuity d = true -> matchesKeyword env d = false ->
  reachedByBacktrack env URL_origin baseUrl post = false ->
  exists after,
    rev (processLines env URL_origin baseUrl true (pre ++ d :: post))
    = rev (processLines env URL_origin baseUrl true pre) ++ d :: after.
Proof.
  intros Hd Hk Hr. unfold processLines. rewrite fold_left_app. simpl.
  destruct (processLine_cases env URL_origin baseUrl true
              (fold_left (processLine env URL_origin baseUrl true) pre []) d)
    as [(_ & ? & _)|[(? & _)|(_ & _ & ->)]].
  - rewrite matchesKeyword_trim in *. congruence.
  - done.
  - rewrite rewriteLine_discontinuity by done.
    destruct (processLines_unreached post [] d
                (fold_left (processLine env URL_origin baseUrl true) pre []) Hr)
      as [after Hafter].
    simpl in Hafter. rewrite Hafter.
    exists (rev after). rewrite rev_app_distr. simpl. by rewrite <- app_assoc.
Qed.

End Hybrid.

(** ** The resolver *)

Lemma filter_length_Permutation {A} (f : A -> bool) (l1 l2 : list A) :
  l1 ≡ₚ l2 -> length (List.filter f l1) = length (List.filter f l2).
Proof.
  induction 1 as [|x l1 l2 _ IH|x y l|l1 l2 l3 _ IH1 _ IH2]; simpl.
  - done.
  - destruct (f x); simpl; by rewrite IH.
  - by destruct (f x), (f y).
  - by rewrite IH1.
Qed.

Section ResolverFacts.

Variable env : jsstring.
Variable URL_origin : jsstring -> option jsstring.
Variable URL_resolve : jsstring -> jsstring -> option jsstring.
Variable fetchText : jsstring -> option jsstring.
Variable objectURL : nat -> jsstring.
Variable masterSrc : jsstring.
Variable lines : list jsstring.

Local Abbreviation settleChild := (settleChild env URL_origin URL_resolve fetchText objectURL masterSrc).
Local Abbreviation settleAll := (settleAll env URL_origin URL_resolve fetchText objectURL masterSrc lines).
Local Abbreviation childSettles := (childSettles URL_resolve fetchText masterSrc lines).
Local Abbreviation filtered := (filterM3u8Ad env URL_origin).
Local Abbreviation grown := (grown objectURL).

Lemma grown_refl b : grown b b 0.
Proof.
  split; [simpl; lia|]. split; [simpl; by rewrite app_nil_r|].
  exists []. by rewrite app_nil_r.
Qed.

Lemma grown_trans b1 b2 b3 n m : grown b1 b2 n -> grown b2 b3 m -> grown b1 b3 (n + m).
Proof.
  intros (H1 & H2 & c1 & H3 & H4) (H1' & H2' & c2 & H3' & H4').
  split; [lia|]. split.
  - rewrite H2', H2, H1, <- app_assoc, seq_app, map_app. done.
  - exists (c1 ++ c2). rewrite H3', H3, <- app_assoc, length_app. split; [done|lia].
Qed.

Lemma grown_store b b' n x : grown b b' n -> x ∈ store b -> x ∈ store b'.
Proof. intros (_ & _ & c & -> & _) H. rewrite elem_of_app. by left. Qed.

Lemma grown_created b b' n x : grown b b' n -> x ∈ createdBlobs b -> x ∈ createdBlobs b'.
Proof. intros (_ & -> & _) H. rewrite elem_of_app. by left. Qed.

Lemma settleChild_fails line c b :
  (forall absoluteUrl, URL_resolve (relativeOf c) masterSrc = Some absoluteUrl ->
                       fetchText absoluteUrl = None) ->
  settleChild line c b = (line, b).
Proof.
  intros H. unfold Player.settleChild.
  destruct (URL_resolve (relativeOf c) masterSrc) as [absoluteUrl|]; [|done].
  by rewrite (H absoluteUrl eq_refl).
Qed.

Lemma settleChild_settles line c b absoluteUrl subContent :
  URL_resolve (relativeOf c) masterSrc = Some absoluteUrl ->
  fetchText absoluteUrl = Some subContent ->
  exists b',
    settleChild line c b = (settledLine line c (objectURL (handedOut b)), b') /\
    grown b b' 1 /\
    (objectURL (handedOut b), filtered subContent absoluteUrl) ∈ store b' /\
    objectURL (handedOut b) ∈ createdBlobs b'.
Proof.
  intros Hr Hf. unfold Player.settleChild. rewrite Hr, Hf. simpl.
  eexists. split; [done|]. split; [|split]; simpl.
  - split; [simpl; lia|]. split; [done|]. by eexists.
  - rewrite elem_of_app. right. by left.
  - rewrite elem_of_app. right. by left.
Qed.

Lemma childSettles_true index :
  childSettles index = true <->
  exists line c absoluteUrl subContent,
    lines !! index = Some line /\ childOf lines index line = Some c /\
    URL_resolve (relativeOf c) masterSrc = Some absoluteUrl /\
    fetchText absoluteUrl = Some subContent.
Proof.
  unfold Player.childSettles. split.
  - destruct (lines !! index) as [line|]; [|done].
    destruct (childOf lines index line) as [c|] eqn:Ec; [|done].
    destruct (URL_resolve (relativeOf c) masterSrc) as [absoluteUrl|] eqn:Er; [|done].
    intros [subContent H]%bool_decide_eq_true. by exists line, c, absoluteUrl, subContent.
  - intros (line & c & absoluteUrl & subContent & -> & -> & -> & ->).
    by apply bool_decide_eq_true.
Qed.

Lemma childIndices_spec index :
  index ∈ childIndices lines <->
  exists line c, lines !! index = Some line /\ childOf lines index line = Some c.
Proof.
  unfold childIndices. rewrite list_elem_of_In, filter_In, in_seq. split.
  - intros [_ H]. destruct (lines !! index) as [line|]; [|done].
    apply bool_decide_eq_true in H as [c Hc]. by exists line, c.
  - intros (line & c & Hl & Hc). split.
    + apply lookup_lt_Some in Hl. lia.
    + rewrite Hl. by apply bool_decide_eq_true.
Qed.

Lemma childIndices_NoDup : NoDup (childIndices lines).
Proof. unfold childIndices. apply NoDup_ListNoDup, List.NoDup_filter, seq_NoDup. Qed.

(** *** The blobs grow by one for each child that settles *)

Lemma settleAll_grown schedule results b results' b' :
  settleAll schedule results b = (results', b') ->
  grown b b' (length (List.filter childSettles schedule)) /\
  length results' = length results.
Proof.
  revert results b. induction schedule as [|index schedule IH]; intros results b; simpl.
  - intros [= <- <-]. split; [apply grown_refl|done].
  - unfold Player.childSettles at 1.
    destruct (lines !! index) as [line|] eqn:El; [|apply IH].
    destruct (childOf lines index line) as [c|] eqn:Ec; [|apply IH].
    destruct (URL_resolve (relativeOf c) masterSrc) as [absoluteUrl|] eqn:Er.
    + destruct (fetchText absoluteUrl) as [subContent|] eqn:Ef.
      * destruct (settleChild_settles line c b absoluteUrl subContent Er Ef)
          as (b1 & -> & Hg & _).
        intros H. apply IH in H as [Hg' Hlen].
        rewrite bool_decide_eq_true_2 by eauto. simpl. split.
        -- apply (grown_trans _ _ _ 1 _ Hg Hg').
        -- by rewrite length_insert in Hlen.
      * rewrite settleChild_fails by (intros ?; congruence).
        intros H. apply IH in H as [Hg' Hlen].
        rewrite bool_decide_eq_false_2 by (rewrite <- eq_None_not_Some; done).
        split; [done|]. by rewrite length_insert in Hlen.
    + rewrite settleChild_fails by (intros ?; congruence).
      intros H. apply IH in H as [Hg' Hlen].
      split; [done|]. by rewrite length_insert in Hlen.
Qed.

(** *** Each result goes to the index of its line *)

Lemma settleAll_frame schedule results b results' b' index :
  settleAll schedule results b = (results', b') ->
  index ∉ schedule -> results' !! index = results !! index.
Proof.
  revert results b. induction schedule as [|i schedule IH]; intros results b; simpl.
  - by intros [= <- <-].
  - intros H Hin. apply not_elem_of_cons in Hin as [Hne Hin].
    destruct (lines !! i) as [line|]; [|by eapply IH].
    destruct (childOf lines i line) as [c|]; [|by eapply IH].
    destruct (settleChild line c b) as [result b1].
    rewrite (IH _ _ H Hin). by apply list_lookup_insert_ne.
Qed.

Lemma settleAll_failed schedule results b results' b' index :
  settleAll schedule results b = (results', b') ->
  results !! index = lines !! index ->
  childSettles index = false ->
  results' !! index = lines !! index.
Proof.
  revert results b. induction schedule as [|i schedule IH]; intros results b; simpl.
  - by intros [= <- <-].
  - intros H Hres Hfail.
    destruct (lines !! i) as [line|] eqn:El; [|by eapply IH].
    destruct (childOf lines i line) as [c|] eqn:Ec; [|by eapply IH].
    destruct (decide (i = index)) as [->|Hne].
    + rewrite settleChild_fails in H.
      * eapply IH; [done| |done]. rewrite El in *.
        apply list_lookup_insert_eq. by apply lookup_lt_Some in Hres.
      * intros absoluteUrl Hr. unfold Player.childSettles in Hfail.
        rewrite El, Ec, Hr in Hfail. apply bool_decide_eq_false in Hfail.
        by apply eq_None_not_Some.
    + destruct (settleChild line c b) as [result b1].
      eapply IH; [done| |done]. by rewrite list_lookup_insert_ne.
Qed.

Lemma settleAll_settled schedule results b results' b' index :
  settleAll schedule results b = (results', b') ->
  NoDup schedule -> index ∈ schedule -> (index < length results)%nat ->
  childSettles index = true ->
  exists line c absoluteUrl subContent k,
    lines !! index = Some line /\ childOf lines index line = Some c /\
    URL_resolve (relativeOf c) masterSrc = Some absoluteUrl /\
    fetchText absoluteUrl = Some subContent /\
    (handedOut b <= k < handedOut b')%nat /\
    objectURL k ∈ createdBlobs b' /\
    (objectURL k, filtered subContent absoluteUrl) ∈ store b' /\
    results' !! index = Some (settledLine line c (objectURL k)).
Proof.
  revert results b. induction schedule as [|i schedule IH]; intros results b; simpl.
  - intros _ _ Hin. by apply elem_of_nil in Hin.
  - intros H Hnd Hin Hlt Hs. apply NoDup_cons in Hnd as [Hi Hnd].
    destruct (decide (i = index)) as [->|Hne].
    + apply childSettles_true in Hs as (line & c & absoluteUrl & subContent & El & Ec & Er & Ef).
      rewrite El, Ec in H.
      destruct (settleChild_settles line c b absoluteUrl subContent Er Ef)
        as (b1 & Hsc & Hg & Hstore & Hcreated).
      rewrite Hsc in H.
      destruct (settleAll_grown _ _ _ _ _ H) as [Hg' _].
      exists line, c, absoluteUrl, subContent, (handedOut b).
      repeat split; try done.
      * destruct Hg as (Hg & _), Hg' as (Hg' & _). lia.
      * by eapply grown_created.
      * by eapply grown_store.
      * rewrite (settleAll_frame _ _ _ _ _ _ H Hi).
        by apply list_lookup_insert_eq.
    + apply elem_of_cons in Hin as [?|Hin]; [done|].
      assert (exists results1 b1 n,
                settleAll schedule results1 b1 = (results', b') /\
                length results1 = length results /\ grown b b1 n) as (results1 & b1 & n & H1 & Hlen & Hg).
      { destruct (lines !! i) as [line|]; [|exists results, b, 0%nat; auto using grown_refl].
        destruct (childOf lines i line) as [c|] eqn:Ec;
          [|exists results, b, 0%nat; auto using grown_refl].
        destruct (settleChild line c b) as [result b1] eqn:Esc.
        exists (<[i:=result]> results), b1.
        unfold Player.settleChild in Esc.
        destruct (URL_resolve (relativeOf c) masterSrc) as [absoluteUrl|] eqn:Er.
        - destruct (fetchText absoluteUrl) as [subContent|] eqn:Ef.
          + destruct (settleChild_settles line c b absoluteUrl subContent Er Ef)
              as (b2 & Hsc & Hg & _).
            unfold Player.settleChild in Hsc. rewrite Er, Ef in Hsc.
            rewrite Hsc in Esc. injection Esc as <- <-.
            exists 1%nat. rewrite length_insert. auto.
          + injection Esc as <- <-. exists 0%nat. rewrite length_insert.
            auto using grown_refl.
        - injection Esc as <- <-. exists 0%nat. rewrite length_insert.
          auto using grown_refl. }
      destruct (IH results1 b1 H1 Hnd Hin ltac:(lia) Hs)
        as (line & c & absoluteUrl & subContent & k & ? & ? & ? & ? & Hk & ? & ? & ?).
      exists line, c, absoluteUrl, subContent, k. repeat split; try done; try lia.
      destruct Hg as (Hg & _). lia.
Qed.

End ResolverFacts.

(** ** Rewriting twice *)

Section ReplaceTwice.

Variable baseUrl : jsstring.

Implicit Types (s t p uri rest run : jsstring) (c : N).

Lemma first_quote_unique run1 tl1 run2 tl2 :
  QUOTE ∉ run1 -> QUOTE ∉ run2 ->
  run1 ++ QUOTE :: tl1 = run2 ++ QUOTE :: tl2 -> run1 = run2 /\ tl1 = tl2.
Proof.
  revert run2. induction run1 as [|c run1 IH]; intros run2 H1 H2 E.
  - destruct run2 as [|d run2]; [by simplify_eq|].
    simpl in E. injection E as <- _. destruct H2. by left.
  - destruct run2 as [|d run2].
    + simpl in E. injection E as -> _. destruct H1. by left.
    + simpl in E. injection E as <- E.
      destruct (IH run2) as [-> ->]; [|
        |done|done];
        [intros H; apply H1; by right|intros H; apply H2; by right].
Qed.

(** The replace leaves the text up to the first quote alone. *)
Lemma replaceURI_first_quote s run tl :
  QUOTE ∉ run -> s = run ++ QUOTE :: tl ->
  exists tl', replaceURI baseUrl s = run ++ QUOTE :: tl'.
Proof.
  revert run tl.
  induction s as [|s uri rest E IH|c s E IH] using replaceURI_ind; intros run tl Hq Hs.
  - by destruct run.
  - rewrite (replaceURI_match _ _ _ _ E).
    destruct (replaceCallback_shape baseUrl uri) as (uri' & -> & _).
    apply match_uri_Some in E as (-> & _).
    change (URI_ATTR ++ uri ++ QUOTE :: rest)
      with (lit "URI=" ++ QUOTE :: uri ++ QUOTE :: rest) in Hs.
    apply first_quote_unique in Hs as [<- _]; [|by intros ?%includes_elem|done].
    by eexists.
  - rewrite replaceURI_skip by done. destruct run as [|d run].
    + injection Hs as -> _. by eexists.
    + injection Hs as -> Hs. destruct (IH run tl) as [tl' ->]; [set_solver|done|].
      by eexists.
Qed.

Lemma replaceURI_strip_unit c s rest :
  c <> 85 -> replaceURI baseUrl s = c :: rest ->
  exists s', s = c :: s' /\ replaceURI baseUrl s' = rest.
Proof.
  intros Hc E. pose proof (replaceURI_head baseUrl s) as Hh. rewrite E in Hh.
  destruct s as [|d s']; [done|]. simpl in Hh. injection Hh as <-.
  rewrite replaceURI_cons in E by done. injection E as E. eauto.
Qed.

(** Where there was no match there is none after the replace. *)
Lemma match_uri_skip_stable c s :
  match_uri (c :: s) = None -> match_uri (c :: replaceURI baseUrl s) = None.
Proof.
  intros Hnone.
  destruct (match_uri (c :: replaceURI baseUrl s)) as [[uri rest]|] eqn:E; [|done].
  apply match_uri_Some in E as (E & Hne & Hq).
  change (URI_ATTR ++ uri ++ QUOTE :: rest)
    with (85 :: 82 :: 73 :: 61 :: QUOTE :: uri ++ QUOTE :: rest) in E.
  injection E as -> E.
  apply replaceURI_strip_unit in E as (s1 & -> & E); [|done].
  apply replaceURI_strip_unit in E as (s2 & -> & E); [|done].
  apply replaceURI_strip_unit in E as (s3 & -> & E); [|done].
  apply replaceURI_strip_unit in E as (s4 & -> & E); [|done].
  assert (QUOTE ∈ s4) as Hin.
  { destruct (decide (QUOTE ∈ s4)) as [|Hn]; [done|].
    rewrite replaceURI_unquoted in E by done. subst s4. set_solver. }
  destruct (span_unquoted s4) as [run tl] eqn:Es.
  destruct (span_unquoted_spec s4 run tl Es) as (Hs4 & Hrun & Htl).
  destruct Htl as [->|[tl' ->]]; [rewrite app_nil_r in Hs4; by subst|].
  destruct (replaceURI_first_quote s4 run tl' Hrun Hs4) as [tl'' E'].
  rewrite E' in E. apply first_quote_unique in E as [-> _]; [|done|done].
  assert (match_uri (85 :: 82 :: 73 :: 61 :: QUOTE :: s4) = Some (uri, tl')) as Hm.
  { apply match_uri_Some. by rewrite Hs4. }
  congruence.
Qed.

Lemma last_replaceURI s : last (replaceURI baseUrl s) = last s.
Proof.
  induction s as [|s uri rest E IH|c s E IH] using replaceURI_ind.
  - done.
  - rewrite (replaceURI_match _ _ _ _ E).
    destruct (replaceCallback_shape baseUrl uri) as (uri' & -> & _).
    apply match_uri_Some in E as (-> & _).
    rewrite <- !app_assoc. simpl.
    rewrite !last_cons, !last_app, !last_cons, IH. by destruct (last rest).
  - rewrite replaceURI_skip by done. by rewrite !last_cons, IH.
Qed.

Lemma elem_of_replaceURI x s :
  x ∈ replaceURI baseUrl s -> x ∈ s \/ x ∈ basePath baseUrl.
Proof.
  induction s as [|s uri rest E IH|c s E IH] using replaceURI_ind.
  - by left.
  - rewrite (replaceURI_match _ _ _ _ E).
    destruct (replaceCallback_shape baseUrl uri) as (uri' & -> & Huri).
    apply match_uri_Some in E as (-> & _).
    rewrite !elem_of_app, !elem_of_cons, elem_of_nil.
    intros [[?|[Hx|[?|?]]]|Hx]; try done; auto.
    + destruct Huri as [->| ->]; [auto|].
      apply elem_of_app in Hx as [?|?]; auto.
    + apply IH in Hx as [?|?]; auto.
  - rewrite replaceURI_skip by done.
    intros [->|Hx]%elem_of_cons; [left; by left|].
    apply IH in Hx as [?|?]; [left; by right|by right].
Qed.

Hypothesis basePath_http : startsWith (lit "http") (basePath baseUrl) = true.
Hypothesis basePath_unquoted : QUOTE ∉ basePath baseUrl.

Lemma replaceCallback_fixed uri :
  QUOTE ∉ uri -> uri <> [] ->
  exists uri', replaceCallback baseUrl uri = URI_ATTR ++ uri' ++ [QUOTE] /\
    (QUOTE ∉ uri') /\ uri' <> [] /\
    replaceCallback baseUrl uri' = URI_ATTR ++ uri' ++ [QUOTE].
Proof.
  intros Hq Hne. unfold replaceCallback at 1.
  destruct (startsWith (lit "http") uri || startsWith (lit "/") uri) eqn:E.
  - exists uri. repeat split; try done. unfold replaceCallback. by rewrite E.
  - exists (basePath baseUrl ++ uri). split; [by rewrite <- app_assoc|].
    split; [by intros [?|?]%elem_of_app|]. split; [by destruct (basePath baseUrl), uri|].
    unfold replaceCallback.
    assert (startsWith (lit "http") (basePath baseUrl ++ uri) = true) as ->; [|done].
    destruct (startsWith_inv _ _ basePath_http) as [r ->].
    rewrite <- app_assoc. apply startsWith_app.
Qed.

Lemma replaceURI_idem s :
  replaceURI baseUrl (replaceURI baseUrl s) = replaceURI baseUrl s.
Proof.
  induction s as [|s uri rest E IH|c s E IH] using replaceURI_ind.
  - done.
  - rewrite (replaceURI_match _ _ _ _ E).
    apply match_uri_Some in E as (-> & Hne & Hq).
    destruct (replaceCallback_fixed uri Hq Hne) as (uri' & -> & Hq' & Hne' & Hfix).
    rewrite <- !app_assoc. simpl.
    rewrite (replaceURI_match _ (URI_ATTR ++ uri' ++ QUOTE :: replaceURI baseUrl rest)
               uri' (replaceURI baseUrl rest)) by (by apply match_uri_Some).
    rewrite Hfix, IH, <- !app_assoc. done.
  - rewrite replaceURI_skip by done.
    rewrite replaceURI_skip by (by apply match_uri_skip_stable).
    by rewrite IH.
Qed.

End ReplaceTwice.

Section JoinSplit.

Implicit Types (l s : jsstring) (P : list jsstring).

Lemma split_lines_single l : 10 ∉ l -> split_lines l = [l].
Proof.
  induction l as [|l IH|l IH|c l Hc Hl IH] using split_lines_ind; intros Hlf.
  - done.
  - destruct Hlf. by left.
  - destruct Hlf. right. by left.
  - rewrite split_lines_unit by done. rewrite IH; [done|].
    intros H. apply Hlf. by right.
Qed.

(** A line that holds no line feed and does not end with a carriage
    return is cut where it was joined. *)
Lemma split_lines_app_lf l s :
  10 ∉ l -> endsWithCR l = false ->
  split_lines (l ++ 10 :: s) = l :: split_lines s.
Proof.
  induction l as [|c l IH]; intros Hlf Hcr; [done|].
  assert (c <> 10) as Hc by (intros ->; apply Hlf; by left).
  assert (10 ∉ l) as Hlf' by (intros H; apply Hlf; by right).
  change ((c :: l) ++ 10 :: s) with (c :: (l ++ 10 :: s)).
  rewrite split_lines_unit; [| done |].
  - rewrite IH; [done|done|].
    unfold endsWithCR in *. rewrite last_cons in Hcr.
    destruct (last l); [done|]. done.
  - intros -> s' E. destruct l as [|d l]; [done|].
    simpl in E. injection E as -> _. apply Hlf'. by left.
Qed.

Lemma split_lines_join P :
  P <> [] ->
  Forall (fun l => (10 ∉ l) /\ endsWithCR l = false) P ->
  split_lines (join P) = P.
Proof.
  intros Hne H. induction H as [|l P [Hlf Hcr] HP IH]; [done|].
  destruct P as [|l2 P].
  - simpl. by apply split_lines_single.
  - change (join (l :: l2 :: P)) with (l ++ 10 :: join (l2 :: P)).
    rewrite split_lines_app_lf by done. by rewrite IH.
Qed.

Lemma cons_first_length c (pieces : list jsstring) :
  pieces <> [] -> length (cons_first c pieces) = length pieces.
Proof. by destruct pieces. Qed.

Lemma split_lines_app_lf_text l s :
  10 ∉ l ->
  exists t, split_lines (l ++ 10 :: s) = t :: split_lines s /\ lineOfText t l.
Proof.
  induction l as [|c l IH]; intros Hlf.
  - exists []. split; [done|by left].
  - assert (c <> 10) as Hc by (intros ->; apply Hlf; by left).
    assert (10 ∉ l) as Hlf' by (intros H; apply Hlf; by right).
    destruct (decide (c = 13 /\ l = [])) as [[-> ->]|Hn].
    + exists []. split; [done|by right].
    + destruct (IH Hlf') as (t & Ht & Hrel).
      exists (c :: t). change ((c :: l) ++ 10 :: s) with (c :: (l ++ 10 :: s)).
      rewrite split_lines_unit, Ht; [split; [done|]|done|].
      * destruct Hrel as [->| ->]; [by left|by right].
      * intros -> s' E. destruct l as [|d l]; [by destruct Hn|].
        simpl in E. injection E as -> _. apply Hlf'. by left.
Qed.

(** The lines of the joined text are the joined lines, one by one, each
    up to a carriage return at its end. *)
Lemma split_lines_join_text P :
  P <> [] -> Forall (fun l => 10 ∉ l) P ->
  Forall2 lineOfText (split_lines (join P)) P.
Proof.
  intros Hne H. induction H as [|l P Hlf HP IH]; [done|].
  destruct P as [|l2 P].
  - simpl. rewrite split_lines_single by done. repeat constructor.
  - change (join (l :: l2 :: P)) with (l ++ 10 :: join (l2 :: P)).
    destruct (split_lines_app_lf_text l (join (l2 :: P)) Hlf) as (t & -> & Hrel).
    constructor; [done|]. by apply IH.
Qed.

End JoinSplit.

Section RewriteTwice.

Variable env : jsstring.
Variable URL_origin : jsstring -> option jsstring.
Variable baseUrl : jsstring.

Implicit Types (line l o s t : jsstring) (processed lines : list jsstring).

Lemma lastIndexOf_from_ge c s i acc j :
  s !! j = Some c -> (i + Z.of_nat j <= lastIndexOf_from c s i acc)%Z.
Proof.
  revert i acc j. induction s as [|x s IH]; intros i acc j; [done|].
  destruct j as [|j]; simpl.
  - intros [= ->]. rewrite N.eqb_refl.
    destruct (lastIndexOf_from_spec c s (i + 1) i) as [->|[H _]]; lia.
  - intros H. specialize (IH (i + 1)%Z (if x =? c then i else acc) j H). lia.
Qed.

Hypothesis baseUrl_http : httpUrl baseUrl = true.
Hypothesis origin_http : httpOrigin (origin URL_origin baseUrl) = true.

Local Abbreviation stable := (stable URL_origin baseUrl).

Lemma urlUnit_facts c : urlUnit c = true -> c <> 10 /\ c <> QUOTE /\ is_ws c = false.
Proof.
  unfold urlUnit. eval_lits. intros H.
  assert (33 <= c <= 126) as Hrange.
  { simpl in H. rewrite !orb_true_iff, !andb_true_iff, !N.leb_le, !N.eqb_eq in H. lia. }
  split; [lia|]. split.
  - intros ->. vm_compute in H. done.
  - unfold is_ws. rewrite !orb_false_iff, !andb_false_iff, !N.eqb_neq, !N.leb_gt. lia.
Qed.

Lemma baseUrl_units c : c ∈ baseUrl -> c <> 10 /\ c <> QUOTE /\ is_ws c = false.
Proof.
  intros Hin. apply urlUnit_facts.
  pose proof baseUrl_http as H0. apply andb_true_iff in H0 as [_ H].
  rewrite forallb_forall in H. apply H. by apply list_elem_of_In.
Qed.

Lemma basePath_units c : c ∈ basePath baseUrl -> c <> 10 /\ c <> QUOTE /\ is_ws c = false.
Proof.
  intros Hin. apply baseUrl_units.
  destruct (basePath_prefix baseUrl) as [r Hr]. rewrite Hr. set_solver.
Qed.

Lemma basePath_starts_http :
  exists r, basePath baseUrl = lit "http" ++ r.
Proof.
  pose proof baseUrl_http as H0. apply andb_true_iff in H0 as [H _].
  assert (exists r, baseUrl = lit "http" ++ r /\ baseUrl !! 6%nat = Some SLASH) as (r & Hr & H6).
  { apply orb_true_iff in H as [H|H]; apply startsWith_inv in H as [r ->].
    - by exists (lit "://" ++ r).
    - by exists (lit "s://" ++ r). }
  pose proof (lastIndexOf_from_ge SLASH baseUrl 0 (-1) 6 H6) as Hge.
  unfold basePath, substring0, lastIndexOf.
  set (n := Z.to_nat (lastIndexOf_from SLASH baseUrl 0 (-1) + 1)).
  assert (4 <= n)%nat as Hn by lia.
  exists (take (n - 4) r). rewrite Hr.
  replace n with (length (lit "http") + (n - 4))%nat at 1 by (simpl; lia).
  by rewrite take_app_add.
Qed.

Lemma origin_cases :
  origin URL_origin baseUrl = [] \/
  (exists r, origin URL_origin baseUrl = lit "http" ++ r) /\ (10 ∉ origin URL_origin baseUrl).
Proof.
  pose proof origin_http as H0. unfold httpOrigin in H0.
  destruct (origin URL_origin baseUrl) as [|c o] eqn:E; [by left|right].
  apply orb_true_iff in H0 as [H0|H0]; [simpl in H0; done|].
  apply andb_true_iff in H0 as [H1 H2].
  split; [by apply startsWith_inv|].
  intros Hin. rewrite forallb_forall in H2.
  apply list_elem_of_In, H2, urlUnit_facts in Hin. by destruct Hin.
Qed.

Lemma http_prefixed_trimmed r t :
  trimmed t -> t <> [] -> trim ((lit "http" ++ r) ++ t) = (lit "http" ++ r) ++ t.
Proof.
  intros Ht Hne. apply trimmed_trim.
  change (lit "http" ++ r) with (104 :: (lit "ttp" ++ r)).
  by apply trimmed_prefixed.
Qed.

Lemma http_prefixed_passed r t :
  trimmed t -> t <> [] ->
  rewriteLine URL_origin baseUrl ((lit "http" ++ r) ++ t) = (lit "http" ++ r) ++ t.
Proof.
  intros Ht Hne. apply rewriteLine_passedThrough.
  rewrite http_prefixed_trimmed by done. unfold passedThrough.
  rewrite <- app_assoc, startsWith_app. by rewrite orb_true_r.
Qed.

Lemma trimmed_not_CR t : trimmed t -> endsWithCR t = false.
Proof.
  intros Ht. unfold endsWithCR.
  destruct t as [|c t] using rev_ind; [done|].
  rewrite last_snoc. apply trimmed_last in Ht.
  destruct (N.eqb_spec c 13) as [->|]; done.
Qed.

Lemma endsWithCR_app p t : t <> [] -> endsWithCR (p ++ t) = endsWithCR t.
Proof.
  intros Hne. unfold endsWithCR. rewrite last_app.
  destruct t as [|c t] using rev_ind; [done|]. by rewrite last_snoc.
Qed.

Lemma rewriteLine_stable line :
  10 ∉ line -> endsWithCR line = false -> isDiscontinuity line = false ->
  stable (rewriteLine URL_origin baseUrl line).
Proof.
  intros Hlf Hcr Hd.
  destruct basePath_starts_http as [rb Hb].
  split; [|split; [|split; [by apply rewriteLine_not_discontinuity|]]].
  - (* no line feed *)
    destruct (rewriteLine_cases URL_origin baseUrl line) as [->|[->|[->| ->]]]; [done|..].
    + intros [?|Hin]%elem_of_replaceURI; [done|].
      by apply basePath_units in Hin as [? _].
    + intros [Hin|Hin%elem_of_trim_inv]%elem_of_app; [|done].
      destruct origin_cases as [E|[_ ?]]; [|done].
      rewrite E in Hin. by apply elem_of_nil in Hin.
    + intros [Hin|Hin%elem_of_trim_inv]%elem_of_app; [|done].
      by apply basePath_units in Hin as [? _].
  - (* no carriage return at the end *)
    unfold rewriteLine.
    destruct (negb (truthy (trim line)) || startsWith (lit "http") (trim line)
              || startsWith (lit "blob:") (trim line)) eqn:E1; [done|].
    apply orb_false_iff in E1 as [E1 _]. apply orb_false_iff in E1 as [E1 _].
    apply negb_false_iff in E1.
    assert (trim line <> []) as Hne by (by destruct (trim line)).
    pose proof (trimmed_not_CR _ (trim_trimmed line)) as Ht.
    destruct (startsWith (lit "#") (trim line)).
    { destruct (includes URI_ATTR (trim line)); [|done].
      unfold endsWithCR in *. by rewrite last_replaceURI. }
    destruct (startsWith (lit "/") (trim line)).
    + destruct (truthy (origin URL_origin baseUrl)); [|done].
      by rewrite endsWithCR_app.
    + by rewrite endsWithCR_app.
  - (* rewriting again changes nothing *)
    set (o := rewriteLine URL_origin baseUrl line).
    pose proof (eq_refl : o = rewriteLine URL_origin baseUrl line) as Ho.
    unfold rewriteLine in Ho.
    destruct (negb (truthy (trim line)) || startsWith (lit "http") (trim line)
              || startsWith (lit "blob:") (trim line)) eqn:E1.
    { rewrite Ho. by apply rewriteLine_passedThrough. }
    pose proof E1 as E1'.
    apply orb_false_iff in E1 as [E1 _]. apply orb_false_iff in E1 as [E1 _].
    apply negb_false_iff in E1.
    assert (trim line <> []) as Hne by (by destruct (trim line)).
    destruct (startsWith (lit "#") (trim line)) eqn:E2.
    { destruct (includes URI_ATTR (trim line)) eqn:E3.
      - assert (startsWith (lit "#") (trim (replaceURI baseUrl line)) = true) as Htag.
        { rewrite startsWith_hash_trim, trimStart_replaceURI, startsWith_replaceURI.
          - by rewrite <- startsWith_hash_trim.
          - by intros ?%includes_elem. }
        rewrite Ho. unfold rewriteLine.
        destruct (negb (truthy (trim (replaceURI baseUrl line)))
                  || startsWith (lit "http") (trim (replaceURI baseUrl line))
                  || startsWith (lit "blob:") (trim (replaceURI baseUrl line))); [done|].
        rewrite Htag.
        destruct (includes URI_ATTR (trim (replaceURI baseUrl line))); [|done].
        apply replaceURI_idem.
        + rewrite Hb. apply startsWith_app.
        + intros Hin. by apply basePath_units in Hin as (_ & ? & _).
      - rewrite Ho. unfold rewriteLine. by rewrite E1', E2, E3. }
    destruct (startsWith (lit "/") (trim line)) eqn:E4.
    + destruct origin_cases as [Ho'|[[ro Ho'] _]]; rewrite Ho' in Ho.
      * simpl in Ho. rewrite Ho. unfold rewriteLine.
        rewrite trim_idem, E1', E2, E4, Ho'. done.
      * change (truthy (lit "http" ++ ro)) with true in Ho. cbv iota in Ho.
        rewrite Ho. apply http_prefixed_passed; [apply trim_trimmed|done].
    + rewrite Ho, Hb. apply http_prefixed_passed; [apply trim_trimmed|done].
Qed.

Lemma processLine_stable processed o :
  stable o -> processLine env URL_origin baseUrl false processed o = o :: processed.
Proof.
  intros (_ & _ & Hd & Hr). unfold processLine. simpl.
  unfold isDiscontinuity in Hd. by rewrite Hd, Hr.
Qed.

Lemma processLines_stable lines processed :
  Forall stable lines ->
  fold_left (processLine env URL_origin baseUrl false) lines processed
  = rev lines ++ processed.
Proof.
  intros H. revert processed. induction H as [|o lines Ho _ IH]; intros processed; [done|].
  simpl. rewrite processLine_stable by done. rewrite IH, <- app_assoc. done.
Qed.

Lemma processLines_aggressive_stable lines processed :
  Forall (fun l => (10 ∉ l) /\ endsWithCR l = false) lines ->
  Forall stable processed ->
  Forall stable (fold_left (processLine env URL_origin baseUrl false) lines processed).
Proof.
  intros H. revert processed. induction H as [|l lines [Hlf Hcr] _ IH]; intros processed Hp;
    simpl; [done|].
  apply IH.
  destruct (processLine_cases env URL_origin baseUrl false processed l)
    as [(? & _)|[(_ & _ & ->)|(_ & Hd & ->)]]; [done|done|].
  constructor; [|done]. apply rewriteLine_stable; [done|done|by apply Hd].
Qed.

End RewriteTwice.

(** ** The lines of the returned text *)

Section TextLines.

Variable env : jsstring.
Variable URL_origin : jsstring -> option jsstring.
Variable baseUrl : jsstring.

Implicit Types (line l t : jsstring).

Hypothesis basePath_no_lf : 10 ∉ basePath baseUrl.
Hypothesis origin_no_lf : 10 ∉ origin URL_origin baseUrl.

Lemma rewriteLine_no_lf line :
  10 ∉ line -> 10 ∉ rewriteLine URL_origin baseUrl line.
Proof.
  intros Hlf.
  destruct (rewriteLine_cases URL_origin baseUrl line) as [->|[->|[->| ->]]]; [done|..].
  - by intros [?|?]%elem_of_replaceURI.
  - by intros [?|?%elem_of_trim_inv]%elem_of_app.
  - by intros [?|?%elem_of_trim_inv]%elem_of_app.
Qed.

Lemma processedLines_no_lf content :
  Forall (fun l => 10 ∉ l) (processedLines env URL_origin content baseUrl).
Proof.
  eapply Forall_sublist; [apply processedLines_sublist|].
  apply Forall_forall. intros o Ho.
  apply list_elem_of_In, in_map_iff in Ho as (l & <- & Hl).
  apply rewriteLine_no_lf. eapply split_lines_no_lf. by apply list_elem_of_In.
Qed.

(** The returned text read line by line is [processedLines], each line
    up to a carriage return at its end, unless the text is empty. *)
Lemma filterM3u8Ad_lines content :
  Forall2 lineOfText (split_lines (filterM3u8Ad env URL_origin content baseUrl))
    (processedLines env URL_origin content baseUrl) \/
  filterM3u8Ad env URL_origin content baseUrl = [].
Proof.
  unfold filterM3u8Ad. destruct (truthy content); [|by right]. simpl.
  destruct (processedLines env URL_origin content baseUrl) as [|l P] eqn:E; [by right|].
  left. apply split_lines_join_text; [done|].
  rewrite <- E. apply processedLines_no_lf.
Qed.

Lemma isDiscontinuity_lineOfText t l :
  lineOfText t l -> isDiscontinuity t = isDiscontinuity l.
Proof.
  intros [->| ->]; [done|]. unfold isDiscontinuity.
  pose proof (trim_ws_frame [] t [13]) as H. simpl in H.
  rewrite H; [done|constructor|by repeat constructor].
Qed.

Lemma filterM3u8Ad_lines_length content :
  (length (split_lines (filterM3u8Ad env URL_origin content baseUrl))
   <= length (split_lines content))%nat.
Proof.
  destruct (filterM3u8Ad_lines content) as [H| ->].
  - rewrite (Forall2_length _ _ _ H).
    rewrite <- (length_map (rewriteLine URL_origin baseUrl) (split_lines content)).
    apply sublist_length, processedLines_sublist.
  - pose proof (split_lines_nonempty content).
    destruct (split_lines content); [done|]. simpl. lia.
Qed.

Lemma filterM3u8Ad_lines_discontinuity content t :
  (forall o, o ∈ processedLines env URL_origin content baseUrl ->
             isDiscontinuity o = false) ->
  t ∈ split_lines (filterM3u8Ad env URL_origin content baseUrl) ->
  isDiscontinuity t = false.
Proof.
  intros Hout Ht. destruct (filterM3u8Ad_lines content) as [H|E].
  - destruct (Forall2_elem_of_left _ _ _ _ H Ht) as (l & Hl & Hrel).
    rewrite (isDiscontinuity_lineOfText _ _ Hrel). by apply Hout.
  - rewrite E in Ht. by apply list_elem_of_singleton in Ht as ->.
Qed.

Lemma trim_lineOfText t l : lineOfText t l -> trim t = trim l.
Proof.
  intros [->| ->]; [done|].
  pose proof (trim_ws_frame [] t [13]) as H. simpl in H.
  rewrite H; [done|constructor|by repeat constructor].
Qed.

Lemma durationsFollowed_lineOfText (T P : list jsstring) :
  Forall2 lineOfText T P -> durationsFollowed P = true -> durationsFollowed T = true.
Proof.
  induction 1 as [|t l T P Htl HTP IH]; [done|]. simpl.
  intros [Hl HP]%andb_true_iff. rewrite IH by done. rewrite andb_true_r.
  unfold isDuration in *. rewrite (trim_lineOfText t l Htl).
  destruct (startsWith EXTINF (trim l)); [|done].
  destruct HTP as [|t' l' T' P' Htl' _]; [done|].
  unfold isPlayable in *. by rewrite (trim_lineOfText t' l' Htl').
Qed.

Lemma filterM3u8Ad_lines_followed content :
  durationsFollowed (processedLines env URL_origin content baseUrl) = true ->
  durationsFollowed (split_lines (filterM3u8Ad env URL_origin content baseUrl)) = true.
Proof.
  intros HP. destruct (filterM3u8Ad_lines content) as [H| ->].
  - by eapply durationsFollowed_lineOfText.
  - done.
Qed.

End TextLines.

(** ** The references of a master without renditions *)

Section MasterFacts.

Variable lines : list jsstring.

Hypothesis no_rendition : Forall (fun l => hasRendition l = false) lines.

Lemma childOf_variant index line :
  lines !! index = Some line ->
  childOf lines index line
  = if relativeVariantAt lines index then Some (VariantUri (trim line)) else None.
Proof.
  intros Hl.
  assert (hasRendition line = false) as Hr.
  { rewrite Forall_forall in no_rendition. apply no_rendition.
    by eapply list_elem_of_lookup_2. }
  unfold childOf. unfold hasRendition in Hr. rewrite Hr.
  destruct index as [|before]; [done|]. cbn [relativeVariantAt]. rewrite Hl.
  by destruct (lines !! before).
Qed.

Lemma childIndices_variants :
  childIndices lines = List.filter (relativeVariantAt lines) (seq 0 (length lines)).
Proof.
  unfold childIndices. apply filter_ext. intros index.
  destruct (lines !! index) as [line|] eqn:Hl.
  - rewrite childOf_variant by done. by destruct (relativeVariantAt lines index).
  - destruct index as [|before]; [done|]. cbn [relativeVariantAt]. rewrite Hl.
    by destruct (lines !! before).
Qed.

Lemma childSettles_variant URL_resolve fetchText masterSrc index line :
  lines !! index = Some line -> relativeVariantAt lines index = true ->
  childSettles URL_resolve fetchText masterSrc lines index
  = match URL_resolve (trim line) masterSrc with
    | Some absoluteUrl => bool_decide (is_Some (fetchText absoluteUrl))
    | None => false
    end.
Proof.
  intros Hl Hv. unfold childSettles. by rewrite Hl, childOf_variant, Hv.
Qed.

End MasterFacts.

Lemma stream_inf_included content index :
  relativeVariantAt (split_lines content) index = true ->
  includes STREAM_INF content = true.
Proof.
  destruct index as [|before]; [done|]. cbn [relativeVariantAt].
  destruct (split_lines content !! before) as [tag|] eqn:Htag; [|done].
  destruct (split_lines content !! S before); [|done].
  intros [[[Hinf _]%andb_true_iff _]%andb_true_iff _]%andb_true_iff.
  apply list_elem_of_lookup_2, split_lines_part in Htag as (a & b & ->).
  destruct (trim_decomp tag) as (a' & b' & Htag & _).
  apply startsWith_inv in Hinf as (r & Hr). rewrite Htag, Hr.
  apply includes_spec. exists (a ++ a'), (r ++ b' ++ b). by rewrite <- !app_assoc.
Qed.

(** * The claims *)

(** C1. With the keyword [/adjump/] (the built-in default, or configured),
    the scenario playlist is rewritten to the two content segments, for
    any base URL. In general a line that matches a keyword is not pushed
    and the step is the backtrack, which pops the lines on top of the
    output that are duration or discontinuity tags and stops at the first
    line that is neither. *)
Theorem C1_ad_line_and_backtrack :
  (forall URL_origin baseUrl,
     filterM3u8Ad [] URL_origin scenario_input baseUrl = scenario_output /\
     filterM3u8Ad (lit "/adjump/") URL_origin scenario_input baseUrl = scenario_output) /\
  (forall env URL_origin baseUrl processed line,
     matchesKeyword env (trim line) = true ->
     processLine env URL_origin baseUrl true processed line = backtrack processed) /\
  (forall popped l rest,
     Forall (fun m => isMetadata (trim m) = true) popped ->
     isMetadata (trim l) = false ->
     backtrack (popped ++ l :: rest) = l :: rest) /\
  (forall popped,
     Forall (fun m => isMetadata (trim m) = true) popped -> backtrack popped = []).
Proof.
  split; [|split; [|split]].
  - intros URL_origin baseUrl. split; vm_compute; reflexivity.
  - intros. by apply processLine_ad.
  - intros popped l rest Hp Hl. rewrite backtrack_popped by done.
    by apply backtrack_stop.
  - intros popped Hp. rewrite <- (app_nil_r popped). by rewrite backtrack_popped.
Qed.

Lemma C1_ad_line_and_backtrack_witness :
  processLine [] simple_origin (lit "http://h/i.m3u8") true
    [lit "#EXTINF:3"; lit "#EXT-X-DISCONTINUITY"; lit "http://h/a.ts"; lit "#EXTINF:5"]
    (lit "http://h/adjump/x.ts")
  = backtrack [lit "#EXTINF:3"; lit "#EXT-X-DISCONTINUITY"; lit "http://h/a.ts"; lit "#EXTINF:5"] /\
  backtrack ([lit "#EXTINF:3"; lit "#EXT-X-DISCONTINUITY"] ++ lit "http://h/a.ts" :: [lit "#EXTINF:5"])
  = lit "http://h/a.ts" :: [lit "#EXTINF:5"] /\
  backtrack [lit "#EXTINF:3"; lit "#EXT-X-DISCONTINUITY"] = [].
Proof.
  destruct C1_ad_line_and_backtrack as (_ & Had & Hstop & Hall).
  split; [|split].
  - apply Had. reflexivity.
  - apply Hstop; [repeat constructor|reflexivity].
  - apply Hall. repeat constructor.
Defined.

(** C2, as stated, fails: with the keyword [DISCONTINUITY] configured,
    the discontinuity tag holds a keyword and is removed as an ad line,
    although no backtrack reaches it. *)
Lemma C2_keyword_in_the_tag : ~ hybrid_policy (lit "DISCONTINUITY") simple_origin.
Proof.
  intros H.
  destruct (H (lit (nl "#EXT-X-DISCONTINUITY" "http://h/a.ts")) (lit "http://h/i.m3u8"))
    as [_ H2].
  destruct (H2 (ex_intro _ (lit "#EXT-X-DISCONTINUITY") (conj (list_elem_of_here _ _) eq_refl))
              [] (lit "#EXT-X-DISCONTINUITY") [lit "http://h/a.ts"] eq_refl eq_refl eq_refl)
    as [after Hafter].
  vm_compute in Hafter. discriminate.
Qed.

(** C2, amended. If no line holds a keyword, no line of the output is a
    discontinuity tag, in the array [processedLines] and, when the base
    path and the origin hold no line feed, in the returned text read line
    by line. If some line holds a keyword, a discontinuity tag that holds
    no keyword itself, and that is not reached by the backtrack of an ad
    line after it, stays in the output where it was pushed, right after
    the output of the lines before it. The tags that such a backtrack
    reaches are the ones removed: the output is then made from what the
    backtrack leaves of the lines before the tag. *)
Theorem C2_hybrid_discontinuity_policy (env : jsstring)
    (URL_origin : jsstring -> option jsstring) (content baseUrl : jsstring) :
  ((forall l, l ∈ split_lines content -> matchesKeyword env l = false) ->
   (forall o, o ∈ processedLines env URL_origin content baseUrl ->
              isDiscontinuity o = false) /\
   ((10 ∉ basePath baseUrl) -> (10 ∉ origin URL_origin baseUrl) ->
    forall t, t ∈ split_lines (filterM3u8Ad env URL_origin content baseUrl) ->
              isDiscontinuity t = false)) /\
  ((exists l, l ∈ split_lines content /\ matchesKeyword env l = true) ->
   forall pre d post,
     split_lines content = pre ++ d :: post ->
     isDiscontinuity d = true ->
     matchesKeyword env d = false ->
     (reachedByBacktrack env URL_origin baseUrl post = false ->
      exists after,
        processedLines env URL_origin content baseUrl
        = rev (processLines env URL_origin baseUrl true pre) ++ d :: after) /\
     (reachedByBacktrack env URL_origin baseUrl post = true ->
      exists rest,
        rest `suffix_of` post /\
        processedLines env URL_origin content baseUrl
        = rev (fold_left (processLine env URL_origin baseUrl true) rest
                 (backtrack (processLines env URL_origin baseUrl true pre))))).
Proof.
  split.
  - intros Hfree.
    assert (forall o, o ∈ processedLines env URL_origin content baseUrl ->
                      isDiscontinuity o = false) as Harray.
    { intros o Ho.
      assert (hasAdMatch env content = false) as Hagg.
      { destruct (hasAdMatch env content) eqn:E; [|done].
        apply hasAdMatch_spec in E as (l & Hl & Hk).
        rewrite matchesKeyword_trim, Hfree in Hk by done. done. }
      unfold processedLines, processLines in Ho. rewrite Hagg, elem_of_rev in Ho.
      pose proof (processLines_aggressive env URL_origin baseUrl (split_lines content) []
                    (Forall_nil_2 _)) as H.
      rewrite Forall_forall in H. by apply H. }
    split; [done|]. intros Hb Ho t Ht.
    by eapply filterM3u8Ad_lines_discontinuity.
  - intros (l & Hl & Hk) pre d post Hsplit Hd Hkd.
    assert (hasAdMatch env content = true) as Hsmart.
    { apply hasAdMatch_spec. exists l. by rewrite matchesKeyword_trim. }
    unfold processedLines. rewrite Hsmart, Hsplit. split; intros Hr.
    + by apply processLines_discontinuity_kept.
    + destruct (processLines_discontinuity_popped env URL_origin baseUrl pre d post Hd Hkd Hr)
        as (rest & Hsuf & ->).
      by exists rest.
Qed.

Lemma C2_hybrid_discontinuity_policy_witness :
  (forall o, o ∈ processedLines [] simple_origin
                   (lit (nl "#EXT-X-DISCONTINUITY" "http://h/a.ts")) (lit "http://h/i.m3u8") ->
             isDiscontinuity o = false) /\
  (forall t, t ∈ split_lines (filterM3u8Ad [] simple_origin
                   (lit (nl "#EXT-X-DISCONTINUITY" "http://h/a.ts")) (lit "http://h/i.m3u8")) ->
             isDiscontinuity t = false) /\
  (exists after,
     processedLines [] simple_origin discontinuity_example (lit "http://h/i.m3u8")
     = rev (processLines [] simple_origin (lit "http://h/i.m3u8") true
              [lit "#EXTINF:5"; lit "http://h/a.ts"])
       ++ lit "#EXT-X-DISCONTINUITY" :: after) /\
  (exists rest,
     rest `suffix_of` [lit "#EXTINF:3"; lit "http://h/adjump/x.ts"] /\
     processedLines [] simple_origin discontinuity_example (lit "http://h/i.m3u8")
     = rev (fold_left (processLine [] simple_origin (lit "http://h/i.m3u8") true) rest
              (backtrack (processLines [] simple_origin (lit "http://h/i.m3u8") true
                            [lit "#EXTINF:5"; lit "http://h/a.ts"; lit "#EXT-X-DISCONTINUITY";
                             lit "#EXTINF:5"; lit "http://h/b.ts"])))).
Proof.
  assert (exists l, l ∈ split_lines discontinuity_example /\ matchesKeyword [] l = true) as Had.
  { exists (lit "http://h/adjump/x.ts"). split; [|reflexivity].
    vm_compute. do 7 right. left. }
  assert (forall l, l ∈ split_lines (lit (nl "#EXT-X-DISCONTINUITY" "http://h/a.ts")) ->
                    matchesKeyword [] l = false) as Hfree.
  { intros l Hl. vm_compute in Hl.
    repeat (apply elem_of_cons in Hl as [->|Hl]; [reflexivity|]).
    by apply elem_of_nil in Hl. }
  split; [|split; [|split]].
  - exact (proj1 (proj1 (C2_hybrid_discontinuity_policy [] simple_origin
                    (lit (nl "#EXT-X-DISCONTINUITY" "http://h/a.ts")) (lit "http://h/i.m3u8"))
             Hfree)).
  - apply (proj2 (proj1 (C2_hybrid_discontinuity_policy [] simple_origin
                    (lit (nl "#EXT-X-DISCONTINUITY" "http://h/a.ts")) (lit "http://h/i.m3u8"))
             Hfree)).
    + intros H. apply includes_elem in H. vm_compute in H. discriminate.
    + intros H. apply includes_elem in H. vm_compute in H. discriminate.
  - destruct (C2_hybrid_discontinuity_policy [] simple_origin
                discontinuity_example (lit "http://h/i.m3u8")) as [_ H].
    destruct (H Had [lit "#EXTINF:5"; lit "http://h/a.ts"] (lit "#EXT-X-DISCONTINUITY")
                [lit "#EXTINF:5"; lit "http://h/b.ts"; lit "#EXT-X-DISCONTINUITY";
                 lit "#EXTINF:3"; lit "http://h/adjump/x.ts"] eq_refl eq_refl eq_refl)
      as [Hkept _].
    apply Hkept. reflexivity.
  - destruct (C2_hybrid_discontinuity_policy [] simple_origin
                discontinuity_example (lit "http://h/i.m3u8")) as [_ H].
    destruct (H Had [lit "#EXTINF:5"; lit "http://h/a.ts"; lit "#EXT-X-DISCONTINUITY";
                     lit "#EXTINF:5"; lit "http://h/b.ts"] (lit "#EXT-X-DISCONTINUITY")
                [lit "#EXTINF:3"; lit "http://h/adjump/x.ts"] eq_refl eq_refl eq_refl)
      as [_ Hpopped].
    apply Hpopped. reflexivity.
Defined.

(** C3. With the base URL [http://cdn.example/path/master.m3u8], whose
    origin is [http://cdn.example], the relative segment [seg1.ts] becomes
    [http://cdn.example/path/seg1.ts] and the root-relative [/seg1.ts]
    becomes [http://cdn.example/seg1.ts]. A line that is blank or starts
    with [http] or [blob:] is left as it is by the rewriting step; the
    loop pushes it as it is unless it is removed as an ad line, and every
    such line of the input that is not an ad line stands unchanged in the
    output. *)
Theorem C3_url_rewriting (URL_origin : jsstring -> option jsstring) :
  URL_origin example_base = Some (lit "http://cdn.example") ->
  filterM3u8Ad [] URL_origin (lit "seg1.ts") example_base
    = lit "http://cdn.example/path/seg1.ts" /\
  filterM3u8Ad [] URL_origin (lit "/seg1.ts") example_base
    = lit "http://cdn.example/seg1.ts" /\
  (forall baseUrl line,
     passedThrough (trim line) = true ->
     rewriteLine URL_origin baseUrl line = line) /\
  (forall env baseUrl hasAd processed line,
     passedThrough (trim line) = true ->
     hasAd && matchesKeyword env (trim line) = false ->
     processLine env URL_origin baseUrl hasAd processed line = line :: processed) /\
  (forall env content baseUrl line,
     line ∈ split_lines content ->
     passedThrough (trim line) = true ->
     matchesKeyword env (trim line) = false ->
     line ∈ processedLines env URL_origin content baseUrl).
Proof.
  intros Horigin. split; [|split; [|split; [|split]]].
  - reflexivity.
  - unfold filterM3u8Ad, processedLines, processLines. simpl.
    unfold processLine, rewriteLine, origin. rewrite Horigin. reflexivity.
  - intros. by apply rewriteLine_passedThrough.
  - intros. by apply processLine_passedThrough.
  - intros env content baseUrl line Hin Hp Hk.
    unfold processedLines, processLines. rewrite elem_of_rev.
    apply processLines_passedThrough; [done|done|].
    rewrite Hk. by destruct (hasAdMatch env content).
Qed.

Lemma C3_url_rewriting_witness :
  filterM3u8Ad [] simple_origin (lit "seg1.ts") example_base
    = lit "http://cdn.example/path/seg1.ts" /\
  filterM3u8Ad [] simple_origin (lit "/seg1.ts") example_base
    = lit "http://cdn.example/seg1.ts" /\
  processLine [] simple_origin example_base false [] (lit "http://cdn.example/a.ts")
    = [lit "http://cdn.example/a.ts"] /\
  lit "blob:abc" ∈ processedLines [] simple_origin
    (lit (nl "#EXTM3U" (nl "blob:abc" "seg1.ts"))) example_base.
Proof.
  destruct (C3_url_rewriting simple_origin eq_refl) as (H1 & H2 & _ & H3 & H4).
  split; [exact H1|]. split; [exact H2|]. split.
  - apply H3; reflexivity.
  - apply H4; [|reflexivity|reflexivity]. right. left.
Defined.

(** C4, as stated, fails: the relative line [adjump/x.ts] holds no
    keyword; rewritten against [http://h/index.m3u8] it becomes
    [http://h/adjump/x.ts], which the second rewriting removes as an ad
    line. *)
Lemma C4_second_pass_removes_line : ~ rewriter_idempotent [] simple_origin.
Proof.
  intros H.
  specialize (H (lit "adjump/x.ts") (lit "http://h/index.m3u8")).
  assert (forall l, l ∈ split_lines (lit "adjump/x.ts") -> matchesKeyword [] l = false) as H1.
  { intros l Hl. vm_compute in Hl. apply list_elem_of_singleton in Hl as ->. reflexivity. }
  specialize (H H1 eq_refl). vm_compute in H. discriminate.
Qed.

(** A second way in which the rewriting is not idempotent: a line that
    ends with a carriage return before its line break keeps it in the
    first output and loses it in the second. *)
Lemma rewriter_drops_carriage_return :
  let x := lit "http://h/a.ts" ++ [13; 13; 10] ++ lit "http://h/b.ts" in
  let u := lit "http://h/index.m3u8" in
  (forall l, l ∈ split_lines x -> matchesKeyword [] l = false) /\
  filterM3u8Ad [] simple_origin x u = lit "http://h/a.ts" ++ [13; 10] ++ lit "http://h/b.ts" /\
  filterM3u8Ad [] simple_origin (filterM3u8Ad [] simple_origin x u) u
  = lit "http://h/a.ts" ++ [10] ++ lit "http://h/b.ts".
Proof.
  split; [|split; reflexivity].
  intros l Hl. vm_compute in Hl.
  repeat (apply elem_of_cons in Hl as [->|Hl]; [reflexivity|]).
  by apply elem_of_nil in Hl.
Qed.

(** C4, amended. Let no line of the playlist hold a keyword and none end
    with a carriage return, let the base URL be an absolute URL of the
    [http] or [https] scheme made of the units of a URL, its origin
    missing or of the same kind, and let no line of the rewritten
    playlist hold a keyword either. Then rewriting the rewritten playlist
    against the same base URL gives it back. *)
Theorem C4_rewriting_twice (env : jsstring)
    (URL_origin : jsstring -> option jsstring) (x u : jsstring) :
  (forall l, l ∈ split_lines x -> matchesKeyword env l = false) ->
  (forall l, l ∈ split_lines x -> endsWithCR l = false) ->
  (forall o, o ∈ processedLines env URL_origin x u -> matchesKeyword env o = false) ->
  httpUrl u = true ->
  httpOrigin (origin URL_origin u) = true ->
  filterM3u8Ad env URL_origin (filterM3u8Ad env URL_origin x u) u
  = filterM3u8Ad env URL_origin x u.
Proof.
  intros Hfree Hcr Hout Hu Ho. unfold filterM3u8Ad at 2 3.
  destruct (truthy x) eqn:Ex; [|done]. simpl.
  set (P := processedLines env URL_origin x u) in *.
  unfold filterM3u8Ad. destruct (truthy (join P)) eqn:Ej; [|by destruct (join P)].
  simpl. f_equal.
  assert (hasAdMatch env x = false) as Hagg.
  { destruct (hasAdMatch env x) eqn:E; [|done].
    apply hasAdMatch_spec in E as (l & Hl & Hk).
    rewrite matchesKeyword_trim, Hfree in Hk by done. done. }
  assert (Forall (stable URL_origin u) P) as Hstable.
  { unfold P, processedLines, processLines. rewrite Hagg. apply Forall_rev.
    apply processLines_aggressive_stable; [done|done| |done].
    apply Forall_forall. intros l Hl. split; [by eapply split_lines_no_lf|by apply Hcr]. }
  assert (split_lines (join P) = P) as Hsplit.
  { apply split_lines_join; [by destruct P|].
    eapply Forall_impl; [exact Hstable|]. by intros o (? & ? & _). }
  assert (hasAdMatch env (join P) = false) as Hagg'.
  { destruct (hasAdMatch env (join P)) eqn:E; [|done].
    apply hasAdMatch_spec in E as (l & Hl & Hk).
    rewrite Hsplit in Hl. rewrite matchesKeyword_trim, Hout in Hk by done. done. }
  unfold processedLines at 1, processLines. rewrite Hagg', Hsplit.
  rewrite processLines_stable by done. by rewrite app_nil_r, rev_involutive.
Qed.

Lemma C4_rewriting_twice_witness :
  filterM3u8Ad [] simple_origin (filterM3u8Ad [] simple_origin clean_example example_base)
    example_base
  = filterM3u8Ad [] simple_origin clean_example example_base.
Proof.
  apply (C4_rewriting_twice [] simple_origin clean_example example_base);
    try reflexivity.
  - intros l Hl. vm_compute in Hl.
    repeat (apply elem_of_cons in Hl as [->|Hl]; [reflexivity|]).
    by apply elem_of_nil in Hl.
  - intros l Hl. vm_compute in Hl.
    repeat (apply elem_of_cons in Hl as [->|Hl]; [reflexivity|]).
    by apply elem_of_nil in Hl.
  - intros o Ho. vm_compute in Ho.
    repeat (apply elem_of_cons in Ho as [->|Ho]; [reflexivity|]).
    by apply elem_of_nil in Ho.
Defined.

(** C5, as stated, fails: the playlist made of one duration tag is
    returned as it is, the tag followed by the end of the document. *)
Lemma C5_lone_duration_tag : ~ no_dangling_metadata [] simple_origin.
Proof.
  intros H. specialize (H (lit "#EXTINF:5") (lit "http://h/i.m3u8")).
  vm_compute in H. discriminate.
Qed.

(** Why the line after a duration tag has to be the line of its segment:
    with a blank line between the duration tag and an ad line the
    backtrack stops at the blank line, and the duration tag stays with
    nothing to play after it. *)
Lemma duration_tag_kept_before_blank_line :
  let x := lit (nl "#EXTINF:5" (nl "http://h/a.ts" "#EXTINF:3")) ++ [10; 10]
           ++ lit "http://h/adjump/x.ts" in
  filterM3u8Ad [] simple_origin x (lit "http://h/i.m3u8")
  = lit (nl "#EXTINF:5" (nl "http://h/a.ts" "#EXTINF:3")) ++ [10] /\
  durationsFollowed (split_lines x) = false /\
  noDangling (processedLines [] simple_origin x (lit "http://h/i.m3u8")) = false.
Proof. by vm_compute. Qed.

(** C5, amended. When every duration tag of the input is directly
    followed by the line of its segment (a line that is neither blank nor
    a tag, as the data model has it), and the base path and the origin do
    not begin with a number sign, the same holds of the output: every
    duration tag of the output is directly followed by a line that is
    neither blank nor a tag. So no duration tag is directly followed by
    another duration tag, by the end of the document (blank lines
    included) or by a discontinuity tag: the duration tag of a removed
    ad line is removed with it. When the base path and the origin hold
    no line feed, this is true of the returned text read line by line as
    well. *)
Theorem C5_durations_stay_followed (env : jsstring)
    (URL_origin : jsstring -> option jsstring) (content baseUrl : jsstring) :
  durationsFollowed (split_lines content) = true ->
  plainPrefix (basePath baseUrl) = true ->
  plainPrefix (origin URL_origin baseUrl) = true ->
  durationsFollowed (processedLines env URL_origin content baseUrl) = true /\
  noDangling (processedLines env URL_origin content baseUrl) = true /\
  ((10 ∉ basePath baseUrl) -> (10 ∉ origin URL_origin baseUrl) ->
   durationsFollowed (split_lines (filterM3u8Ad env URL_origin content baseUrl)) = true /\
   noDangling (split_lines (filterM3u8Ad env URL_origin content baseUrl)) = true).
Proof.
  intros Hin Hb Ho.
  assert (durationsFollowed (processedLines env URL_origin content baseUrl) = true) as H
    by (by apply processedLines_followed).
  split; [done|]. split; [by apply durationsFollowed_noDangling|].
  intros Hb' Ho'.
  assert (durationsFollowed (split_lines (filterM3u8Ad env URL_origin content baseUrl)) = true)
    as H' by (by apply filterM3u8Ad_lines_followed).
  split; [done|]. by apply durationsFollowed_noDangling.
Qed.

Lemma C5_durations_stay_followed_witness :
  durationsFollowed (processedLines [] simple_origin scenario_input (lit "http://h/i.m3u8")) = true /\
  noDangling (processedLines [] simple_origin scenario_input (lit "http://h/i.m3u8")) = true /\
  durationsFollowed
    (split_lines (filterM3u8Ad [] simple_origin scenario_input (lit "http://h/i.m3u8"))) = true /\
  noDangling
    (split_lines (filterM3u8Ad [] simple_origin scenario_input (lit "http://h/i.m3u8"))) = true.
Proof.
  destruct (C5_durations_stay_followed [] simple_origin scenario_input (lit "http://h/i.m3u8"))
    as (H1 & H2 & H3); try reflexivity.
  split; [exact H1|]. split; [exact H2|]. apply H3.
  - intros H. apply includes_elem in H. vm_compute in H. discriminate.
  - intros H. apply includes_elem in H. vm_compute in H. discriminate.
Defined.

(** C6. Four fatal network errors in a row, fed to the handler of a new
    session (network counter at zero, any media counter), give three
    [startLoad] calls, one per event while the counter is at most 3, then
    on the fourth event one network-failure report to the caller's
    [onError] and [destroy]. The media counter is another variable and
    keeps its value. Each single network event increments the network
    counter only and resumes loading exactly when the incremented counter
    is at most 3. *)
Theorem C6_network_recovery_bound (m : nat) (d1 d2 d3 d4 : option jsstring) :
  feed true {| networkErrorRetries := 0; mediaErrorRetries := m |}
    [networkFatal d1; networkFatal d2; networkFatal d3; networkFatal d4]
  = ({| networkErrorRetries := 4; mediaErrorRetries := m |},
     [StartLoad; StartLoad; StartLoad; OnError NetworkFailure; Destroy]) /\
  (forall r d,
     onErrorEvent true r (networkFatal d)
     = ({| networkErrorRetries := S (networkErrorRetries r);
           mediaErrorRetries := mediaErrorRetries r |},
        if (S (networkErrorRetries r) <=? 3)%nat then [StartLoad]
        else [OnError NetworkFailure; Destroy])).
Proof.
  split; [reflexivity|].
  intros r d. unfold onErrorEvent. simpl.
  by destruct (networkErrorRetries r <=? 2)%nat.
Qed.




(** C8. For a manifest or level request with filtering on, the callback
    that [load] installs calls the original success callback exactly
    once, whatever the rewriter does. The response reaches it unchanged
    when the body is not a string and when the rewriter throws (a warning
    comes first in that case); otherwise its body is the rewriter's
    result for the body and the URL of the callback's context, which for
    the loader of the source is [filterM3u8Ad] of the two. *)
Theorem C8_hook_error_containment (Stats NetworkDetails : Type)
    (filter : jsstring -> jsstring -> option jsstring)
    (requestContext : Context) (originalOnSuccess : Callback Stats NetworkDetails)
    (response : Response) (stats : Stats) (context : Context)
    (networkDetails : NetworkDetails) :
  context_type requestContext = manifest \/ context_type requestContext = level ->
  let installed := load Stats NetworkDetails filter true requestContext in
  (exists warnings response',
     installed originalOnSuccess response stats context networkDetails
     = warnings ++ originalOnSuccess response' stats context networkDetails /\
     Forall (fun e => e = ConsoleWarn Stats NetworkDetails) warnings /\
     installed engineOnSuccess response stats context networkDetails
     = warnings ++ [OriginalOnSuccess Stats NetworkDetails response' stats context networkDetails] /\
     length (List.filter (isOriginalCall Stats NetworkDetails)
               (installed engineOnSuccess response stats context networkDetails)) = 1%nat /\
     response' =
       match data response with
       | StringData s =>
           match filter s (context_url context) with
           | Some filtered =>
               {| response_url := response_url response; data := StringData filtered |}
           | None => response
           end
       | ArrayBufferData _ => response
       end) /\
  (forall env URL_origin s,
     data response = StringData s ->
     AdFilterLoader_load env URL_origin Stats NetworkDetails true requestContext
       engineOnSuccess response stats context networkDetails
     = [OriginalOnSuccess Stats NetworkDetails
          {| response_url := response_url response;
             data := StringData (filterM3u8Ad env URL_origin s (context_url context)) |}
          stats context networkDetails]).
Proof.
  intros Htype installed.
  assert (forall f, load Stats NetworkDetails f true requestContext
                    = wrappedOnSuccess Stats NetworkDetails f) as Hload.
  { intros f. unfold load. by destruct Htype as [-> | ->]. }
  split.
  - unfold installed. rewrite Hload. unfold wrappedOnSuccess, engineOnSuccess.
    destruct (data response) as [s|bytes] eqn:Ed.
    + destruct (filter s (context_url context)) as [filtered|] eqn:Ef.
      * exists [], {| response_url := response_url response; data := StringData filtered |}.
        repeat split; constructor.
      * exists [ConsoleWarn Stats NetworkDetails], response.
        repeat split; repeat constructor.
    + exists [], response. repeat split; constructor.
  - intros env URL_origin s Hs. unfold AdFilterLoader_load. rewrite Hload.
    unfold wrappedOnSuccess, engineOnSuccess. by rewrite Hs.
Qed.

Lemma C8_hook_error_containment_witness :
  exists warnings response',
    load unit unit (fun _ _ => None) true
      {| context_type := manifest; context_url := lit "http://h/i.m3u8" |}
      engineOnSuccess
      {| response_url := lit "http://h/i.m3u8"; data := StringData (lit "#EXTM3U") |}
      tt {| context_type := manifest; context_url := lit "http://h/i.m3u8" |} tt
    = warnings ++
      [OriginalOnSuccess unit unit response' tt
         {| context_type := manifest; context_url := lit "http://h/i.m3u8" |} tt] /\
    response' = {| response_url := lit "http://h/i.m3u8"; data := StringData (lit "#EXTM3U") |}.
Proof.
  destruct (C8_hook_error_containment unit unit (fun _ _ => None)
              {| context_type := manifest; context_url := lit "http://h/i.m3u8" |}
              engineOnSuccess
              {| response_url := lit "http://h/i.m3u8"; data := StringData (lit "#EXTM3U") |}
              tt {| context_type := manifest; context_url := lit "http://h/i.m3u8" |} tt
              (or_introl eq_refl))
    as [(warnings & response' & _ & _ & H & _ & Hr) _].
  exists warnings, response'. split; [exact H|exact Hr].
Defined.

(** C9. The array [processedLines] is got from the lines of the input by
    deleting some and rewriting the others one by one, the order kept:
    it is a sublist of the input lines as the rewriting step maps them,
    so it is no longer than the input, and the rewriting step returns the
    line itself, the line with its quoted URI attributes rewritten, or
    the trimmed line with the origin or the base path in front. When the
    base path and the origin hold no line feed, the same is true of the
    returned text read line by line: its lines are the elements of the
    array, each up to a carriage return at its end, and they are no more
    than the lines of the input. *)
Theorem C9_line_order_preserved (env : jsstring)
    (URL_origin : jsstring -> option jsstring) (content baseUrl : jsstring) :
  processedLines env URL_origin content baseUrl
    `sublist_of` List.map (rewriteLine URL_origin baseUrl) (split_lines content) /\
  (length (processedLines env URL_origin content baseUrl)
     <= length (split_lines content))%nat /\
  (forall line,
     rewriteLine URL_origin baseUrl line = line \/
     rewriteLine URL_origin baseUrl line = replaceURI baseUrl line \/
     rewriteLine URL_origin baseUrl line = origin URL_origin baseUrl ++ trim line \/
     rewriteLine URL_origin baseUrl line = basePath baseUrl ++ trim line) /\
  ((10 ∉ basePath baseUrl) -> (10 ∉ origin URL_origin baseUrl) ->
   (Forall2 lineOfText (split_lines (filterM3u8Ad env URL_origin content baseUrl))
      (processedLines env URL_origin content baseUrl) \/
    filterM3u8Ad env URL_origin content baseUrl = []) /\
   (length (split_lines (filterM3u8Ad env URL_origin content baseUrl))
      <= length (split_lines content))%nat).
Proof.
  split; [apply processedLines_sublist|]. split; [|split].
  - rewrite <- (length_map (rewriteLine URL_origin baseUrl) (split_lines content)).
    apply sublist_length, processedLines_sublist.
  - apply rewriteLine_cases.
  - intros Hb Ho. split.
    + by apply filterM3u8Ad_lines.
    + by apply filterM3u8Ad_lines_length.
Qed.

Lemma C9_line_order_preserved_witness :
  (Forall2 lineOfText
     (split_lines (filterM3u8Ad [] simple_origin scenario_input example_base))
     (processedLines [] simple_origin scenario_input example_base) \/
   filterM3u8Ad [] simple_origin scenario_input example_base = []) /\
  (length (split_lines (filterM3u8Ad [] simple_origin scenario_input example_base))
     <= length (split_lines scenario_input))%nat.
Proof.
  apply (C9_line_order_preserved [] simple_origin scenario_input example_base).
  - intros H. apply includes_elem in H. vm_compute in H. discriminate.
  - intros H. apply includes_elem in H. vm_compute in H. discriminate.
Defined.

(** C10, as stated, fails: with the default keyword the relative line
    [adjump/x.ts] holds no keyword, nor does the base path [http://h/],
    and the line of the output is [http://h/adjump/x.ts]. *)
Lemma C10_keyword_across_junction : ~ keyword_free_output [] simple_origin.
Proof.
  intros H.
  specialize (H (lit "adjump/x.ts") (lit "http://h/index.m3u8") eq_refl eq_refl
                (lit "http://h/adjump/x.ts")).
  assert (matchesKeyword [] (lit "http://h/adjump/x.ts") = false) as Hk.
  { apply H. vm_compute. by left. }
  vm_compute in Hk. discriminate.
Qed.

(** C10, amended. Every line of the output is what the rewriting step
    gives for a line of the input that holds no keyword, trimmed or not:
    a line of the input that holds a keyword is never pushed. So a line
    of the output that holds a keyword is not a line pushed as it was. *)
Theorem C10_output_from_keyword_free_lines (env : jsstring)
    (URL_origin : jsstring -> option jsstring) (content baseUrl o : jsstring) :
  o ∈ processedLines env URL_origin content baseUrl ->
  exists l, l ∈ split_lines content /\
            matchesKeyword env l = false /\ matchesKeyword env (trim l) = false /\
            o = rewriteLine URL_origin baseUrl l /\
            (matchesKeyword env o = true -> o <> l).
Proof.
  unfold processedLines, processLines. rewrite elem_of_rev. intros Ho.
  pose proof (processLines_origin env URL_origin baseUrl (hasAdMatch env content)
                (split_lines content) (split_lines content) []
                (fun E l Hl => hasAdMatch_false env content l E Hl)
                (reflexivity _) (Forall_nil_2 _)) as H.
  rewrite Forall_forall in H.
  destruct (H o Ho) as (l & Hl & Hk & ->).
  exists l. rewrite <- (matchesKeyword_trim env l). repeat split; try done.
  intros Ho' E. rewrite E, <- matchesKeyword_trim in Ho'. congruence.
Qed.

Lemma C10_output_from_keyword_free_lines_witness :
  exists l, l ∈ split_lines (lit (nl "#EXTINF:5" "seg1.ts")) /\
            matchesKeyword [] l = false /\ matchesKeyword [] (trim l) = false /\
            lit "http://h/seg1.ts" = rewriteLine simple_origin (lit "http://h/i.m3u8") l /\
            (matchesKeyword [] (lit "http://h/seg1.ts") = true -> lit "http://h/seg1.ts" <> l).
Proof.
  apply (C10_output_from_keyword_free_lines [] simple_origin
           (lit (nl "#EXTINF:5" "seg1.ts")) (lit "http://h/i.m3u8") (lit "http://h/seg1.ts")).
  vm_compute. right. left.
Defined.

(** * Further properties *)

(** ** The keyword setting *)

Section KeywordFacts.

Local Abbreviation all_ws := (Forall (fun c : N => is_ws c = true)).

Lemma split_list_units s p c : p ∈ split_list s -> c ∈ p -> c ∈ s /\ c <> 10 /\ c <> 44.
Proof.
  revert p. induction s as [|x s IH]; intros p; simpl.
  - intros ->%list_elem_of_singleton Hc. by apply elem_of_nil in Hc.
  - destruct ((x =? 10) || (x =? 44)) eqn:E.
    + intros [->|Hp]%elem_of_cons Hc; [by apply elem_of_nil in Hc|].
      destruct (IH p Hp Hc) as (? & ? & ?). split; [by right|done].
    + apply orb_false_iff in E as [E1%N.eqb_neq E2%N.eqb_neq].
      destruct (split_list s) as [|h t]; simpl.
      * intros ->%list_elem_of_singleton ->%list_elem_of_singleton.
        split; [by left|done].
      * intros [->|Hp]%elem_of_cons Hc.
        -- apply elem_of_cons in Hc as [->|Hc]; [split; [by left|done]|].
           destruct (IH h (list_elem_of_here _ _) Hc) as (? & ? & ?).
           split; [by right|done].
        -- destruct (IH p (list_elem_of_further _ _ _ Hp) Hc) as (? & ? & ?).
           split; [by right|done].
Qed.

Lemma split_list_plain k : (10 ∉ k) -> (44 ∉ k) -> split_list k = [k].
Proof.
  induction k as [|c k IH]; intros H10 H44; [done|]. simpl.
  apply not_elem_of_cons in H10 as [H10 H10'].
  apply not_elem_of_cons in H44 as [H44 H44'].
  apply not_eq_sym, N.eqb_neq in H10. apply not_eq_sym, N.eqb_neq in H44.
  rewrite H10, H44. simpl. by rewrite IH.
Qed.

Lemma split_list_app_comma k s :
  (10 ∉ k) -> (44 ∉ k) -> split_list (k ++ 44 :: s) = k :: split_list s.
Proof.
  induction k as [|c k IH]; intros H10 H44; [done|]. simpl.
  apply not_elem_of_cons in H10 as [H10 H10'].
  apply not_elem_of_cons in H44 as [H44 H44'].
  apply not_eq_sym, N.eqb_neq in H10. apply not_eq_sym, N.eqb_neq in H44.
  rewrite H10, H44. simpl. by rewrite IH.
Qed.

Lemma split_list_commaList ks :
  ks <> [] -> Forall plainKeyword ks -> split_list (commaList ks) = ks.
Proof.
  induction ks as [|k ks IH]; [done|]. intros _ Hks.
  apply Forall_cons in Hks as [(Hne & Ht & H10 & H44) Hks].
  destruct ks as [|k' ks]; [by apply split_list_plain|].
  change (commaList (k :: k' :: ks)) with (k ++ 44 :: commaList (k' :: ks)).
  rewrite split_list_app_comma by done. by rewrite IH.
Qed.

Lemma commaList_truthy k ks : k <> [] -> truthy (commaList (k :: ks)) = true.
Proof. intros Hk. destruct k; [done|]. by destruct ks. Qed.

Lemma blank_pieces_dropped (pieces : list jsstring) :
  Forall all_ws pieces -> List.filter truthy (List.map trim pieces) = [].
Proof.
  induction 1 as [|p pieces Hp _ IH]; [done|]. simpl.
  assert (trim p = []) as ->; [|done].
  unfold trim. rewrite (trimStart_all_ws p Hp). done.
Qed.

Lemma plain_pieces_kept (ks : list jsstring) :
  Forall plainKeyword ks -> List.filter truthy (List.map trim ks) = ks.
Proof.
  induction 1 as [|k ks (Hne & Ht & _) _ IH]; [done|]. simpl.
  rewrite (trimmed_trim k Ht), IH. by destruct k.
Qed.

End KeywordFacts.

(** X1. Whatever the setting holds, every keyword the rewriter works with
    is not empty, has nothing to strip at its ends and holds neither a
    line feed nor a comma. So an empty entry of the setting (two commas in
    a row, a comma at the end) never becomes a keyword that every line
    would hold, and a blank line is never an ad line. *)
Theorem X1_keywords_are_plain (env : jsstring) :
  (forall k, k ∈ keywords env -> plainKeyword k) /\
  (forall line, trim line = [] -> isAdLine env line = false).
Proof.
  assert (forall k, k ∈ keywords env -> plainKeyword k) as Hplain.
  { intros k Hk. destruct (keywords_wf env k Hk) as (Hne & Ht & H10).
    repeat split; try done; try apply Ht.
    revert Hk. unfold keywords. destruct (truthy env).
    - intros Hin H44. apply list_elem_of_In, filter_In in Hin as [Hin _].
      apply in_map_iff in Hin as (p & <- & Hp). apply list_elem_of_In in Hp.
      apply elem_of_trim_inv in H44.
      by destruct (split_list_units env p 44 Hp H44) as (_ & _ & ?).
    - intros ->%list_elem_of_singleton H44. apply includes_elem in H44. done. }
  split; [done|]. intros line Hline. unfold isAdLine. rewrite Hline.
  destruct (matchesKeyword env []) eqn:E; [|done].
  apply matchesKeyword_spec in E as (k & Hk & Hin).
  destruct (Hplain k Hk) as (Hne & _). destruct k; [done|]. done.
Qed.

(** X2. A setting that is not empty but holds only white space and commas
    gives no keyword at all: the built-in keyword is not used in its
    place, no line is an ad line and no document has an ad match. *)
Theorem X2_blank_setting_disables_matching (env : jsstring) :
  truthy env = true ->
  forallb blankUnit env = true ->
  keywords env = [] /\
  (forall line, isAdLine env line = false) /\
  (forall content, hasAdMatch env content = false).
Proof.
  intros Htruthy Hblank.
  assert (keywords env = []) as Hk.
  { unfold keywords. rewrite Htruthy. apply blank_pieces_dropped.
    apply Forall_forall. intros p Hp. apply Forall_forall. intros c Hc.
    destruct (split_list_units env p c Hp Hc) as (Hin & _ & H44).
    rewrite forallb_forall in Hblank. apply list_elem_of_In, Hblank in Hin.
    unfold blankUnit in Hin. apply orb_true_iff in Hin as [?|?%N.eqb_eq]; done. }
  split; [done|]. split.
  - intros line. unfold isAdLine, matchesKeyword. by rewrite Hk.
  - intros content. unfold hasAdMatch. by rewrite Hk.
Qed.

Lemma X2_blank_setting_disables_matching_witness :
  keywords (lit " , ") = [] /\
  (forall line, isAdLine (lit " , ") line = false) /\
  (forall content, hasAdMatch (lit " , ") content = false).
Proof.
  apply (X2_blank_setting_disables_matching (lit " , ")); reflexivity.
Defined.

(** X3. A setting written as keywords separated by commas, each of them
    not empty, without white space at its ends and without line feed or
    comma inside, is read back as exactly these keywords, in order. *)
Theorem X3_keywords_read_back (ks : list jsstring) :
  ks <> [] -> Forall plainKeyword ks -> keywords (commaList ks) = ks.
Proof.
  intros Hne Hks. unfold keywords. destruct ks as [|k ks]; [done|].
  rewrite commaList_truthy by (by apply Forall_cons in Hks as [(? & _) _]).
  rewrite split_list_commaList by done. by apply plain_pieces_kept.
Qed.

Lemma X3_keywords_read_back_witness :
  keywords (commaList [lit "/adjump/"; lit "/ad/"]) = [lit "/adjump/"; lit "/ad/"].
Proof.
  apply (X3_keywords_read_back [lit "/adjump/"; lit "/ad/"]); [done|].
  repeat constructor; try done;
    intros H; apply includes_elem in H; vm_compute in H; discriminate.
Defined.

(** ** The base path *)

Section BasePathFacts.

Lemma lastIndexOf_from_absent c s i acc :
  c ∉ s -> lastIndexOf_from c s i acc = acc.
Proof.
  revert i acc. induction s as [|x s IH]; intros i acc Hc; [done|]. simpl.
  apply not_elem_of_cons in Hc as [Hx Hc].
  apply not_eq_sym, N.eqb_neq in Hx. rewrite Hx. by apply IH.
Qed.

Lemma lastIndexOf_from_last c a r i acc :
  c ∉ r -> lastIndexOf_from c (a ++ c :: r) i acc = (i + Z.of_nat (length a))%Z.
Proof.
  intros Hr. revert i acc. induction a as [|x a IH]; intros i acc; simpl.
  - rewrite N.eqb_refl, lastIndexOf_from_absent by done. lia.
  - rewrite IH. lia.
Qed.

Lemma basePath_no_slash s : SLASH ∉ s -> basePath s = [].
Proof.
  intros Hs. unfold basePath, lastIndexOf, substring0.
  by rewrite lastIndexOf_from_absent.
Qed.

Lemma basePath_last_slash dir name :
  SLASH ∉ name -> basePath (dir ++ SLASH :: name) = dir ++ [SLASH].
Proof.
  intros Hn. unfold basePath, lastIndexOf, substring0.
  rewrite lastIndexOf_from_last by done.
  replace (Z.to_nat (0 + Z.of_nat (length dir) + 1)) with (length (dir ++ [SLASH]))
    by (rewrite length_app; simpl; lia).
  rewrite (cons_middle SLASH dir name), app_assoc. apply take_app_length.
Qed.

Lemma basePath_decomp s :
((SLASH ∉ s) /\ basePath s = []) \/
  (exists dir name, s = dir ++ SLASH :: name /\ (SLASH ∉ name) /\
                    basePath s = dir ++ [SLASH]).
Proof.
  destruct (decide (SLASH ∈ s)) as [Hin|Hout].
  - right. apply list_elem_of_split_r in Hin as (dir & name & -> & Hn).
    exists dir, name. split; [done|]. split; [done|]. by apply basePath_last_slash.
  - left. split; [done|]. by apply basePath_no_slash.
Qed.

End BasePathFacts.

(** X4. The base path is the base URL up to and including its last
    slash: what is left of the base URL after it holds no slash, and the
    base path is empty (when the base URL holds no slash) or ends with a
    slash. Taking the base path of a base path changes nothing. *)
Theorem X4_basePath_up_to_last_slash (baseUrl : jsstring) :
  exists name,
    baseUrl = basePath baseUrl ++ name /\
    (SLASH ∉ name) /\
    (basePath baseUrl = [] \/ exists dir, basePath baseUrl = dir ++ [SLASH]) /\
    basePath (basePath baseUrl) = basePath baseUrl.
Proof.
  destruct (basePath_decomp baseUrl) as [[Hout E]|(dir & name & -> & Hn & E)].
  - exists baseUrl. rewrite E. split; [done|]. split; [done|]. split; [by left|].
    apply basePath_no_slash, not_elem_of_nil.
  - exists name. rewrite E. split; [by rewrite <- app_assoc|]. split; [done|].
    split; [right; by exists dir|].
    apply (basePath_last_slash dir []), not_elem_of_nil.
Qed.

(** ** The loop in closed form *)

Section LoopFacts.

Variable env : jsstring.
Variable URL_origin : jsstring -> option jsstring.
Variable baseUrl : jsstring.

Lemma processLines_no_ad lines processed :
  fold_left (processLine env URL_origin baseUrl false) lines processed
  = rev (List.map (rewriteLine URL_origin baseUrl)
           (List.filter (fun l => negb (isDiscontinuity l)) lines)) ++ processed.
Proof.
  revert processed. induction lines as [|l lines IH]; intros processed; [done|].
  simpl. rewrite IH. unfold processLine at 1, isDiscontinuity at 2. simpl.
  destruct (str_eqb (trim l) DISCONTINUITY); simpl; [done|].
  by rewrite <- app_assoc.
Qed.

Lemma processLines_length hasAd lines processed :
  (length (fold_left (processLine env URL_origin baseUrl hasAd) lines processed)
   + length (List.filter (fun l => hasAd && isAdLine env l) lines)
   <= length lines + length processed)%nat.
Proof.
  revert processed. induction lines as [|l lines IH]; intros processed; simpl; [lia|].
  specialize (IH (processLine env URL_origin baseUrl hasAd processed l)).
  destruct (processLine_cases env URL_origin baseUrl hasAd processed l)
    as [(-> & Hk & E)|[(-> & Hd & E)|(Hk & Hd & E)]].
  - assert (isAdLine env l = true) as -> by exact Hk. simpl. rewrite E in IH |- *.
    pose proof (sublist_length _ _ (backtrack_sublist processed)). simpl in IH. lia.
  - rewrite E in IH |- *. simpl in IH |- *. lia.
  - rewrite E in IH |- *. simpl in IH.
    destruct (hasAd && isAdLine env l) eqn:Ea; simpl; [|lia].
    apply andb_true_iff in Ea as [-> Ea]. unfold isAdLine in Ea.
    rewrite Hk in Ea; done.
Qed.

Lemma hasAdMatch_lines content :
  hasAdMatch env content = existsb (isAdLine env) (split_lines content).
Proof.
  apply eq_true_iff_eq. rewrite hasAdMatch_spec, existsb_exists.
  split; intros (l & Hl & Hk); exists l; by rewrite ?list_elem_of_In in *.
Qed.

End LoopFacts.

Lemma split_lines_blank s : split_lines s = [[]] -> s = [].
Proof.
  induction s as [|s IH|s IH|c s Hc Hcr IH] using split_lines_ind; [done| | |].
  - rewrite split_lines_lf. intros [=H]. by apply split_lines_nonempty in H.
  - rewrite split_lines_crlf. intros [=H]. by apply split_lines_nonempty in H.
  - rewrite split_lines_unit by done.
    by destruct (split_lines s).
Qed.

(** X5. When the scan of the document finds no keyword, the loop is a
    filter followed by a map: the discontinuity tags are taken out of the
    lines and each line left is rewritten on its own. The returned text
    is these lines joined by line feeds, the empty document included. *)
Theorem X5_without_ad_match_filter_then_map (env : jsstring)
    (URL_origin : jsstring -> option jsstring) (content baseUrl : jsstring) :
  hasAdMatch env content = false ->
  processedLines env URL_origin content baseUrl
  = List.map (rewriteLine URL_origin baseUrl)
      (List.filter (fun l => negb (isDiscontinuity l)) (split_lines content)) /\
  filterM3u8Ad env URL_origin content baseUrl
  = join (List.map (rewriteLine URL_origin baseUrl)
            (List.filter (fun l => negb (isDiscontinuity l)) (split_lines content))).
Proof.
  intros Hno.
  assert (processedLines env URL_origin content baseUrl
          = List.map (rewriteLine URL_origin baseUrl)
              (List.filter (fun l => negb (isDiscontinuity l)) (split_lines content))) as E.
  { unfold processedLines, processLines. rewrite Hno, processLines_no_ad.
    by rewrite app_nil_r, rev_involutive. }
  split; [done|]. unfold filterM3u8Ad. destruct content as [|c content]; [done|].
  simpl negb. cbv iota. by rewrite E.
Qed.

Lemma X5_without_ad_match_filter_then_map_witness :
  processedLines [] simple_origin clean_example example_base
  = List.map (rewriteLine simple_origin example_base)
      (List.filter (fun l => negb (isDiscontinuity l)) (split_lines clean_example)) /\
  filterM3u8Ad [] simple_origin clean_example example_base
  = join (List.map (rewriteLine simple_origin example_base)
            (List.filter (fun l => negb (isDiscontinuity l)) (split_lines clean_example))).
Proof.
  apply (X5_without_ad_match_filter_then_map [] simple_origin clean_example example_base).
  reflexivity.
Defined.

(** X6. When the scan of the document finds a keyword, every ad line is
    left out and nothing is put in its place: the output has at most as
    many lines as the input has lines that are not ad lines, and so fewer
    lines than the input. *)
Theorem X6_ad_lines_are_left_out (env : jsstring)
    (URL_origin : jsstring -> option jsstring) (content baseUrl : jsstring) :
  hasAdMatch env content = true ->
  (length (processedLines env URL_origin content baseUrl)
   + length (List.filter (isAdLine env) (split_lines content))
   <= length (split_lines content))%nat /\
  (length (processedLines env URL_origin content baseUrl)
   < length (split_lines content))%nat.
Proof.
  intros Had.
  pose proof (processLines_length env URL_origin baseUrl true (split_lines content) []) as H.
  simpl in H. rewrite Nat.add_0_r in H.
  assert (length (processedLines env URL_origin content baseUrl)
          + length (List.filter (isAdLine env) (split_lines content))
          <= length (split_lines content))%nat as Hle.
  { unfold processedLines, processLines. by rewrite Had, length_rev. }
  split; [done|].
  apply hasAdMatch_spec in Had as (l & Hl & Hk).
  assert (l ∈ List.filter (isAdLine env) (split_lines content)) as Hin.
  { apply list_elem_of_In, filter_In. split; [by apply list_elem_of_In|done]. }
  destruct (List.filter (isAdLine env) (split_lines content)); [by apply elem_of_nil in Hin|].
  simpl in Hle. lia.
Qed.

Lemma X6_ad_lines_are_left_out_witness :
  (length (processedLines [] simple_origin scenario_input example_base)
   + length (List.filter (isAdLine []) (split_lines scenario_input))
   <= length (split_lines scenario_input))%nat /\
  (length (processedLines [] simple_origin scenario_input example_base)
   < length (split_lines scenario_input))%nat.
Proof.
  apply (X6_ad_lines_are_left_out [] simple_origin scenario_input example_base).
  reflexivity.
Defined.

(** X7. The scan of the whole document and the test of the loop agree:
    the document holds a keyword exactly when one of its lines, trimmed,
    holds a keyword. A keyword is never found across a line break or in
    the white space that the trimming strips. *)
Theorem X7_scan_agrees_with_line_test (env content : jsstring) :
  hasAdMatch env content = existsb (isAdLine env) (split_lines content).
Proof. apply hasAdMatch_lines. Qed.

(** X8. The rewriter reads the document through its lines only: two
    documents with the same lines, such as one with line feeds and one
    with carriage returns before the line feeds, give the same text. *)
Theorem X8_same_lines_same_output (env : jsstring)
    (URL_origin : jsstring -> option jsstring) (content1 content2 baseUrl : jsstring) :
  split_lines content1 = split_lines content2 ->
  filterM3u8Ad env URL_origin content1 baseUrl
  = filterM3u8Ad env URL_origin content2 baseUrl.
Proof.
  intros Hlines. unfold filterM3u8Ad, processedLines.
  rewrite !hasAdMatch_lines, Hlines.
  destruct content1 as [|c1 content1], content2 as [|c2 content2]; try done.
  - symmetry in Hlines. by apply split_lines_blank in Hlines.
  - by apply split_lines_blank in Hlines.
Qed.

Lemma X8_same_lines_same_output_witness :
  filterM3u8Ad [] simple_origin
    (lit "#EXTINF:5" ++ [13; 10] ++ lit "seg1.ts" ++ [13; 10] ++ lit "#EXT-X-ENDLIST")
    example_base
  = filterM3u8Ad [] simple_origin
      (lit (nl "#EXTINF:5" (nl "seg1.ts" "#EXT-X-ENDLIST"))) example_base.
Proof.
  apply (X8_same_lines_same_output [] simple_origin). vm_compute. reflexivity.
Defined.

(** ** The quoted URI attribute of a tag *)

Section AttributeFacts.

Variable baseUrl : jsstring.

Lemma replaceCallback_no_base uri :
  basePath baseUrl = [] -> replaceCallback baseUrl uri = URI_ATTR ++ uri ++ [QUOTE].
Proof. intros E. unfold replaceCallback. rewrite E. by destruct (_ || _). Qed.

Lemma replaceURI_no_base s : basePath baseUrl = [] -> replaceURI baseUrl s = s.
Proof.
  intros E. induction s as [|s uri rest Hm IH|c s Hm IH] using replaceURI_ind.
  - apply replaceURI_nil.
  - rewrite (replaceURI_match _ _ _ _ Hm), IH, replaceCallback_no_base by done.
    apply match_uri_Some in Hm as (-> & _). by rewrite <- !app_assoc.
  - by rewrite replaceURI_skip, IH.
Qed.

Lemma match_uri_not_attr s : startsWith URI_ATTR s = false -> match_uri s = None.
Proof. intros E. unfold match_uri. by rewrite E. Qed.

Lemma replaceURI_without_attr s :
  includes URI_ATTR s = false -> replaceURI baseUrl s = s.
Proof.
  induction s as [|c s IH]; [intros _; apply replaceURI_nil|].
  intros H.
  change (includes URI_ATTR (c :: s))
    with (startsWith URI_ATTR (c :: s) || includes URI_ATTR s) in H.
  apply orb_false_iff in H as [H1 H2].
  rewrite replaceURI_skip by (by apply match_uri_not_attr). by rewrite IH.
Qed.

Lemma attr_no_overlap p x :
  p <> [] -> startsWith URI_ATTR (p ++ URI_ATTR ++ x) = true ->
  startsWith URI_ATTR p = true.
Proof.
  intros Hp H. apply startsWith_inv in H as (r & H).
  apply startsWith_prefix. eval_lits. simpl in H.
  destruct p as [|c1 [|c2 [|c3 [|c4 [|c5 p]]]]]; simpl in H; try congruence.
  injection H as -> -> -> -> -> _. by exists p.
Qed.

Lemma replaceURI_first_attr pre uri rest :
  includes URI_ATTR pre = false -> uri <> [] -> QUOTE ∉ uri ->
  replaceURI baseUrl (pre ++ URI_ATTR ++ uri ++ QUOTE :: rest)
  = pre ++ replaceCallback baseUrl uri ++ replaceURI baseUrl rest.
Proof.
  intros Hpre Hne Hq. induction pre as [|c pre IH].
  - apply replaceURI_match, match_uri_Some. done.
  - change (includes URI_ATTR (c :: pre))
      with (startsWith URI_ATTR (c :: pre) || includes URI_ATTR pre) in Hpre.
    apply orb_false_iff in Hpre as [H1 H2].
    change ((c :: pre) ++ URI_ATTR ++ uri ++ QUOTE :: rest)
      with (c :: pre ++ URI_ATTR ++ uri ++ QUOTE :: rest).
    rewrite replaceURI_skip; [by rewrite IH|].
    apply match_uri_not_attr.
    destruct (startsWith URI_ATTR (c :: pre ++ URI_ATTR ++ uri ++ QUOTE :: rest)) eqn:E;
      [|done].
    apply (attr_no_overlap (c :: pre)) in E; [|done]. congruence.
Qed.

Lemma URI_ATTR_trimmed : URI_ATTR <> [] /\ trimmed URI_ATTR.
Proof. split; [done|]. by split. Qed.

Variable URL_origin : jsstring -> option jsstring.

Lemma rewriteLine_tag line :
  startsWith (lit "#") (trim line) = true ->
  rewriteLine URL_origin baseUrl line = replaceURI baseUrl line.
Proof.
  intros Htag. unfold rewriteLine. rewrite Htag.
  assert (negb (truthy (trim line)) || startsWith (lit "http") (trim line)
          || startsWith (lit "blob:") (trim line) = false) as ->.
  { apply startsWith_inv in Htag as (r & ->). reflexivity. }
  destruct (includes URI_ATTR (trim line)) eqn:E; [done|].
  symmetry. apply replaceURI_without_attr.
  destruct (includes URI_ATTR line) eqn:E'; [|done].
  apply includes_trim in E'; [congruence|apply URI_ATTR_trimmed..].
Qed.

Lemma replaceURI_tag line :
  startsWith (lit "#") (trim (replaceURI baseUrl line))
  = startsWith (lit "#") (trim line).
Proof.
  rewrite !startsWith_hash_trim, trimStart_replaceURI.
  apply startsWith_replaceURI. intros H. apply includes_elem in H. done.
Qed.

End AttributeFacts.

(** ** Lines that stay and lines that go *)

Section SurvivalFacts.

Variable env : jsstring.
Variable URL_origin : jsstring -> option jsstring.
Variable baseUrl : jsstring.

Lemma backtrack_idem processed : backtrack (backtrack processed) = backtrack processed.
Proof.
  destruct (backtrack processed) as [|l rest] eqn:E; [done|].
  apply backtrack_stop. by eapply backtrack_head.
Qed.

Lemma processedLines_images content o :
  o ∈ processedLines env URL_origin content baseUrl ->
  exists l, l ∈ split_lines content /\ o = rewriteLine URL_origin baseUrl l.
Proof.
  intros Ho.
  pose proof (Forall_sublist
                (fun o => exists l, l ∈ split_lines content /\
                                    o = rewriteLine URL_origin baseUrl l) _ _
                (processedLines_sublist env URL_origin content baseUrl)) as H.
  assert (Forall (fun o => exists l, l ∈ split_lines content /\
                                     o = rewriteLine URL_origin baseUrl l)
            (List.map (rewriteLine URL_origin baseUrl) (split_lines content))) as Hall.
  { apply Forall_forall. intros x Hx.
    apply list_elem_of_In, in_map_iff in Hx as (l & <- & Hl).
    exists l. by rewrite list_elem_of_In. }
  apply H in Hall. rewrite Forall_forall in Hall. by apply Hall.
Qed.

Lemma processLines_survives hasAd lines processed line :
  plainPrefix (basePath baseUrl) = true ->
  plainPrefix (origin URL_origin baseUrl) = true ->
  line ∈ lines -> isAdLine env line = false -> isMetadata (trim line) = false ->
  rewriteLine URL_origin baseUrl line
    ∈ fold_left (processLine env URL_origin baseUrl hasAd) lines processed.
Proof.
  intros Hb Ho Hin Had Hm. revert processed.
  induction lines as [|l lines IH]; intros processed; [by apply elem_of_nil in Hin|].
  simpl. apply elem_of_cons in Hin as [<-|Hin]; [|by apply IH].
  apply processLines_keeps; [by apply rewriteLine_not_metadata|].
  destruct (processLine_cases env URL_origin baseUrl hasAd processed line)
    as [(_ & Hk & _)|[(_ & Hd & _)|(_ & _ & ->)]].
  - unfold isAdLine in Had. congruence.
  - unfold isMetadata in Hm. rewrite Hd, orb_true_r in Hm. done.
  - by left.
Qed.

Lemma rewriteLine_branches line :
  (passedThrough (trim line) = true /\ rewriteLine URL_origin baseUrl line = line) \/
  (passedThrough (trim line) = false /\ startsWith (lit "#") (trim line) = true /\
   rewriteLine URL_origin baseUrl line = replaceURI baseUrl line) \/
  (passedThrough (trim line) = false /\ startsWith (lit "#") (trim line) = false /\
   startsWith (lit "/") (trim line) = true /\
   rewriteLine URL_origin baseUrl line
   = if truthy (origin URL_origin baseUrl)
     then origin URL_origin baseUrl ++ trim line else trim line) \/
  (passedThrough (trim line) = false /\ startsWith (lit "#") (trim line) = false /\
   startsWith (lit "/") (trim line) = false /\
   rewriteLine URL_origin baseUrl line = basePath baseUrl ++ trim line).
Proof.
  destruct (passedThrough (trim line)) eqn:Ep.
  { left. split; [done|]. by apply rewriteLine_passedThrough. }
  right. destruct (startsWith (lit "#") (trim line)) eqn:Etag.
  { left. split; [done|]. split; [done|]. by apply rewriteLine_tag. }
  right. unfold rewriteLine. unfold passedThrough in Ep. rewrite Ep, Etag.
  destruct (startsWith (lit "/") (trim line)); [left|right]; done.
Qed.

Lemma rewriteLine_playable line :
  startsWith (lit "http") (basePath baseUrl) = true ->
  startsWith (lit "http") (origin URL_origin baseUrl) = true ->
  isPlayable (rewriteLine URL_origin baseUrl line) = true ->
  startsWith (lit "http") (trim (rewriteLine URL_origin baseUrl line)) = true \/
  startsWith (lit "blob:") (trim (rewriteLine URL_origin baseUrl line)) = true.
Proof.
  intros Hb Ho.
  destruct (rewriteLine_branches line)
    as [(Hp & ->)|[(Hp & Htag & ->)|[(Hp & Htag & _ & ->)|(Hp & Htag & _ & ->)]]].
  - unfold isPlayable. intros [Et _]%andb_true_iff.
    unfold passedThrough in Hp. rewrite Et in Hp.
    apply orb_true_iff in Hp as [Hp|Hp]; [|by right].
    apply orb_true_iff in Hp as [Hp|Hp]; [done|by left].
  - unfold isPlayable. rewrite replaceURI_tag, Htag. by rewrite andb_false_r.
  - intros _. left.
    assert (trim line <> []) as Hne.
    { intros E. rewrite E in Hp. done. }
    apply startsWith_inv in Ho as (r & Er). rewrite Er.
    change (truthy (lit "http" ++ r)) with true. cbv iota.
    rewrite http_prefixed_trimmed by (done || apply trim_trimmed).
    rewrite <- app_assoc. apply startsWith_app.
  - intros _. left.
    assert (trim line <> []) as Hne.
    { intros E. rewrite E in Hp. done. }
    apply startsWith_inv in Hb as (r & Er). rewrite Er.
    rewrite http_prefixed_trimmed by (done || apply trim_trimmed).
    rewrite <- app_assoc. apply startsWith_app.
Qed.

End SurvivalFacts.

(** X9. With a base URL that holds no slash and that the URL parser
    refuses, nothing is put in front of anything: the quoted URI
    attributes are left as they are, a line is rewritten to itself or to
    itself trimmed, and so is every line of the output. *)
Theorem X9_base_without_slash (env : jsstring)
    (URL_origin : jsstring -> option jsstring) (content baseUrl : jsstring) :
  SLASH ∉ baseUrl ->
  URL_origin baseUrl = None ->
  (forall line, replaceURI baseUrl line = line) /\
  (forall line, rewriteLine URL_origin baseUrl line = line \/
                rewriteLine URL_origin baseUrl line = trim line) /\
  (forall o, o ∈ processedLines env URL_origin content baseUrl ->
             exists l, l ∈ split_lines content /\ (o = l \/ o = trim l)).
Proof.
  intros Hslash Horigin. apply basePath_no_slash in Hslash.
  assert (forall line, rewriteLine URL_origin baseUrl line = line \/
                       rewriteLine URL_origin baseUrl line = trim line) as Hline.
  { intros line.
    destruct (rewriteLine_cases URL_origin baseUrl line) as [E|[E|[E|E]]]; rewrite E.
    - by left.
    - left. by apply replaceURI_no_base.
    - right. unfold origin. by rewrite Horigin.
    - right. by rewrite Hslash. }
  split; [intros line; by apply replaceURI_no_base|]. split; [done|].
  intros o Ho. apply processedLines_images in Ho as (l & Hl & ->).
  exists l. split; [done|apply Hline].
Qed.

Lemma X9_base_without_slash_witness :
  (forall line, replaceURI (lit "playlist.m3u8") line = line) /\
  (forall line, rewriteLine simple_origin (lit "playlist.m3u8") line = line \/
                rewriteLine simple_origin (lit "playlist.m3u8") line = trim line) /\
  (forall o, o ∈ processedLines [] simple_origin clean_example (lit "playlist.m3u8") ->
             exists l, l ∈ split_lines clean_example /\ (o = l \/ o = trim l)).
Proof.
  apply (X9_base_without_slash [] simple_origin clean_example (lit "playlist.m3u8"));
    [|reflexivity].
  intros H. apply includes_elem in H. vm_compute in H. discriminate.
Defined.

(** X10. The global replace on a line rewrites the first quoted URI
    attribute and goes on after it: what stands before the attribute is
    kept, the attribute is kept when its value starts with [http] or with
    a slash and gets the base path in front of its value otherwise, and
    the rest of the line is treated in the same way. A line without the
    attribute is returned as it is. *)
Theorem X10_first_attribute_rewritten (baseUrl pre uri rest : jsstring) :
  includes URI_ATTR pre = false ->
  uri <> [] ->
  QUOTE ∉ uri ->
  replaceURI baseUrl (pre ++ URI_ATTR ++ uri ++ QUOTE :: rest)
  = pre ++ URI_ATTR
        ++ (if startsWith (lit "http") uri || startsWith (lit "/") uri
            then uri else basePath baseUrl ++ uri)
        ++ QUOTE :: replaceURI baseUrl rest /\
  replaceURI baseUrl pre = pre.
Proof.
  intros Hpre Hne Hq. split; [|by apply replaceURI_without_attr].
  rewrite replaceURI_first_attr by done. unfold replaceCallback.
  destruct (startsWith (lit "http") uri || startsWith (lit "/") uri);
    by rewrite <- !app_assoc.
Qed.

Lemma X10_first_attribute_rewritten_witness :
  replaceURI example_base
    (lit "#EXT-X-KEY:METHOD=AES-128," ++ URI_ATTR ++ lit "key.bin" ++ QUOTE :: lit ",IV=0x1")
  = lit "#EXT-X-KEY:METHOD=AES-128," ++ URI_ATTR
      ++ (if startsWith (lit "http") (lit "key.bin") || startsWith (lit "/") (lit "key.bin")
          then lit "key.bin" else basePath example_base ++ lit "key.bin")
      ++ QUOTE :: replaceURI example_base (lit ",IV=0x1") /\
  replaceURI example_base (lit "#EXT-X-KEY:METHOD=AES-128,")
  = lit "#EXT-X-KEY:METHOD=AES-128,".
Proof.
  apply (X10_first_attribute_rewritten example_base (lit "#EXT-X-KEY:METHOD=AES-128,")
           (lit "key.bin") (lit ",IV=0x1")); [reflexivity|done|].
  intros H. apply includes_elem in H. vm_compute in H. discriminate.
Defined.

(** X11. For a tag line (trimmed, it starts with the number sign) the
    rewriting is the global replace of the quoted URI attributes on the
    whole line, whether the test for the attribute finds it or not, and
    the result is a tag line again. With a base path that starts with
    [http] and holds no quote, rewriting the result once more changes
    nothing. *)
Theorem X11_tag_line_rewriting (URL_origin : jsstring -> option jsstring)
    (baseUrl line : jsstring) :
  startsWith (lit "#") (trim line) = true ->
  startsWith (lit "http") (basePath baseUrl) = true ->
  QUOTE ∉ basePath baseUrl ->
  rewriteLine URL_origin baseUrl line = replaceURI baseUrl line /\
  startsWith (lit "#") (trim (rewriteLine URL_origin baseUrl line)) = true /\
  rewriteLine URL_origin baseUrl (rewriteLine URL_origin baseUrl line)
  = rewriteLine URL_origin baseUrl line.
Proof.
  intros Htag Hb Hq.
  assert (rewriteLine URL_origin baseUrl line = replaceURI baseUrl line) as E
    by (by apply rewriteLine_tag).
  assert (startsWith (lit "#") (trim (replaceURI baseUrl line)) = true) as Htag'
    by (by rewrite replaceURI_tag).
  rewrite E. split; [done|]. split; [done|].
  rewrite rewriteLine_tag by done. by apply replaceURI_idem.
Qed.

Lemma X11_tag_line_rewriting_witness :
  let line := lit "#EXT-X-MAP:" ++ URI_ATTR ++ lit "init.mp4" ++ [QUOTE] in
  rewriteLine simple_origin example_base line = replaceURI example_base line /\
  startsWith (lit "#") (trim (rewriteLine simple_origin example_base line)) = true /\
  rewriteLine simple_origin example_base (rewriteLine simple_origin example_base line)
  = rewriteLine simple_origin example_base line.
Proof.
  apply (X11_tag_line_rewriting simple_origin example_base); [reflexivity|reflexivity|].
  intros H. apply includes_elem in H. vm_compute in H. discriminate.
Defined.

(** X12. A run of ad lines removes what its first line removes: after
    the backtrack of the first one the top of the output is no duration
    or discontinuity tag, so the backtracks of the following ad lines
    pop nothing. *)
Theorem X12_run_of_ad_lines (env : jsstring)
    (URL_origin : jsstring -> option jsstring) (baseUrl : jsstring)
    (ads processed : list jsstring) :
  ads <> [] ->
  Forall (fun a => isAdLine env a = true) ads ->
  fold_left (processLine env URL_origin baseUrl true) ads processed
  = backtrack processed.
Proof.
  intros Hne Hads. destruct ads as [|a ads]; [done|]. clear Hne.
  apply Forall_cons in Hads as [Ha Hads]. simpl.
  rewrite processLine_ad by exact Ha.
  induction Hads as [|b ads Hb _ IH]; [done|]. simpl.
  rewrite processLine_ad by exact Hb. by rewrite backtrack_idem.
Qed.

Lemma X12_run_of_ad_lines_witness :
  fold_left (processLine [] simple_origin example_base true)
    [lit "/adjump/1.ts"; lit "/adjump/2.ts"]
    [lit "#EXTINF:3"; lit "#EXT-X-DISCONTINUITY"; lit "http://h/a.ts"]
  = backtrack [lit "#EXTINF:3"; lit "#EXT-X-DISCONTINUITY"; lit "http://h/a.ts"].
Proof.
  apply (X12_run_of_ad_lines [] simple_origin example_base); [done|].
  repeat constructor.
Defined.

(** X13. Only ad lines, duration tags and discontinuity tags go missing:
    when the base path and the origin do not begin with a number sign,
    every other line of the input has its rewriting in the output. *)
Theorem X13_other_lines_survive (env : jsstring)
    (URL_origin : jsstring -> option jsstring) (content baseUrl line : jsstring) :
  plainPrefix (basePath baseUrl) = true ->
  plainPrefix (origin URL_origin baseUrl) = true ->
  line ∈ split_lines content ->
  isAdLine env line = false ->
  isDuration line = false ->
  isDiscontinuity line = false ->
  rewriteLine URL_origin baseUrl line ∈ processedLines env URL_origin content baseUrl.
Proof.
  intros Hb Ho Hin Had Hdur Hdisc. unfold processedLines, processLines.
  rewrite elem_of_rev. apply processLines_survives; try done.
  by rewrite isMetadata_trim, Hdur, Hdisc.
Qed.

Lemma X13_other_lines_survive_witness :
  rewriteLine simple_origin example_base (lit "seg1.ts")
    ∈ processedLines [] simple_origin clean_example example_base.
Proof.
  apply (X13_other_lines_survive [] simple_origin clean_example example_base (lit "seg1.ts"));
    try reflexivity.
  vm_compute. do 4 right. left.
Defined.

(** X14. With a base path and an origin that start with [http], every
    line of the output that names something to play (not blank, not a
    tag) starts, trimmed, with [http] or with [blob:]. Nothing is said
    of the tag lines: the quoted URI of a tag that starts with a slash is
    left as it is. *)
Theorem X14_playable_lines_are_absolute (env : jsstring)
    (URL_origin : jsstring -> option jsstring) (content baseUrl o : jsstring) :
  startsWith (lit "http") (basePath baseUrl) = true ->
  startsWith (lit "http") (origin URL_origin baseUrl) = true ->
  o ∈ processedLines env URL_origin content baseUrl ->
  isPlayable o = true ->
  startsWith (lit "http") (trim o) = true \/ startsWith (lit "blob:") (trim o) = true.
Proof.
  intros Hb Ho Hin Hplay. apply processedLines_images in Hin as (l & _ & ->).
  by apply rewriteLine_playable.
Qed.

Lemma X14_playable_lines_are_absolute_witness :
  startsWith (lit "http") (trim (lit "http://cdn.example/seg2.ts")) = true \/
  startsWith (lit "blob:") (trim (lit "http://cdn.example/seg2.ts")) = true.
Proof.
  apply (X14_playable_lines_are_absolute [] simple_origin clean_example example_base
           (lit "http://cdn.example/seg2.ts")); try reflexivity.
  vm_compute. do 4 right. left.
Defined.

(** ** The fatal-error handler *)

Section HandlerFacts.

Variable onError_given : bool.

Local Abbreviation onErrorEvent := (onErrorEvent onError_given).
Local Abbreviation feed := (feed onError_given).
Local Abbreviation report := (report onError_given).

Lemma feed_cons r data events :
  feed r (data :: events)
  = ((feed (onErrorEvent r data).1 events).1,
     (onErrorEvent r data).2 ++ (feed (onErrorEvent r data).1 events).2).
Proof.
  simpl. destruct (Player.onErrorEvent onError_given r data) as [r1 cmds1].
  simpl. by destruct (Player.feed onError_given r1 events).
Qed.

Lemma onErrorEvent_not_fatal r data :
  fatal data = false -> onErrorEvent r data = (r, []).
Proof. intros E. unfold Player.onErrorEvent. by rewrite E. Qed.

Lemma onErrorEvent_network r data :
  isFatalNetwork data = true ->
  onErrorEvent r data
  = ({| networkErrorRetries := S (networkErrorRetries r);
        mediaErrorRetries := mediaErrorRetries r |},
     if (S (networkErrorRetries r) <=? MAX_RETRIES)%nat then [StartLoad]
     else report NetworkFailure ++ [Destroy]).
Proof.
  unfold isFatalNetwork, Player.onErrorEvent. intros [-> Ht]%andb_true_iff.
  destruct (type data); try done. simpl.
  by destruct (networkErrorRetries r <=? 2)%nat.
Qed.

Lemma onErrorEvent_media r data :
  isFatalMedia data = true ->
  onErrorEvent r data
  = ({| networkErrorRetries := networkErrorRetries r;
        mediaErrorRetries := S (mediaErrorRetries r) |},
     if (S (mediaErrorRetries r) <=? MAX_RETRIES)%nat then [RecoverMediaError]
     else report MediaFailure ++ [Destroy]).
Proof.
  unfold isFatalMedia, Player.onErrorEvent. intros [-> Ht]%andb_true_iff.
  destruct (type data); try done. simpl.
  by destruct (mediaErrorRetries r <=? 2)%nat.
Qed.

Lemma onErrorEvent_other r data :
  fatal data = true -> isFatalNetwork data = false -> isFatalMedia data = false ->
  onErrorEvent r data = (r, report (FatalError (detailOf data)) ++ [Destroy]).
Proof.
  unfold isFatalNetwork, isFatalMedia, Player.onErrorEvent. intros -> Hn Hm.
  by destruct (type data).
Qed.

(** The classes of an event. *)
Lemma event_cases data :
  (isFatalNetwork data = false /\ isFatalMedia data = false /\ fatal data = false) \/
  (isFatalNetwork data = true /\ isFatalMedia data = false /\ fatal data = true) \/
  (isFatalNetwork data = false /\ isFatalMedia data = true /\ fatal data = true) \/
  (isFatalNetwork data = false /\ isFatalMedia data = false /\ fatal data = true).
Proof.
  unfold isFatalNetwork, isFatalMedia.
  destruct (fatal data); [right|by left]. destruct (type data); simpl; auto.
Qed.

Lemma min_succ_budget n k :
  (S k <= 3 -> S (Nat.min n (3 - S k)) = Nat.min (S n) (3 - k))%nat /\
  (3 < S k -> Nat.min n (3 - S k) = Nat.min (S n) (3 - k))%nat.
Proof. lia. Qed.

Lemma report_no_recovery m :
  List.filter isStartLoad (report m ++ [Destroy]) = [] /\
  List.filter isRecoverMediaError (report m ++ [Destroy]) = [].
Proof. unfold Player.report. by destruct onError_given. Qed.

Lemma concat_replicate_S {A} n (block : list A) :
  concat (replicate (S n) block) = block ++ concat (replicate n block).
Proof. done. Qed.

Lemma feed_network_only r ds :
  feed r (List.map networkFatal ds)
  = ({| networkErrorRetries := networkErrorRetries r + length ds;
        mediaErrorRetries := mediaErrorRetries r |},
     replicate (Nat.min (length ds) (MAX_RETRIES - networkErrorRetries r)) StartLoad
     ++ concat (replicate (length ds - (MAX_RETRIES - networkErrorRetries r))
                  (report NetworkFailure ++ [Destroy]))).
Proof.
  revert r. induction ds as [|d ds IH]; intros r.
  - simpl. rewrite Nat.add_0_r. by destruct r.
  - change (List.map networkFatal (d :: ds))
      with (networkFatal d :: List.map networkFatal ds).
    rewrite feed_cons, onErrorEvent_network by done. cbn [fst snd].
    rewrite IH. cbn [networkErrorRetries mediaErrorRetries length].
    unfold MAX_RETRIES. set (k := networkErrorRetries r).
    destruct (S k <=? 3)%nat eqn:E.
    + apply Nat.leb_le in E.
      replace (3 - k)%nat with (S (3 - S k)) by lia.
      rewrite <- Nat.succ_min_distr, Nat.sub_succ, Nat.add_succ_r. done.
    + apply Nat.leb_gt in E.
      replace (3 - k)%nat with 0%nat by lia.
      replace (3 - S k)%nat with 0%nat by lia.
      rewrite !Nat.min_0_r, !Nat.sub_0_r, concat_replicate_S, Nat.add_succ_r. done.
Qed.

Lemma feed_media_only r ds :
  feed r (List.map mediaFatal ds)
  = ({| networkErrorRetries := networkErrorRetries r;
        mediaErrorRetries := mediaErrorRetries r + length ds |},
     replicate (Nat.min (length ds) (MAX_RETRIES - mediaErrorRetries r)) RecoverMediaError
     ++ concat (replicate (length ds - (MAX_RETRIES - mediaErrorRetries r))
                  (report MediaFailure ++ [Destroy]))).
Proof.
  revert r. induction ds as [|d ds IH]; intros r.
  - simpl. rewrite Nat.add_0_r. by destruct r.
  - change (List.map mediaFatal (d :: ds))
      with (mediaFatal d :: List.map mediaFatal ds).
    rewrite feed_cons, onErrorEvent_media by done. cbn [fst snd].
    rewrite IH. cbn [networkErrorRetries mediaErrorRetries length].
    unfold MAX_RETRIES. set (k := mediaErrorRetries r).
    destruct (S k <=? 3)%nat eqn:E.
    + apply Nat.leb_le in E.
      replace (3 - k)%nat with (S (3 - S k)) by lia.
      rewrite <- Nat.succ_min_distr, Nat.sub_succ, Nat.add_succ_r. done.
    + apply Nat.leb_gt in E.
      replace (3 - k)%nat with 0%nat by lia.
      replace (3 - S k)%nat with 0%nat by lia.
      rewrite !Nat.min_0_r, !Nat.sub_0_r, concat_replicate_S, Nat.add_succ_r. done.
Qed.

End HandlerFacts.

Section HandlerFeeds.

Variable onError_given : bool.

Local Abbreviation onErrorEvent := (onErrorEvent onError_given).
Local Abbreviation feed := (feed onError_given).
Local Abbreviation report := (report onError_given).

Lemma feed_skips_not_fatal r events :
  feed r events = feed r (List.filter fatal events).
Proof.
  revert r. induction events as [|data events IH]; intros r; [done|].
  cbn [List.filter]. destruct (fatal data) eqn:E.
  - rewrite !feed_cons. by rewrite !IH.
  - rewrite feed_cons, onErrorEvent_not_fatal by done. cbn [fst snd app].
    rewrite <- IH. by destruct (feed r events).
Qed.

Lemma feed_counters r events :
  networkErrorRetries (feed r events).1
  = (networkErrorRetries r + length (List.filter isFatalNetwork events))%nat /\
  mediaErrorRetries (feed r events).1
  = (mediaErrorRetries r + length (List.filter isFatalMedia events))%nat.
Proof.
  revert r. induction events as [|data events IH]; intros r.
  - simpl. lia.
  - rewrite feed_cons. cbn [fst List.filter].
    destruct (IH (onErrorEvent r data).1) as [IHn IHm]. rewrite IHn, IHm.
    destruct (event_cases data)
      as [(En & Em & E)|[(En & Em & E)|[(En & Em & E)|(En & Em & E)]]];
      rewrite En, Em.
    + rewrite onErrorEvent_not_fatal by done. cbn [fst length]. lia.
    + rewrite onErrorEvent_network by done.
      cbn [fst length networkErrorRetries mediaErrorRetries]. lia.
    + rewrite onErrorEvent_media by done.
      cbn [fst length networkErrorRetries mediaErrorRetries]. lia.
    + rewrite onErrorEvent_other by done. cbn [fst length]. lia.
Qed.

Lemma feed_recoveries r events :
  length (List.filter isStartLoad (feed r events).2)
  = Nat.min (length (List.filter isFatalNetwork events))
      (MAX_RETRIES - networkErrorRetries r) /\
  length (List.filter isRecoverMediaError (feed r events).2)
  = Nat.min (length (List.filter isFatalMedia events))
      (MAX_RETRIES - mediaErrorRetries r).
Proof.
  revert r. induction events as [|data events IH]; intros r; [done|].
  rewrite feed_cons. cbn [snd List.filter]. rewrite !List.filter_app, !length_app.
  destruct (IH (onErrorEvent r data).1) as [IHn IHm]. rewrite IHn, IHm.
  unfold MAX_RETRIES.
  set (n := length (List.filter isFatalNetwork events)).
  set (m := length (List.filter isFatalMedia events)).
  destruct (event_cases data)
    as [(En & Em & E)|[(En & Em & E)|[(En & Em & E)|(En & Em & E)]]];
    rewrite En, Em.
  - rewrite onErrorEvent_not_fatal by done. cbn [fst snd List.filter length]. lia.
  - rewrite onErrorEvent_network by done.
    cbn [fst snd length networkErrorRetries mediaErrorRetries]. fold n.
    unfold MAX_RETRIES. set (k := networkErrorRetries r).
    destruct (min_succ_budget n k) as [Hle Hgt].
    destruct (S k <=? 3)%nat eqn:Eb.
    + apply Nat.leb_le in Eb. cbn [List.filter isStartLoad isRecoverMediaError length].
      rewrite <- Hle by done. lia.
    + apply Nat.leb_gt in Eb.
      destruct (report_no_recovery onError_given NetworkFailure) as [-> ->].
      cbn [length]. rewrite <- Hgt by done. lia.
  - rewrite onErrorEvent_media by done.
    cbn [fst snd length networkErrorRetries mediaErrorRetries]. fold m.
    unfold MAX_RETRIES. set (k := mediaErrorRetries r).
    destruct (min_succ_budget m k) as [Hle Hgt].
    destruct (S k <=? 3)%nat eqn:Eb.
    + apply Nat.leb_le in Eb. cbn [List.filter isStartLoad isRecoverMediaError length].
      rewrite <- Hle by done. lia.
    + apply Nat.leb_gt in Eb.
      destruct (report_no_recovery onError_given MediaFailure) as [-> ->].
      cbn [length]. rewrite <- Hgt by done. lia.
  - rewrite onErrorEvent_other by done. cbn [fst snd].
    destruct (report_no_recovery onError_given (FatalError (detailOf data))) as [-> ->].
    cbn [length]. lia.
Qed.

Lemma onErrorEvent_answer r data :
  fatal data = true -> isAnswer onError_given (onErrorEvent r data).2.
Proof.
  intros E.
  destruct (event_cases data)
    as [(_ & _ & E')|[(En & Em & _)|[(En & Em & _)|(En & Em & _)]]].
  - congruence.
  - rewrite onErrorEvent_network by done. cbn [snd].
    destruct (_ <=? _)%nat; [by left|]. right. right. by eexists.
  - rewrite onErrorEvent_media by done. cbn [snd].
    destruct (_ <=? _)%nat; [right; by left|]. right. right. by eexists.
  - rewrite onErrorEvent_other by done. right. right. by eexists.
Qed.

Lemma feed_answers r events :
  exists blocks,
    (feed r events).2 = concat blocks /\
    length blocks = length (List.filter fatal events) /\
    Forall (isAnswer onError_given) blocks.
Proof.
  revert r. induction events as [|data events IH]; intros r.
  - exists []. by repeat split.
  - rewrite feed_cons. cbn [snd List.filter].
    destruct (IH (onErrorEvent r data).1) as (blocks & -> & Hlen & Hall).
    destruct (fatal data) eqn:E.
    + exists ((onErrorEvent r data).2 :: blocks). split; [done|].
      split; [simpl; by rewrite Hlen|]. constructor; [|done].
      by apply onErrorEvent_answer.
    + exists blocks. rewrite onErrorEvent_not_fatal by done. by repeat split.
Qed.

End HandlerFeeds.

(** X15. Events that are not fatal are ignored: the handler run on a
    feed of events ends with the counters and gives the calls of the
    handler run on the fatal events of the feed alone. *)
Theorem X15_events_not_fatal_are_ignored (onError_given : bool) (r : Retries)
    (events : list ErrorData) :
  feed onError_given r events = feed onError_given r (List.filter fatal events).
Proof. apply feed_skips_not_fatal. Qed.

(** X16. Fatal errors of one class in a row, any number of them: the
    first ones are answered by the recovery call of the class until the
    counter of the class has passed 3, and each later one by the report
    of the class to the caller and [destroy]; the counter of the other
    class keeps its value. This holds for network errors ([startLoad])
    and for media errors ([recoverMediaError]) alike. *)
Theorem X16_recovery_budget_of_a_class (onError_given : bool) (r : Retries)
    (details : list (option jsstring)) :
  feed onError_given r (List.map networkFatal details)
  = ({| networkErrorRetries := networkErrorRetries r + length details;
        mediaErrorRetries := mediaErrorRetries r |},
     replicate (Nat.min (length details) (MAX_RETRIES - networkErrorRetries r)) StartLoad
     ++ concat (replicate (length details - (MAX_RETRIES - networkErrorRetries r))
                  (report onError_given NetworkFailure ++ [Destroy]))) /\
  feed onError_given r (List.map mediaFatal details)
  = ({| networkErrorRetries := networkErrorRetries r;
        mediaErrorRetries := mediaErrorRetries r + length details |},
     replicate (Nat.min (length details) (MAX_RETRIES - mediaErrorRetries r))
       RecoverMediaError
     ++ concat (replicate (length details - (MAX_RETRIES - mediaErrorRetries r))
                  (report onError_given MediaFailure ++ [Destroy]))).
Proof. split; [apply feed_network_only|apply feed_media_only]. Qed.

(** X17. The two counters count: after any feed of events the network
    counter has grown by the number of fatal network errors of the feed
    and the media counter by the number of fatal media errors. Errors of
    another class and errors that are not fatal use up no retry, and no
    counter is ever reset. *)
Theorem X17_counters_count_their_class (onError_given : bool) (r : Retries)
    (events : list ErrorData) :
  networkErrorRetries (feed onError_given r events).1
  = (networkErrorRetries r + length (List.filter isFatalNetwork events))%nat /\
  mediaErrorRetries (feed onError_given r events).1
  = (mediaErrorRetries r + length (List.filter isFatalMedia events))%nat.
Proof. apply feed_counters. Qed.

(** X18. In any feed of events, of any classes in any order, the number
    of [startLoad] calls is the number of fatal network errors, capped by
    what is left of the 3 retries of the network counter; the same holds
    of [recoverMediaError] and the fatal media errors. A new session
    never gets more than 3 recovery calls of a class. *)
Theorem X18_recoveries_are_capped (onError_given : bool) (r : Retries)
    (events : list ErrorData) :
  length (List.filter isStartLoad (feed onError_given r events).2)
  = Nat.min (length (List.filter isFatalNetwork events))
      (MAX_RETRIES - networkErrorRetries r) /\
  length (List.filter isRecoverMediaError (feed onError_given r events).2)
  = Nat.min (length (List.filter isFatalMedia events))
      (MAX_RETRIES - mediaErrorRetries r) /\
  (length (List.filter isStartLoad (feed onError_given initialRetries events).2) <= 3)%nat /\
  (length (List.filter isRecoverMediaError (feed onError_given initialRetries events).2)
     <= 3)%nat.
Proof.
  destruct (feed_recoveries onError_given r events) as [Hn Hm].
  destruct (feed_recoveries onError_given initialRetries events) as [Hn0 Hm0].
  split; [done|]. split; [done|]. rewrite Hn0, Hm0. unfold MAX_RETRIES. simpl. lia.
Qed.

(** X19. Every fatal event gets one answer and nothing else is done:
    the calls of a feed are, in order, one block for each fatal event,
    and a block is one recovery call, or the report to the caller (when
    [onError] was given) followed by [destroy]. So a failure is never
    reported without the engine being destroyed right after. *)
Theorem X19_one_answer_for_each_fatal_event (onError_given : bool) (r : Retries)
    (events : list ErrorData) :
  exists blocks,
    (feed onError_given r events).2 = concat blocks /\
    length blocks = length (List.filter fatal events) /\
    Forall (isAnswer onError_given) blocks.
Proof. apply feed_answers. Qed.

(** ** The resolver and the effect *)

Section EffectFacts.

Variable env : jsstring.
Variable URL_origin : jsstring -> option jsstring.
Variable URL_resolve : jsstring -> jsstring -> option jsstring.
Variable fetchText : jsstring -> option jsstring.
Variable objectURL : nat -> jsstring.

Local Abbreviation processMasterPlaylist :=
  (processMasterPlaylist env URL_origin URL_resolve fetchText objectURL).

Lemma processMasterPlaylist_rejected masterSrc schedule :
  fetchText masterSrc = None ->
  processMasterPlaylist masterSrc schedule = (Rejected, noBlobs).
Proof. intros E. unfold Player.processMasterPlaylist. by rewrite E. Qed.

Lemma processMasterPlaylist_simple masterSrc masterContent schedule :
  fetchText masterSrc = Some masterContent ->
  includes STREAM_INF masterContent = false ->
  processMasterPlaylist masterSrc schedule
  = (SimplePlaylist (objectURL 0),
     {| handedOut := 1;
        store := [(objectURL 0, filterM3u8Ad env URL_origin masterContent masterSrc)];
        createdBlobs := [] |}).
Proof. intros E1 E2. unfold Player.processMasterPlaylist. by rewrite E1, E2. Qed.

Lemma processMasterPlaylist_master masterSrc masterContent schedule :
  fetchText masterSrc = Some masterContent ->
  includes STREAM_INF masterContent = true ->
  exists n finalLines contents,
    length contents = n /\
    length finalLines = length (split_lines masterContent) /\
    (forall index,
       childSettles URL_resolve fetchText masterSrc (split_lines masterContent) index = false ->
       finalLines !! index = split_lines masterContent !! index) /\
    processMasterPlaylist masterSrc schedule
    = (MasterPlaylist (objectURL n) (List.map objectURL (seq 0 n) ++ [objectURL n]),
       {| handedOut := S n;
          store := contents ++ [(objectURL n, join finalLines)];
          createdBlobs := List.map objectURL (seq 0 n) ++ [objectURL n] |}).
Proof.
  intros E1 E2. unfold Player.processMasterPlaylist. rewrite E1, E2. simpl.
  destruct (settleAll env URL_origin URL_resolve fetchText objectURL masterSrc
              (split_lines masterContent) schedule (split_lines masterContent) noBlobs)
    as [finalLines b1] eqn:E.
  destruct (settleAll_grown env URL_origin URL_resolve fetchText objectURL masterSrc
              _ _ _ _ _ _ E) as [(Hn & Hc & contents & Hs & Hlen) Hlines].
  simpl in Hn, Hc, Hs.
  set (n := length (List.filter
                      (childSettles URL_resolve fetchText masterSrc (split_lines masterContent))
                      schedule)) in *.
  exists n, finalLines, contents. split; [done|]. split; [done|]. split.
  { intros index Hf. by eapply settleAll_failed. }
  unfold createObjectURL, pushCreated. simpl. by rewrite Hn, Hc, Hs.
Qed.

Lemma processMasterPlaylist_revoked masterSrc schedule :
  revokedOnCleanup (processMasterPlaylist masterSrc schedule).1
  = List.map objectURL (seq 0 (handedOut (processMasterPlaylist masterSrc schedule).2)) /\
  length (store (processMasterPlaylist masterSrc schedule).2)
  = handedOut (processMasterPlaylist masterSrc schedule).2.
Proof.
  destruct (fetchText masterSrc) as [masterContent|] eqn:E1.
  - destruct (includes STREAM_INF masterContent) eqn:E2.
    + destruct (processMasterPlaylist_master _ _ schedule E1 E2)
        as (n & finalLines & contents & Hlen & _ & _ & ->).
      cbn [fst snd revokedOnCleanup handedOut store].
      split; [by rewrite seq_S, map_app|]. rewrite length_app. simpl. lia.
    + by rewrite (processMasterPlaylist_simple _ _ schedule E1 E2).
  - by rewrite processMasterPlaylist_rejected.
Qed.

End EffectFacts.

(** X20. No artifact is left behind: whatever the master holds,
    whichever fetches fail and in whatever order the children settle,
    the URLs that the cleanup of the effect revokes, once the resolver
    has settled, are exactly the URLs that [URL.createObjectURL] handed
    out, each once and in the order of their making, and each of them
    stands for one stored content. *)
Theorem X20_every_artifact_is_revoked (env : jsstring)
    (URL_origin : jsstring -> option jsstring)
    (URL_resolve : jsstring -> jsstring -> option jsstring)
    (fetchText : jsstring -> option jsstring) (objectURL : nat -> jsstring)
    (masterSrc : jsstring) (schedule : list nat) :
  let result :=
    processMasterPlaylist env URL_origin URL_resolve fetchText objectURL masterSrc schedule in
  revokedOnCleanup result.1 = List.map objectURL (seq 0 (handedOut result.2)) /\
  length (store result.2) = handedOut result.2.
Proof. apply processMasterPlaylist_revoked. Qed.

Section EffectCases.

Variable env : jsstring.
Variable URL_origin : jsstring -> option jsstring.
Variable URL_resolve : jsstring -> jsstring -> option jsstring.
Variable fetchText : jsstring -> option jsstring.
Variable objectURL : nat -> jsstring.

Local Abbreviation processMasterPlaylist :=
  (processMasterPlaylist env URL_origin URL_resolve fetchText objectURL).
Local Abbreviation useHlsPlayer_effect :=
  (useHlsPlayer_effect env URL_origin URL_resolve fetchText objectURL).

Lemma effect_native_filtered src schedule :
  truthy src = true ->
  useHlsPlayer_effect true src false true true schedule
  = (attachResolved src (processMasterPlaylist src schedule).1,
     revokedOnCleanup (processMasterPlaylist src schedule).1,
     (processMasterPlaylist src schedule).2).
Proof.
  intros E. unfold Player.useHlsPlayer_effect. rewrite E. simpl.
  by destruct (Player.processMasterPlaylist _ _ _ _ _ _ _).
Qed.

(** What the resolver gives the video element. *)
Lemma resolved_attachment src schedule :
  (fetchText src = None /\
   processMasterPlaylist src schedule = (Rejected, noBlobs)) \/
  (exists masterContent url content,
     fetchText src = Some masterContent /\
     attachResolved src (processMasterPlaylist src schedule).1 = VideoSrc url /\
     (url, content) ∈ store (processMasterPlaylist src schedule).2 /\
     last (revokedOnCleanup (processMasterPlaylist src schedule).1) = Some url /\
     (includes STREAM_INF masterContent = false ->
      content = filterM3u8Ad env URL_origin masterContent src /\
      revokedOnCleanup (processMasterPlaylist src schedule).1 = [url]) /\
     (includes STREAM_INF masterContent = true ->
      exists finalLines,
        content = join finalLines /\
        length finalLines = length (split_lines masterContent) /\
        forall index,
          childSettles URL_resolve fetchText src (split_lines masterContent) index = false ->
          finalLines !! index = split_lines masterContent !! index)).
Proof.
  destruct (fetchText src) as [masterContent|] eqn:E1.
  - right. destruct (includes STREAM_INF masterContent) eqn:E2.
    + destruct (processMasterPlaylist_master env URL_origin URL_resolve fetchText objectURL
                  _ _ schedule E1 E2)
        as (n & finalLines & contents & Hlen & Hlines & Hframe & ->).
      exists masterContent, (objectURL n), (join finalLines).
      cbn [fst snd attachResolved revokedOnCleanup store].
      split; [done|]. split; [done|]. split; [rewrite elem_of_app; right; by left|].
      split; [apply last_snoc|]. split; [intros E; congruence|]. intros _.
      by exists finalLines.
    + rewrite (processMasterPlaylist_simple env URL_origin URL_resolve fetchText objectURL
                 _ _ schedule E1 E2).
      exists masterContent, (objectURL 0), (filterM3u8Ad env URL_origin masterContent src).
      cbn [fst snd attachResolved revokedOnCleanup store].
      split; [done|]. split; [done|]. split; [by left|]. split; [done|].
      split; [done|]. intros E; congruence.
  - left. split; [done|]. by apply processMasterPlaylist_rejected.
Qed.

End EffectCases.

(** X21. Native playback with filtering on (no [Hls] engine, native HLS
    there): when the fetch of the source fails, the video element is
    given the source URL itself and nothing is made or revoked.
    Otherwise it is given a made URL, the last of those the cleanup
    revokes, and the content stored for this URL is the rewriting of the
    fetched text against the source URL when the text holds no
    stream-info tag (then nothing else is made); when it holds one, the
    content is the lines of the fetched text joined by line feeds, as
    many as before, those without a fetched child as they were. *)
Theorem X21_native_playback_with_filter (env : jsstring)
    (URL_origin : jsstring -> option jsstring)
    (URL_resolve : jsstring -> jsstring -> option jsstring)
    (fetchText : jsstring -> option jsstring) (objectURL : nat -> jsstring)
    (src : jsstring) (schedule : list nat) :
  truthy src = true ->
  exists attachment revoked b,
    useHlsPlayer_effect env URL_origin URL_resolve fetchText objectURL
      true src false true true schedule = (attachment, revoked, b) /\
    ((fetchText src = None /\ attachment = VideoSrc src /\ revoked = [] /\ b = noBlobs) \/
     (exists masterContent url content,
        fetchText src = Some masterContent /\
        attachment = VideoSrc url /\
        (url, content) ∈ store b /\
        last revoked = Some url /\
        (includes STREAM_INF masterContent = false ->
         content = filterM3u8Ad env URL_origin masterContent src /\ revoked = [url]) /\
        (includes STREAM_INF masterContent = true ->
         exists finalLines,
           content = join finalLines /\
           length finalLines = length (split_lines masterContent) /\
           forall index,
             childSettles URL_resolve fetchText src (split_lines masterContent) index = false ->
             finalLines !! index = split_lines masterContent !! index))).
Proof.
  intros Hsrc. do 3 eexists. split; [by apply effect_native_filtered|].
  destruct (resolved_attachment env URL_origin URL_resolve fetchText objectURL src schedule)
    as [[E ->]|H]; [left|right; exact H].
  by repeat split.
Qed.

Lemma X21_native_playback_with_filter_witness :
  exists attachment revoked b,
    useHlsPlayer_effect [] simple_origin example_resolve example_fetch example_objectURL
      true (lit "http://h/p/v1.m3u8") false true true [] = (attachment, revoked, b) /\
    ((example_fetch (lit "http://h/p/v1.m3u8") = None /\
      attachment = VideoSrc (lit "http://h/p/v1.m3u8") /\ revoked = [] /\ b = noBlobs) \/
     (exists masterContent url content,
        example_fetch (lit "http://h/p/v1.m3u8") = Some masterContent /\
        attachment = VideoSrc url /\
        (url, content) ∈ store b /\
        last revoked = Some url /\
        (includes STREAM_INF masterContent = false ->
         content = filterM3u8Ad [] simple_origin masterContent (lit "http://h/p/v1.m3u8") /\
         revoked = [url]) /\
        (includes STREAM_INF masterContent = true ->
         exists finalLines,
           content = join finalLines /\
           length finalLines = length (split_lines masterContent) /\
           forall index,
             childSettles example_resolve example_fetch (lit "http://h/p/v1.m3u8")
               (split_lines masterContent) index = false ->
             finalLines !! index = split_lines masterContent !! index))).
Proof.
  apply (X21_native_playback_with_filter [] simple_origin example_resolve example_fetch
           example_objectURL (lit "http://h/p/v1.m3u8") []).
  reflexivity.
Defined.

(** X22. The setting decides whether the rewriter is involved. With
    filtering off the engine never gets the interception loader, and
    nothing is made or revoked. With filtering on the engine, when one is
    made, has the interception loader, and the video element is given a
    URL only on the native path: the source URL itself when its fetch
    failed, a made URL with stored content otherwise. The caller is told
    that HLS is not supported exactly when there is a video element and a
    source and neither the engine nor native HLS is there; nothing is
    done exactly when the element or the source is missing. *)
Theorem X22_setting_decides_the_path (env : jsstring)
    (URL_origin : jsstring -> option jsstring)
    (URL_resolve : jsstring -> jsstring -> option jsstring)
    (fetchText : jsstring -> option jsstring) (objectURL : nat -> jsstring)
    (video : bool) (src : jsstring) (Hls_isSupported isNativeHlsSupported : bool)
    (schedule : list nat) :
  let effect :=
    useHlsPlayer_effect env URL_origin URL_resolve fetchText objectURL
      video src Hls_isSupported isNativeHlsSupported in
  ((effect false schedule).1.1 <> HlsEngine true /\
   (effect false schedule).1.2 = [] /\ (effect false schedule).2 = noBlobs) /\
  ((effect true schedule).1.1 <> HlsEngine false /\
   forall url, (effect true schedule).1.1 = VideoSrc url ->
     Hls_isSupported = false /\ isNativeHlsSupported = true /\
     ((fetchText src = None /\ url = src) \/
      exists content, (url, content) ∈ store (effect true schedule).2)) /\
  (forall adFilter,
     ((effect adFilter schedule).1.1 = NotSupported <->
      video = true /\ truthy src = true /\
      Hls_isSupported = false /\ isNativeHlsSupported = false) /\
     ((effect adFilter schedule).1.1 = NoEffect <->
      video = false \/ truthy src = false)).
Proof.
  intros effect. split; [|split].
  - unfold effect, useHlsPlayer_effect.
    destruct video, (truthy src), Hls_isSupported, isNativeHlsSupported; by simpl.
  - destruct video, (truthy src) eqn:Esrc, Hls_isSupported, isNativeHlsSupported;
      try (unfold effect, useHlsPlayer_effect; rewrite Esrc; simpl; by split).
    unfold effect. rewrite effect_native_filtered by done. cbn [fst snd].
    destruct (resolved_attachment env URL_origin URL_resolve fetchText objectURL src schedule)
      as [[E ->]|(masterContent & u & content & E & -> & Hin & _)].
    + cbn [fst snd attachResolved]. split; [done|]. intros url [= <-].
      split; [done|]. split; [done|]. by left.
    + split; [done|]. intros url [= <-]. split; [done|]. split; [done|]. right.
      by exists content.
  - intros adFilter. unfold effect, useHlsPlayer_effect.
    destruct video, (truthy src) eqn:Esrc, Hls_isSupported, isNativeHlsSupported, adFilter;
      simpl; try (split; split; intros H; try done; intuition congruence).
    all: destruct (processMasterPlaylist _ _ _ _ _ _ _) as [[u|u bs|] b];
      simpl; split; split; intros H; try done; intuition congruence.
Qed.

(** ** The line of a rendition *)

Section RenditionFacts.

Lemma firstUri_spec s uri :
  firstUri s = Some uri ->
  uri <> [] /\ (QUOTE ∉ uri) /\ includes (URI_ATTR ++ uri ++ [QUOTE]) s = true.
Proof.
  induction s as [|c s IH]; [done|].
  change (firstUri (c :: s))
    with (match match_uri (c :: s) with
          | Some (uri, _) => Some uri
          | None => firstUri s
          end).
  destruct (match_uri (c :: s)) as [[uri' rest]|] eqn:E.
  - intros [= ->]. apply match_uri_Some in E as (E & Hne & Hq).
    split; [done|]. split; [done|]. rewrite E.
    apply includes_spec. exists [], rest. by rewrite <- !app_assoc.
  - intros H. destruct (IH H) as (Hne & Hq & Hin). split; [done|]. split; [done|].
    apply includes_spec in Hin as (a & b & ->). apply includes_spec.
    by exists (c :: a), b.
Qed.

Lemma replaceFirst_spec pattern replacement s :
  includes pattern s = true ->
  exists pre post,
    s = pre ++ pattern ++ post /\
    replaceFirst pattern replacement s = pre ++ replacement ++ post.
Proof.
  induction s as [|c s IH].
  - intros H. simpl in H. rewrite orb_false_r in H.
    apply startsWith_nil_r in H as ->. by exists [], [].
  - intros H.
    change (replaceFirst pattern replacement (c :: s))
      with (if startsWith pattern (c :: s)
            then replacement ++ drop (length pattern) (c :: s)
            else c :: replaceFirst pattern replacement s).
    destruct (startsWith pattern (c :: s)) eqn:E.
    + apply startsWith_inv in E as (r & E). rewrite E. exists [], r.
      split; [done|]. by rewrite drop_app_length.
    + change (includes pattern (c :: s))
        with (startsWith pattern (c :: s) || includes pattern s) in H.
      rewrite E in H. destruct (IH H) as (pre & post & -> & ->).
      by exists (c :: pre), post.
Qed.

Lemma childOf_media lines index line relativeUri :
  childOf lines index line = Some (MediaUri relativeUri) ->
  startsWith EXT_X_MEDIA (trim line) = true /\
  firstUri (trim line) = Some relativeUri /\
  startsWith (lit "http") relativeUri = false.
Proof.
  unfold childOf.
  set (variant := if _ && _ && _ && _ then Some (VariantUri (trim line)) else None).
  assert (variant <> Some (MediaUri relativeUri)) as Hv.
  { unfold variant. by destruct (_ && _ && _ && _). }
  destruct (startsWith EXT_X_MEDIA (trim line)); [|by intros H]. cbn [andb].
  destruct (includes URI_ATTR (trim line)); [|by intros H].
  destruct (firstUri (trim line)) as [uri|]; [|by intros H].
  destruct (startsWith (lit "http") uri) eqn:E; cbn [negb]; [by intros H|].
  intros [= ->]. by repeat split.
Qed.

End RenditionFacts.

(** X23. The line of a rendition ([#EXT-X-MEDIA] with a quoted URI that
    does not start with [http]) whose child is fetched keeps everything
    but the value of its first quoted URI attribute, which becomes the
    URL of the child artifact. The URL of an artifact holds no dollar
    sign, so that it is put in as it is. *)
Theorem X23_rendition_line_keeps_the_rest (lines : list jsstring) (index : nat)
    (line relativeUri subBlobUrl : jsstring) :
  childOf lines index line = Some (MediaUri relativeUri) ->
  36 ∉ subBlobUrl ->
  relativeUri <> [] /\
  startsWith (lit "http") relativeUri = false /\
  exists pre post,
    line = pre ++ URI_ATTR ++ relativeUri ++ QUOTE :: post /\
    settledLine line (MediaUri relativeUri) subBlobUrl
    = pre ++ URI_ATTR ++ subBlobUrl ++ QUOTE :: post.
Proof.
  intros Hchild _. apply childOf_media in Hchild as (_ & Hfirst & Hhttp).
  apply firstUri_spec in Hfirst as (Hne & _ & Hin).
  split; [done|]. split; [done|].
  destruct (trim_decomp line) as (a & b & Hline & _).
  assert (includes (URI_ATTR ++ relativeUri ++ [QUOTE]) line = true) as Hin'.
  { rewrite Hline. by apply includes_mono. }
  destruct (replaceFirst_spec _ (URI_ATTR ++ subBlobUrl ++ [QUOTE]) _ Hin')
    as (pre & post & E1 & E2).
  exists pre, post. unfold settledLine. rewrite E2. split.
  - rewrite E1 at 1. by rewrite <- !app_assoc.
  - by rewrite <- !app_assoc.
Qed.

Lemma X23_rendition_line_keeps_the_rest_witness :
  let line := lit "#EXT-X-MEDIA:TYPE=AUDIO," ++ URI_ATTR ++ lit "audio/en.m3u8"
              ++ QUOTE :: lit ",NAME=en" in
  lit "audio/en.m3u8" <> [] /\
  startsWith (lit "http") (lit "audio/en.m3u8") = false /\
  exists pre post,
    line = pre ++ URI_ATTR ++ lit "audio/en.m3u8" ++ QUOTE :: post /\
    settledLine line (MediaUri (lit "audio/en.m3u8")) (example_objectURL 0)
    = pre ++ URI_ATTR ++ example_objectURL 0 ++ QUOTE :: post.
Proof.
  apply (X23_rendition_line_keeps_the_rest
           [lit "#EXTM3U";
            lit "#EXT-X-MEDIA:TYPE=AUDIO," ++ URI_ATTR ++ lit "audio/en.m3u8"
            ++ QUOTE :: lit ",NAME=en"] 1); [reflexivity|].
  intros H. apply includes_elem in H. vm_compute in H. discriminate.
Defined.

(** ** Playlists that need no rewriting *)

Section CleanFacts.

Lemma join_cons_first c (pieces : list jsstring) :
  pieces <> [] -> join (cons_first c pieces) = c :: join pieces.
Proof. destruct pieces as [|h [|h' t]]; by intros. Qed.

Lemma join_split_lines s : includes [13; 10] s = false -> join (split_lines s) = s.
Proof.
  induction s as [|s IH|s IH|c s Hc Hcr IH] using split_lines_ind; [done| | |].
  - intros H. rewrite split_lines_lf.
    change (includes [13; 10] (10 :: s))
      with (startsWith [13; 10] (10 :: s) || includes [13; 10] s) in H.
    apply orb_false_iff in H as [_ H]. specialize (IH H).
    destruct (split_lines s) as [|h t] eqn:E; [by apply split_lines_nonempty in E|].
    change (join ([] :: h :: t)) with (10 :: join (h :: t)). by rewrite IH.
  - intros H. pose proof (includes_intro [13; 10] [] s) as H'. simpl app in H'.
    congruence.
  - intros H. rewrite split_lines_unit by done.
    change (includes [13; 10] (c :: s))
      with (startsWith [13; 10] (c :: s) || includes [13; 10] s) in H.
    apply orb_false_iff in H as [_ H].
    rewrite join_cons_first by apply split_lines_nonempty. by rewrite IH.
Qed.

Variable env : jsstring.
Variable URL_origin : jsstring -> option jsstring.
Variable baseUrl : jsstring.

Lemma rewriteLine_settledAlready line :
  settledAlready line = true ->
  isDiscontinuity line = false /\ rewriteLine URL_origin baseUrl line = line.
Proof.
  unfold settledAlready. intros [Hd%negb_true_iff H]%andb_true_iff. split; [done|].
  apply orb_true_iff in H as [H|[Htag Hattr%negb_true_iff]%andb_true_iff].
  - by apply rewriteLine_passedThrough.
  - rewrite rewriteLine_tag by done. by apply replaceURI_without_attr.
Qed.

Lemma settledAlready_kept lines :
  forallb settledAlready lines = true ->
  List.map (rewriteLine URL_origin baseUrl)
    (List.filter (fun l => negb (isDiscontinuity l)) lines) = lines.
Proof.
  induction lines as [|l lines IH]; [done|]. simpl.
  intros [Hl H]%andb_true_iff.
  destruct (rewriteLine_settledAlready l Hl) as [-> E]. simpl. by rewrite E, IH.
Qed.

End CleanFacts.

(** X24. A playlist that needs no rewriting is returned as it is: when
    the document holds no keyword and no carriage return before a line
    feed, and each of its lines is blank, starts with [http] or [blob:],
    or is a tag other than the discontinuity tag without quoted URI
    attribute, the rewriter returns the document itself, whatever the
    base URL. *)
Theorem X24_clean_playlist_unchanged (env : jsstring)
    (URL_origin : jsstring -> option jsstring) (content baseUrl : jsstring) :
  hasAdMatch env content = false ->
  includes [13; 10] content = false ->
  forallb settledAlready (split_lines content) = true ->
  processedLines env URL_origin content baseUrl = split_lines content /\
  filterM3u8Ad env URL_origin content baseUrl = content.
Proof.
  intros Hno Hcrlf Hlines.
  assert (processedLines env URL_origin content baseUrl = split_lines content) as E.
  { unfold processedLines, processLines. rewrite Hno, processLines_no_ad.
    rewrite app_nil_r, rev_involutive. by apply settledAlready_kept. }
  split; [done|]. unfold filterM3u8Ad. destruct content as [|c content]; [done|].
  cbn [truthy negb]. rewrite E. by apply join_split_lines.
Qed.

Lemma X24_clean_playlist_unchanged_witness :
  let content := lit (nl "#EXTM3U" (nl "#EXTINF:5" (nl "http://h/a.ts" ""))) in
  processedLines [] simple_origin content example_base = split_lines content /\
  filterM3u8Ad [] simple_origin content example_base = content.
Proof.
  apply (X24_clean_playlist_unchanged [] simple_origin
           (lit (nl "#EXTM3U" (nl "#EXTINF:5" (nl "http://h/a.ts" "")))) example_base);
    reflexivity.
Defined.
